(** * Instagram downloader edge function: gatekeeping and proxy layer

    A shallow embedding of [supabase/functions/instagram-downloader/index.ts]
    and the properties its specification states about it.  The file holds
    two handlers: the gatekeeping handler built on [serve] (origin check,
    bearer authentication, in-memory rate limiter, URL validation, upstream
    normalisation) and an earlier handler built on [Deno.serve] that only
    validates and proxies; the latter is embedded in module [Legacy].

    Conventions of the embedding:
    - header values and configuration strings are [string] (byte strings, as
      the Fetch [Headers] object hands them out);
    - strings that come out of [JSON.parse] are sequences of UTF-16 code
      units, [jsstr];
    - a JavaScript value that may be [undefined] is an [option];
    - an expression that may throw returns a [completion];
    - [Date.now()] and the upstream reply are inputs of the handler. *)

From Stdlib Require Import ZArith NArith Ascii String List Bool Lia.
From stdpp Require Import base option list strings gmap fin_maps.

Set Default Proof Using "Type".
Set Warnings "-register-all".
Open Scope Z_scope.

(** ** Regular expressions over an arbitrary alphabet

    The URL pattern of the handler uses literals, character classes,
    alternation, [?], [+], [.] and [*], anchored at both ends, so
    [RegExp.prototype.test] decides membership of the whole string in the
    language of the pattern.  The matcher below works by derivatives. *)

Module Regex.
Section Defs.
Context {A : Type}.

Inductive regex : Type :=
| Void
| Eps
| Sym (p : A → bool)
| Cat (r1 r2 : regex)
| Alt (r1 r2 : regex)
| Star (r : regex).

Definition Opt (r : regex) : regex := Alt r Eps.
Definition Plus (r : regex) : regex := Cat r (Star r).

Inductive matches : regex → list A → Prop :=
| m_eps : matches Eps []
| m_sym p a : p a = true → matches (Sym p) [a]
| m_cat r1 r2 s1 s2 : matches r1 s1 → matches r2 s2 → matches (Cat r1 r2) (s1 ++ s2)
| m_alt_l r1 r2 s : matches r1 s → matches (Alt r1 r2) s
| m_alt_r r1 r2 s : matches r2 s → matches (Alt r1 r2) s
| m_star_nil r : matches (Star r) []
| m_star_app r s1 s2 : matches r s1 → matches (Star r) s2 → matches (Star r) (s1 ++ s2).

Fixpoint nullable (r : regex) : bool :=
  match r with
  | Void => false
  | Eps => true
  | Sym _ => false
  | Cat r1 r2 => nullable r1 && nullable r2
  | Alt r1 r2 => nullable r1 || nullable r2
  | Star _ => true
  end.

Fixpoint deriv (a : A) (r : regex) : regex :=
  match r with
  | Void => Void
  | Eps => Void
  | Sym p => if p a then Eps else Void
  | Cat r1 r2 =>
      if nullable r1 then Alt (Cat (deriv a r1) r2) (deriv a r2)
      else Cat (deriv a r1) r2
  | Alt r1 r2 => Alt (deriv a r1) (deriv a r2)
  | Star r1 => Cat (deriv a r1) (Star r1)
  end.

Fixpoint accepts (r : regex) (s : list A) : bool :=
  match s with
  | [] => nullable r
  | a :: s' => accepts (deriv a r) s'
  end.

End Defs.
Global Arguments regex : clear implicits.
End Regex.

(** ** JavaScript values *)

(** A string produced by [JSON.parse] is a sequence of UTF-16 code units. *)
Abbreviation jsstr := (list N).

Definition js (s : string) : jsstr := N_of_ascii <$> list_ascii_of_string s.

(** A number produced by [JSON.parse] is an IEEE double.  The handlers never
    compute with one: they test it for truthiness, compare it with [0] and
    convert it to a string, and [JSON.stringify] asks whether it is finite
    (the text [1e999] parses to an infinity).  The embedding keeps these
    observations: [nonzero] is [ToBoolean] (a parsed number is never [NaN],
    so it is also the negation of [=== 0]), [text] is [ToString] and
    [finite] is [isFinite]. *)
Record double := Double { nonzero : bool; finite : bool; text : jsstr }.

Inductive json : Type :=
| JNull
| JBool (b : bool)
| JNum (d : double)
| JStr (s : jsstr)
| JArr (items : list json)
| JObj (fields : list (jsstr * json)).

(** [undefined] is [None]. *)
Abbreviation jsval := (option json).

Inductive exn := TypeError | SyntaxError | URIError | NetworkError.

Inductive completion (A : Type) : Type :=
| Normal (a : A)
| Throw (e : exn).
Global Arguments Normal {A} a.
Global Arguments Throw {A} e.

Global Instance completion_ret : MRet completion := λ A a, Normal a.
Global Instance completion_bind : MBind completion := λ A B f c,
  match c with
  | Normal a => f a
  | Throw e => Throw e
  end.

(** [ToBoolean]. *)
Definition truthy (v : json) : bool :=
  match v with
  | JNull => false
  | JBool b => b
  | JNum d => nonzero d
  | JStr s => match s with [] => false | _ => true end
  | JArr _ | JObj _ => true
  end.

Definition truthy_val (v : jsval) : bool := from_option truthy false v.

(** [a || b] on values. *)
Definition or_else (a : jsval) (b : json) : json :=
  match a with
  | Some v => if truthy v then v else b
  | None => b
  end.

(** Own property of a parsed object; [JSON.parse] keeps the last of several
    members with one name. *)
Fixpoint own (fields : list (jsstr * json)) (k : jsstr) : jsval :=
  match fields with
  | [] => None
  | (k', v) :: rest =>
      match own rest k with
      | Some v' => Some v'
      | None => if decide (k' = k) then Some v else None
      end
  end.

(** [v.k] for the names the handlers read ([status], [data], [medias],
    [type], [thumbnail], [quality], [url], [formattedSize]): none of them is
    defined on a prototype, so the access yields the own property of an
    object, [undefined] on any other value that can be converted to an
    object, and throws on [null]. *)
Definition prop (v : json) (k : jsstr) : completion jsval :=
  match v with
  | JNull => Throw TypeError
  | JObj fields => Normal (own fields k)
  | _ => Normal None
  end.

(** [v.length === 0] for a value [v] other than [null]. *)
Definition length_is_zero (v : json) : bool :=
  match v with
  | JArr items => match items with [] => true | _ => false end
  | JStr s => match s with [] => true | _ => false end
  | JObj fields =>
      match own fields (js "length") with
      | Some (JNum d) => negb (nonzero d)
      | _ => false
      end
  | _ => false
  end.

(** [ToString].  An array is joined with commas, [null] elements giving the
    empty string; an object without an own [toString] member is
    ["[object Object]"], and one with such a member has no callable
    conversion left, which is a [TypeError]. *)
Fixpoint to_string (v : json) : completion jsstr :=
  match v with
  | JNull => Normal (js "null")
  | JBool true => Normal (js "true")
  | JBool false => Normal (js "false")
  | JNum d => Normal (text d)
  | JStr s => Normal s
  | JArr items =>
      (fix join (l : list json) : completion jsstr :=
         match l with
         | [] => Normal []
         | x :: rest =>
             let elem := match x with JNull => Normal [] | _ => to_string x end in
             match rest with
             | [] => elem
             | _ => s ← elem; r ← join rest; Normal (s ++ js "," ++ r)
             end
         end) items
  | JObj fields =>
      match own fields (js "toString") with
      | Some _ => Throw TypeError
      | None => Normal (js "[object Object]")
      end
  end.

(** [encodeURIComponent] throws a [URIError] on a lone surrogate. *)
Definition is_high_surrogate (c : N) : bool := ((0xD800 <=? c) && (c <=? 0xDBFF))%N.
Definition is_low_surrogate (c : N) : bool := ((0xDC00 <=? c) && (c <=? 0xDFFF))%N.

Fixpoint well_formed_utf16 (s : jsstr) : bool :=
  match s with
  | [] => true
  | c :: rest =>
      if is_high_surrogate c then
        match rest with
        | d :: rest' => is_low_surrogate d && well_formed_utf16 rest'
        | [] => false
        end
      else negb (is_low_surrogate c) && well_formed_utf16 rest
  end.

(** ** The URL pattern

    The source pattern, written here with a space between its parts and
    carrying no flags:

      ^( https? :\/\/ (?:www\.)? instagram\.com\/ (?:p|reel|tv) \/ [a-zA-Z0-9_-]+ \/? .* )$ *)

Import Regex.

Definition chr (c : ascii) : regex N := Sym (N.eqb (N_of_ascii c)).

Definition lit_of (cs : list ascii) : regex N := foldr (λ c r, Cat (chr c) r) Eps cs.
Definition lit (s : string) : regex N := lit_of (list_ascii_of_string s).

Definition between (lo hi : ascii) (c : N) : bool :=
  ((N_of_ascii lo <=? c) && (c <=? N_of_ascii hi))%N.

(** [[a-zA-Z0-9_-]] *)
Definition id_char (c : N) : bool :=
  between "a" "z" c || between "A" "Z" c || between "0" "9" c
  || N.eqb c (N_of_ascii "_") || N.eqb c (N_of_ascii "-").

(** [.] without the [s] flag: anything but a line terminator. *)
Definition line_terminator (c : N) : bool :=
  (N.eqb c 0x000A || N.eqb c 0x000D || N.eqb c 0x2028 || N.eqb c 0x2029)%N.
Definition dot (c : N) : bool := negb (line_terminator c).

Definition url_pattern : regex N :=
  Cat (lit "http") (Cat (Opt (chr "s")) (Cat (lit "://")
  (Cat (Opt (lit "www."))
  (Cat (lit "instagram.com/")
  (Cat (Alt (lit "p") (Alt (lit "reel") (lit "tv")))
  (Cat (lit "/")
  (Cat (Plus (Sym id_char))
  (Cat (Opt (chr "/")) (Star (Sym dot)))))))))).

(** [pattern.test(url)]: the argument is converted to a string first. *)
Definition isValidInstagramUrl (url : json) : completion bool :=
  s ← to_string url; Normal (accepts url_pattern s).

(** ** Configuration, requests and responses *)

(** The numbers the limiter computes with are IEEE doubles: the two
    [parseInt] results, [Date.now()], and the sums and products formed from
    them.  All of these are integer-valued, an infinity ([parseInt] of a
    digit string beyond the range of a double, or an overflow) or [NaN];
    [Int 0] stands for both zeros, which no operation used here tells
    apart. *)
Inductive number := NaN | Int (z : Z) | Inf (positive : bool).

(** The double nearest to the integer [z], ties going to the even
    significand.  Below 2^53 in magnitude every integer is a double.  From
    there on a double keeps 53 significant bits: with [e] the number of low
    bits that do not fit, [z] lies between two neighbouring multiples of
    [2^e], and a result of magnitude 2^1024 or more is an infinity. *)
Definition round_double (z : Z) : number :=
  let a := Z.abs z in
  if a <? 2 ^ 53 then Int z
  else
    let e := Z.log2 a - 52 in
    let q := a / 2 ^ e in
    let r := a mod 2 ^ e in
    let half := 2 ^ (e - 1) in
    let q' := if (half <? r) || ((r =? half) && Z.odd q) then q + 1 else q in
    let m := q' * 2 ^ e in
    if 2 ^ 1024 <=? m then Inf (0 <? z) else Int (Z.sgn z * m).

(** [a + b]: the exact sum, rounded; opposite infinities give [NaN]. *)
Definition num_add (a b : number) : number :=
  match a, b with
  | Int x, Int y => round_double (x + y)
  | Inf p, Int _ | Int _, Inf p => Inf p
  | Inf p, Inf q => if Bool.eqb p q then Inf p else NaN
  | _, _ => NaN
  end.
(** [a * b]: the exact product, rounded; an infinity times zero is [NaN]. *)
Definition num_mul (a b : number) : number :=
  match a, b with
  | Int x, Int y => round_double (x * y)
  | Inf p, Int z | Int z, Inf p =>
      if z =? 0 then NaN else Inf (Bool.eqb p (0 <? z))
  | Inf p, Inf q => Inf (Bool.eqb p q)
  | _, _ => NaN
  end.
(** [a > b]; any comparison with [NaN] is false. *)
Definition num_gt (a b : number) : bool :=
  match a, b with
  | Int x, Int y => y <? x
  | Inf true, Int _ | Int _, Inf false | Inf true, Inf false => true
  | _, _ => false
  end.

(** The module-level constants read from the environment when the function
    starts: [ALLOWED_ORIGINS] after [split(',')] and [trim],
    [REQUIRED_API_KEY] as [Deno.env.get] returns it, and the two [parseInt]
    results.  These are doubles: an [Int z] stands for an integer that a
    double holds, as [parseInt] rounds the digits it reads to one. *)
Record config := Config {
  ALLOWED_ORIGINS : list string;
  REQUIRED_API_KEY : option string;
  RATE_LIMIT_WINDOW_SECONDS : number;
  RATE_LIMIT_MAX_REQUESTS : number
}.

(** The defaults taken when a variable is unset. *)
Definition default_config : config :=
  {| ALLOWED_ORIGINS := ["*"%string]; REQUIRED_API_KEY := None;
     RATE_LIMIT_WINDOW_SECONDS := Int 60; RATE_LIMIT_MAX_REQUESTS := Int 10 |}.

(** What the handler reads of a request: the method, five headers as
    [req.headers.get] returns them ([null] is [None]) and the outcome of
    [req.json()]. *)
Record request := Request {
  method : string;
  Origin : option string;
  X_Forwarded_For : option string;
  X_Real_IP : option string;
  CF_Connecting_IP : option string;
  Authorization : option string;
  req_json : completion json
}.

(** A response: status, headers, and the body as the JSON document that
    [JSON.stringify] wrote, or [None] for the [null] body. *)
Record response := Response {
  status : Z;
  headers : gmap string string;
  body : option json
}.

(** Truthiness of a header value or configuration string. *)
Definition str_truthy (s : option string) : bool :=
  match s with
  | Some s => negb (String.eqb s "")
  | None => false
  end.

(** [a || b] where both may be missing, and with a string literal on the
    right. *)
Definition or_opt (a b : option string) : option string :=
  if str_truthy a then a else b.
Definition or_default (a : option string) (b : string) : string :=
  match a with
  | Some s => if String.eqb s "" then b else s
  | None => b
  end.

(** [list.includes(x)]. *)
Definition includes (l : list string) (x : string) : bool := bool_decide (x ∈ l).
Definition includes_opt (l : list string) (x : option string) : bool :=
  match x with Some s => includes l s | None => false end.

(** [s.split(sep)] for a one-character separator. *)
Fixpoint split_on (sep : ascii) (s : string) : list string :=
  match s with
  | EmptyString => [EmptyString]
  | String c rest =>
      if Ascii.eqb c sep then EmptyString :: split_on sep rest
      else match split_on sep rest with
           | h :: t => String c h :: t
           | [] => [String c EmptyString]
           end
  end.

(** *** The envelope *)

Record DownloadOption := {
  quality : json;
  url : jsval;
  size : json
}.

Record MediaResult := {
  type : json;
  originalUrl : json;
  thumbnail : jsval;
  downloadOptions : list DownloadOption
}.

Record ApiResponse := {
  success : bool;
  data : option MediaResult;
  error : option string;
  errorCode : option string
}.

Definition failure (msg code : string) : ApiResponse :=
  {| success := false; data := None; error := Some msg; errorCode := Some code |}.

(** [JSON.stringify] leaves out a member whose value is [undefined]. *)
Definition member (k : string) (v : jsval) : list (jsstr * json) :=
  match v with
  | Some x => [(js k, x)]
  | None => []
  end.

(** What [JSON.stringify] writes for a value that came out of [JSON.parse],
    read back as a value: the value itself, except that a number that is not
    finite is written as [null], at any depth.  An object is the members
    [own] finds in it; the order in which they are written is not
    modelled. *)
Fixpoint serialized (v : json) : json :=
  match v with
  | JNum d => if finite d then JNum d else JNull
  | JArr items => JArr (map serialized items)
  | JObj fields => JObj (map (λ kv, (kv.1, serialized kv.2)) fields)
  | _ => v
  end.

Definition option_json (o : DownloadOption) : json :=
  JObj (member "quality" (Some (serialized (quality o)))
        ++ member "url" (serialized <$> url o)
        ++ member "size" (Some (serialized (size o)))).

Definition media_json (m : MediaResult) : json :=
  JObj (member "type" (Some (serialized (type m)))
        ++ member "originalUrl" (Some (serialized (originalUrl m)))
        ++ member "thumbnail" (serialized <$> thumbnail m)
        ++ member "downloadOptions" (Some (JArr (option_json <$> downloadOptions m)))).

Definition stringify (r : ApiResponse) : json :=
  JObj (member "success" (Some (JBool (success r)))
        ++ member "data" (media_json <$> data r)
        ++ member "error" (JStr ∘ js <$> error r)
        ++ member "errorCode" (JStr ∘ js <$> errorCode r)).

(** *** The rate limiter's memory

    [rateLimiterStore] is a [Map] from identity to an entry object.  The
    handler reads an entry out of the map and increments its [count] in
    place, so the map holds references: [heap] keeps the entry objects by
    identity, [store] is the map, and [next] is the identity the next
    object literal gets. *)

Record entry := Entry { count : Z; resetTime : number }.

Record limiter := Limiter {
  heap : gmap nat entry;
  store : gmap string nat;
  next : nat
}.

(** The state when the function starts: [new Map()]. *)
Definition empty_limiter : limiter := {| heap := ∅; store := ∅; next := 0%nat |}.

(** The entry the map holds for an identity. *)
Definition stored (st : limiter) (key : string) : option entry :=
  l ← store st !! key; heap st !! l.

(** The upstream call: what [fetch] followed by [response.json()] yields
    when the call is made, a parsed document or an exception. *)
Abbreviation upstream := (completion json).

Section Handler.
Variable cfg : config.

Definition setCorsHeaders (requestOrigin : option string) : gmap string string :=
  let headers :=
    <["Access-Control-Allow-Headers" := "Content-Type, Authorization"]>
      (<["Access-Control-Allow-Methods" := "GET, POST, OPTIONS"]> ∅) in
  if str_truthy requestOrigin && includes (ALLOWED_ORIGINS cfg) "*" then
    <["Access-Control-Allow-Origin" := "*"]> headers
  else if str_truthy requestOrigin && includes_opt (ALLOWED_ORIGINS cfg) requestOrigin then
    <["Access-Control-Allow-Origin" := default "" requestOrigin]> headers
  else headers.

Definition jsonResponse (data : ApiResponse) (status : Z)
    (requestOrigin : option string) : response :=
  let headers := setCorsHeaders requestOrigin in
  {| status := status;
     headers := <["Content-Type" := "application/json"]> headers;
     body := Some (stringify data) |}.

(** *** [fetchInstagramMedia] *)

Definition no_media_found : ApiResponse :=
  failure "No media found or invalid Instagram URL. Please check the URL and try again."
          "NO_MEDIA_FOUND".

Definition fetch_failed : ApiResponse :=
  failure "Failed to fetch Instagram media. The external service might be unavailable or the URL is not supported."
          "FETCH_FAILED".

(** [encodeURIComponent(url)]. *)
Definition encodeURIComponent_ok (url : json) : completion unit :=
  s ← to_string url;
  if well_formed_utf16 s then Normal () else Throw URIError.

(** The callback of [medias.map]. *)
Definition normalize_media (media : json) : completion DownloadOption :=
  q ← prop media (js "quality");
  u ← prop media (js "url");
  s ← prop media (js "formattedSize");
  Normal {| quality := or_else q (JStr (js "default"));
            url := u;
            size := or_else s (JStr (js "unknown")) |}.

(** [medias.map(...)]: only an array has a callable [map]. *)
Definition map_medias (medias : json) : completion (list DownloadOption) :=
  match medias with
  | JArr items => mapM normalize_media items
  | _ => Throw TypeError
  end.

(** The body of the [try] block, after the reply has been parsed. *)
Definition normalize (url : json) (result : json) : completion ApiResponse :=
  st ← prop result (js "status");
  if negb (truthy_val st) then Normal no_media_found else
  d ← prop result (js "data");
  match d with
  | None => Normal no_media_found
  | Some d =>
      if negb (truthy d) then Normal no_media_found else
      m ← prop d (js "medias");
      match m with
      | None => Normal no_media_found
      | Some m =>
          if negb (truthy m) then Normal no_media_found else
          if length_is_zero m then Normal no_media_found else
          mediaList ← map_medias m;
          ty ← prop d (js "type");
          th ← prop d (js "thumbnail");
          Normal {| success := true;
                    data := Some {| type := or_else ty (JStr (js "post"));
                                    originalUrl := url;
                                    thumbnail := th;
                                    downloadOptions := mediaList |};
                    error := None;
                    errorCode := None |}
      end
  end.

(** The [catch] block logs [url] in a template literal before it returns,
    so it throws in turn when [url] has no string conversion. *)
Definition fetchInstagramMedia (url : json) (up : upstream) : completion ApiResponse :=
  match (_ ← encodeURIComponent_ok url; result ← up; normalize url result) with
  | Normal r => Normal r
  | Throw _ => _ ← to_string url; Normal fetch_failed
  end.

(** *** The stages of the handler *)

Definition clientIp (req : request) : string :=
  or_default (or_opt (or_opt (X_Forwarded_For req) (X_Real_IP req)) (CF_Connecting_IP req))
             "unknown-ip".

(** 1. Pre-flight.  [new Response(null, { headers })] has the default
    status of the [Response] constructor, 200. *)
Definition preflight (req : request) : response :=
  {| status := 200; headers := setCorsHeaders (Origin req); body := None |}.

(** 2. Origin validation: the terminal response, if the stage ends the
    request. *)
Definition origin_gate (req : request) : option response :=
  let requestOrigin := Origin req in
  if str_truthy requestOrigin
     && negb (includes (ALLOWED_ORIGINS cfg) "*")
     && negb (includes_opt (ALLOWED_ORIGINS cfg) requestOrigin)
  then Some (jsonResponse (failure "Unauthorized origin." "UNAUTHORIZED_ORIGIN") 403 requestOrigin)
  else None.

(** [authHeader.split(' ')[1]] *)
Definition token_of (authHeader : string) : option string :=
  split_on " " authHeader !! 1%nat.

(** 3. Authentication: a terminal response, or the token. *)
Definition auth_gate (req : request) : response + option string :=
  let requestOrigin := Origin req in
  match Authorization req with
  | None =>
      inl (jsonResponse
             (failure "Authentication required. Please provide a valid Bearer token." "AUTH_REQUIRED")
             401 requestOrigin)
  | Some authHeader =>
      if negb (str_truthy (Some authHeader)) || negb (String.prefix "Bearer " authHeader) then
        inl (jsonResponse
               (failure "Authentication required. Please provide a valid Bearer token." "AUTH_REQUIRED")
               401 requestOrigin)
      else
        let token := token_of authHeader in
        if str_truthy (REQUIRED_API_KEY cfg)
           && negb (bool_decide (token = REQUIRED_API_KEY cfg))
        then inl (jsonResponse (failure "Invalid API key." "INVALID_API_KEY") 401 requestOrigin)
        else inr token
  end.

(** [token || clientIp] *)
Definition rateLimitKey (token : option string) (req : request) : string :=
  or_default token (clientIp req).

(** 4. Rate limiting.  Returns whether the request is admitted, and the
    memory afterwards.  [entry.count++] writes through the reference held
    by the map, before the comparison with the maximum.  The reset time is
    computed in doubles, from [Date.now()] and the configured window.  A
    count starts at 1 and grows by one per request, so it is an integer far
    below 2^53 and its increment is exact. *)
Definition open_window (now : Z) (key : string) (st : limiter) : limiter :=
  let e := {| count := 1;
              resetTime := num_add (Int now)
                             (num_mul (RATE_LIMIT_WINDOW_SECONDS cfg) (Int 1000)) |} in
  let l := next st in
  {| heap := <[l := e]> (heap st); store := <[key := l]> (store st); next := S l |}.

Definition rate_limit (now : Z) (key : string) (st : limiter) : bool * limiter :=
  match store st !! key with
  | None => (true, open_window now key st)
  | Some l =>
      match heap st !! l with
      | None => (true, open_window now key st) (* no such state: see [limiter_ok] *)
      | Some e =>
          if num_gt (Int now) (resetTime e) then (true, open_window now key st)
          else
            let e' := {| count := count e + 1; resetTime := resetTime e |} in
            let st' := {| heap := <[l := e']> (heap st); store := store st; next := next st |} in
            if num_gt (Int (count e')) (RATE_LIMIT_MAX_REQUESTS cfg) then (false, st')
            else (true, {| heap := heap st'; store := <[key := l]> (store st'); next := next st' |})
      end
  end.

Definition rate_limited (requestOrigin : option string) : response :=
  jsonResponse (failure "Too many requests. Please try again later." "RATE_LIMITED") 429 requestOrigin.

(** 5. The request body, URL validation and the upstream call, inside one
    [try] block. *)
Definition status_of (result : ApiResponse) : Z :=
  if success result then 200
  else if bool_decide (errorCode result = Some "NO_MEDIA_FOUND"%string) then 404 else 500.

Definition process_body (req : request) (up : upstream) : completion response :=
  let requestOrigin := Origin req in
  b ← req_json req;
  url ← prop b (js "url");
  match url with
  | None =>
      Normal (jsonResponse (failure "URL is required in the request body." "URL_REQUIRED")
                400 requestOrigin)
  | Some url =>
      if negb (truthy url) then
        Normal (jsonResponse (failure "URL is required in the request body." "URL_REQUIRED")
                  400 requestOrigin)
      else
        valid ← isValidInstagramUrl url;
        if negb valid then
          Normal (jsonResponse
                    (failure "Please enter a valid Instagram post, reel, or IGTV URL (e.g., https://www.instagram.com/p/...)."
                             "INVALID_INSTAGRAM_URL")
                    400 requestOrigin)
        else
          result ← fetchInstagramMedia url up;
          Normal (jsonResponse result (status_of result) requestOrigin)
  end.

Definition body_stage (req : request) (up : upstream) : response :=
  match process_body req up with
  | Normal r => r
  | Throw _ =>
      jsonResponse (failure "Invalid request body or internal server error." "INTERNAL_ERROR")
        500 (Origin req)
  end.

(** *** The handler *)

Definition serve (st : limiter) (now : Z) (up : upstream) (req : request)
    : response * limiter :=
  if String.eqb (method req) "OPTIONS" then (preflight req, st)
  else
    match origin_gate req with
    | Some r => (r, st)
    | None =>
        match auth_gate req with
        | inl r => (r, st)
        | inr token =>
            match rate_limit now (rateLimitKey token req) st with
            | (false, st') => (rate_limited (Origin req), st')
            | (true, st') => (body_stage req up, st')
            end
        end
    end.
End Handler.

(** ** The earlier handler

    The first handler of the file answers through [new Response] directly:
    no origin check, no authentication, no rate limiter, a looser URL test
    and bodies without [errorCode].  The text of [error.message] is chosen
    by the runtime and is a parameter here. *)

Module Legacy.
Section Defs.
Variable message_of : exn → jsstr.

Definition corsHeaders : gmap string string :=
  <["Access-Control-Allow-Headers" := "Content-Type, Authorization"]>
    (<["Access-Control-Allow-Methods" := "GET, POST, OPTIONS"]>
       (<["Access-Control-Allow-Origin" := "*"]> ∅)).

Definition json_headers : gmap string string :=
  <["Content-Type" := "application/json"]> corsHeaders.

(** [JSON.stringify({ error: msg })] *)
Definition error_body (msg : jsstr) : json := JObj [(js "error", JStr msg)].

(** [/instagram\.com/], not anchored. *)
Definition any_char : regex N := Sym (λ _, true).
Definition site_pattern : regex N :=
  Cat (Star any_char) (Cat (lit "instagram.com") (Star any_char)).

Definition not_found : json :=
  JObj [(js "success", JBool false);
        (js "error", JStr (js "No media found or invalid Instagram URL."))].

Definition normalize (url : json) (result : json) : completion json :=
  st ← prop result (js "status");
  if negb (truthy_val st) then Normal not_found else
  d ← prop result (js "data");
  match d with
  | None => Normal not_found
  | Some d =>
      if negb (truthy d) then Normal not_found else
      m ← prop d (js "medias");
      match m with
      | None => Normal not_found
      | Some m =>
          if negb (truthy m) then Normal not_found else
          if length_is_zero m then Normal not_found else
          mediaList ← map_medias m;
          ty ← prop d (js "type");
          th ← prop d (js "thumbnail");
          Normal (JObj [(js "success", JBool true);
                        (js "data",
                         JObj (member "type"
                                 (Some (serialized (or_else ty (JStr (js "post")))))
                               ++ member "url" (Some (serialized url))
                               ++ member "thumbnail" (serialized <$> th)
                               ++ member "downloadOptions"
                                    (Some (JArr (option_json <$> mediaList)))))])
      end
  end.

Definition fetchInstagramMedia (url : json) (up : upstream) : json :=
  match (_ ← encodeURIComponent_ok url; result ← up; normalize url result) with
  | Normal r => r
  | Throw e => JObj [(js "success", JBool false); (js "error", JStr (message_of e))]
  end.

Definition process_body (req : request) (up : upstream) : completion response :=
  b ← req_json req;
  url ← prop b (js "url");
  match url with
  | None =>
      Normal {| status := 400; headers := json_headers;
                body := Some (error_body (js "URL is required")) |}
  | Some url =>
      if negb (truthy url) then
        Normal {| status := 400; headers := json_headers;
                  body := Some (error_body (js "URL is required")) |}
      else
        s ← to_string url;
        if negb (accepts site_pattern s) then
          Normal {| status := 400; headers := json_headers;
                    body := Some (error_body (js "Please enter a valid Instagram URL")) |}
        else
          Normal {| status := 200; headers := json_headers;
                    body := Some (fetchInstagramMedia url up) |}
  end.

Definition serve (up : upstream) (req : request) : response :=
  if String.eqb (method req) "OPTIONS" then
    {| status := 200; headers := corsHeaders; body := None |}
  else
    match process_body req up with
    | Normal r => r
    | Throw e =>
        {| status := 500; headers := json_headers;
           body := Some (error_body (message_of e)) |}
    end.
End Defs.
End Legacy.

(** ** Reading a JSON body *)

(** Member [k] of a JSON document, if the document is an object with it. *)
Definition get (k : string) (j : json) : jsval :=
  match j with
  | JObj fields => own fields (js k)
  | _ => None
  end.

Definition has (k : string) (j : json) : bool :=
  match get k j with Some _ => true | None => false end.

Definition is_string (v : jsval) : bool :=
  match v with Some (JStr _) => true | _ => false end.

(** The envelope invariant on a body.
    A success carries [success:true] and [data], and neither [error] nor
    [errorCode]; a failure carries [success:false], an [error] string and an
    [errorCode] string, and no [data]. *)
Definition is_bool (b : bool) (v : jsval) : bool :=
  match v with Some (JBool b') => Bool.eqb b b' | _ => false end.

Definition success_envelope (j : json) : bool :=
  is_bool true (get "success" j)
  && has "data" j && negb (has "error" j) && negb (has "errorCode" j).

Definition failure_envelope (j : json) : bool :=
  is_bool false (get "success" j)
  && negb (has "data" j) && is_string (get "error" j) && is_string (get "errorCode" j).

Definition envelope_ok (j : json) : bool :=
  xorb (success_envelope j) (failure_envelope j).

(** The [errorCode] of a response, when its body has one. *)
Definition error_code (r : response) : jsval := j ← body r; get "errorCode" j.
Definition has_code (r : response) (code : string) : Prop :=
  error_code r = Some (JStr (js code)).

(** ** The allow-list from the environment

    [ALLOWED_ORIGINS] is read from the environment variable of that name:
    ['*'] when the variable is unset or empty, then split at commas, each
    part trimmed.  Configuration strings are taken over code units below 256,
    like the header values they are compared with; among these the white
    space that [trim] strips is tab, line feed, vertical tab, form feed,
    carriage return, space and no-break space. *)

Definition ascii_space (c : ascii) : bool :=
  let n := N_of_ascii c in
  (N.eqb n 9 || N.eqb n 10 || N.eqb n 11 || N.eqb n 12 || N.eqb n 13
   || N.eqb n 32 || N.eqb n 160)%N.

Fixpoint trim_start (s : string) : string :=
  match s with
  | String c rest => if ascii_space c then trim_start rest else s
  | EmptyString => EmptyString
  end.

Definition reverse (s : string) : string :=
  string_of_list_ascii (rev (list_ascii_of_string s)).

Definition trim_string (s : string) : string := reverse (trim_start (reverse (trim_start s))).

Definition parse_allowed_origins (env : option string) : list string :=
  trim_string <$> split_on "," (or_default env "*").

(** ** The client hook

    [useInstagramMedia] keeps a [FetchState] and the list of recent
    downloads.  Its state updates are embedded as functions on these two
    values; what the browser and the fetch service do is an input: whether
    the DOM calls of a download go through, the text of [Date.now()], and how
    the service call ends. *)

Module Hook.

Definition MAX_RECENT_DOWNLOADS : nat := 5.

Inductive Quality := high | medium | low.

Inductive MediaType := post | reel | igtv | story | highlight.

Record DownloadOption := {
  quality : Quality;
  url : jsstr;
  size : jsstr
}.

Record InstagramMediaType := {
  type : MediaType;
  media_url : jsstr;
  thumbnail : jsstr;
  downloadOptions : list DownloadOption
}.

Record FetchState := {
  isLoading : bool;
  error : option jsstr;
  errorCode : option jsstr;
  media : option InstagramMediaType
}.

(** The state [useState] starts from. *)
Definition initial_state : FetchState :=
  {| isLoading := false; error := None; errorCode := None; media := None |}.

Global Instance Quality_eq_dec : EqDecision Quality.
Proof. solve_decision. Defined.

Definition quality_text (q : Quality) : jsstr :=
  match q with high => js "high" | medium => js "medium" | low => js "low" end.

Definition type_text (t : MediaType) : jsstr :=
  match t with
  | post => js "post" | reel => js "reel" | igtv => js "igtv"
  | story => js "story" | highlight => js "highlight"
  end.

(** White space and line terminators, the characters [trim] strips. *)
Definition white_space (c : N) : bool :=
  (N.eqb c 0x0009 || N.eqb c 0x000A || N.eqb c 0x000B || N.eqb c 0x000C || N.eqb c 0x000D
   || N.eqb c 0x0020 || N.eqb c 0x00A0 || N.eqb c 0x1680
   || ((0x2000 <=? c) && (c <=? 0x200A))
   || N.eqb c 0x2028 || N.eqb c 0x2029 || N.eqb c 0x202F || N.eqb c 0x205F
   || N.eqb c 0x3000 || N.eqb c 0xFEFF)%N.

Fixpoint trimStart (s : jsstr) : jsstr :=
  match s with
  | c :: rest => if white_space c then trimStart rest else s
  | [] => []
  end.

Definition trim (s : jsstr) : jsstr := rev (trimStart (rev (trimStart s))).

(** [s.split('.')] *)
Fixpoint split_dot (s : jsstr) : list jsstr :=
  match s with
  | [] => [[]]
  | c :: rest =>
      if N.eqb c (N_of_ascii ".") then [] :: split_dot rest
      else match split_dot rest with
           | h :: t => (c :: h) :: t
           | [] => [[c]]
           end
  end.

(** [url.split('.').pop() || 'mp4'] *)
Definition extension (u : jsstr) : jsstr :=
  match last (split_dot u) with
  | Some (c :: ext) => c :: ext
  | _ => js "mp4"
  end.

(** A text without a dot. *)
Definition dot_free (s : jsstr) : Prop := Forall (λ c, c ≠ N_of_ascii ".") s.

(** The file name of a download; [stamp] is the text of [Date.now()]. *)
Definition filename (stamp : jsstr) (m : InstagramMediaType) (o : DownloadOption) : jsstr :=
  js "instagram-" ++ type_text (type m) ++ js "-" ++ stamp ++ js "." ++ extension (url o).

(** The update of the recent downloads after a download. *)
Definition addRecent (m : InstagramMediaType) (prev : list InstagramMediaType)
    : list InstagramMediaType :=
  if existsb (λ item, bool_decide (media_url item = media_url m)) prev then prev
  else take MAX_RECENT_DOWNLOADS (m :: prev).

(** [downloadMedia]: the state and the recent downloads afterwards.
    [dom_ok] tells whether the DOM calls in the [try] block went through. *)
Definition downloadMedia (dom_ok : bool) (m : InstagramMediaType) (q : Quality)
    (st : FetchState) (recent : list InstagramMediaType)
    : FetchState * list InstagramMediaType :=
  match find (λ opt, bool_decide (quality opt = q)) (downloadOptions m) with
  | None =>
      ({| isLoading := isLoading st;
          error := Some (js "The " ++ quality_text q
                         ++ js " quality option is not available for this media.");
          errorCode := Some (js "DOWNLOAD_OPTION_NOT_FOUND");
          media := media st |}, recent)
  | Some option =>
      if dom_ok then
        ({| isLoading := isLoading st; error := None; errorCode := None; media := media st |},
         addRecent m recent)
      else
        ({| isLoading := isLoading st;
            error := Some (js "Failed to initiate download. Please try again.");
            errorCode := Some (js "DOWNLOAD_INITIATION_FAILED");
            media := media st |}, recent)
  end.

(** What the fetch service throws, seen through the two properties the hook
    reads; a missing or empty one is replaced by a default. *)
Record Thrown := { message : option jsstr; code : option jsstr }.

Definition or_text (a : option jsstr) (b : jsstr) : jsstr :=
  match a with
  | Some (c :: s) => c :: s
  | _ => b
  end.

(** [fetchMedia]: the states it sets, in order.  [captured] is the state the
    callback closed over, which the early exit spreads; [outcome] is how the
    service call ends; [st] is the state when the call starts. *)
Definition fetchMedia (captured : FetchState) (u : jsstr)
    (outcome : InstagramMediaType + Thrown) (st : FetchState) : list FetchState :=
  match trim u with
  | [] =>
      [{| isLoading := isLoading captured;
          error := Some (js "Please enter a valid Instagram URL.");
          errorCode := Some (js "EMPTY_URL_INPUT");
          media := media captured |}]
  | _ =>
      [{| isLoading := true; error := None; errorCode := None; media := None |};
       match outcome with
       | inl fetched =>
           {| isLoading := false; error := None; errorCode := None; media := Some fetched |}
       | inr e =>
           {| isLoading := false;
              error := Some (or_text (message e) (js "Failed to fetch media."));
              errorCode := Some (or_text (code e) (js "FETCH_UNKNOWN_ERROR"));
              media := None |}
       end]
  end.

Definition clearError (st : FetchState) : FetchState :=
  {| isLoading := isLoading st; error := None; errorCode := None; media := media st |}.

Definition clearMedia (st : FetchState) : FetchState :=
  {| isLoading := isLoading st; error := error st; errorCode := errorCode st; media := None |}.

End Hook.

(** * Vocabulary of the properties *)

(** ** A well-formed rate limiter memory

    Every reference in the map points at an allocated entry, identities are
    handed out in order, and no entry object is shared by two identities.
    The state at start-up has these properties and every request keeps
    them. *)

Record limiter_ok (st : limiter) : Prop := {
  ok_live : ∀ k l, store st !! k = Some l → is_Some (heap st !! l);
  ok_bound : ∀ l, is_Some (heap st !! l) → (l < next st)%nat;
  ok_unshared : ∀ k1 k2 l, store st !! k1 = Some l → store st !! k2 = Some l → k1 = k2
}.

(** The entry a request at time [now] writes when it opens a window. *)
Definition window_entry (cfg : config) (now : Z) : entry :=
  {| count := 1;
     resetTime := num_add (Int now) (num_mul (RATE_LIMIT_WINDOW_SECONDS cfg) (Int 1000)) |}.

(** The requests that reach the limiter, in order of arrival: the time
    [Date.now()] returned and the identity. *)
Definition run (cfg : config) (arrivals : list (Z * string)) (st : limiter) : limiter :=
  foldl (λ st a, (rate_limit cfg a.1 a.2 st).2) st arrivals.

Definition arrivals_of (key : string) (arrivals : list (Z * string)) : list Z :=
  fst <$> filter (λ a, a.2 = key) arrivals.

(** The identity under which a request reaches the rate limiter, if it is
    not answered before. *)
Definition limiter_key (cfg : config) (req : request) : option string :=
  if String.eqb (method req) "OPTIONS" then None
  else match origin_gate cfg req with
       | Some _ => None
       | None =>
           match auth_gate cfg req with
           | inl _ => None
           | inr token => Some (rateLimitKey token req)
           end
       end.

Definition success_with (m : MediaResult) : ApiResponse :=
  {| success := true; data := Some m; error := None; errorCode := None |}.

(** The table of the response dispatcher, for the stage that reads the
    body. *)
Inductive body_outcome : ApiResponse → Z → Prop :=
| bo_url_required :
    body_outcome (failure "URL is required in the request body." "URL_REQUIRED") 400
| bo_invalid_url :
    body_outcome
      (failure "Please enter a valid Instagram post, reel, or IGTV URL (e.g., https://www.instagram.com/p/...)."
               "INVALID_INSTAGRAM_URL") 400
| bo_no_media : body_outcome no_media_found 404
| bo_fetch_failed : body_outcome fetch_failed 500
| bo_internal :
    body_outcome (failure "Invalid request body or internal server error." "INTERNAL_ERROR") 500
| bo_success m : body_outcome (success_with m) 200.

(** The table of the response dispatcher, for every answer that carries a
    body. *)
Inductive dispatched : ApiResponse → Z → Prop :=
| d_origin : dispatched (failure "Unauthorized origin." "UNAUTHORIZED_ORIGIN") 403
| d_auth_required :
    dispatched
      (failure "Authentication required. Please provide a valid Bearer token." "AUTH_REQUIRED")
      401
| d_invalid_key : dispatched (failure "Invalid API key." "INVALID_API_KEY") 401
| d_rate_limited :
    dispatched (failure "Too many requests. Please try again later." "RATE_LIMITED") 429
| d_body r s : body_outcome r s → dispatched r s.

(** A header or token that is missing or empty, which [||] skips. *)
Definition blank (o : option string) : Prop := o = None ∨ o = Some ""%string.

(** A request is forwarded upstream with URL [u] when it reaches the rate
    limiter and is admitted, its body parses and holds a truthy [url] that
    the pattern accepts, and [encodeURIComponent] can encode it, so that the
    call is made. *)
Definition forwards (cfg : config) (st : limiter) (now : Z) (req : request) (u : json) : Prop :=
  ∃ key b,
    limiter_key cfg req = Some key
    ∧ (rate_limit cfg now key st).1 = true
    ∧ req_json req = Normal b
    ∧ prop b (js "url") = Normal (Some u)
    ∧ truthy u = true
    ∧ isValidInstagramUrl u = Normal true
    ∧ encodeURIComponent_ok u = Normal ().

(** The reply signals that there is no media: [status] is falsy, or [data]
    is missing or falsy, or its [medias] is missing, falsy or the empty
    list. *)
Definition no_media_signal (result : json) : Prop :=
  truthy_val (get "status" result) = false
  ∨ truthy_val (get "data" result) = false
  ∨ ∃ d, get "data" result = Some d
       ∧ (truthy_val (get "medias" d) = false ∨ get "medias" d = Some (JArr [])).

(** A usable reply: a truthy [status] and, under [data], a non-empty list
    [medias] of media descriptions. *)
Definition usable (result d : json) (items : list json) : Prop :=
  truthy_val (get "status" result) = true
  ∧ get "data" result = Some d
  ∧ get "medias" d = Some (JArr items)
  ∧ items ≠ []
  ∧ Forall (λ item, item ≠ JNull) items.

(** A response is past the rate limiter when it is not the 429 answer. *)
Definition admitted (r : response) : Prop := ¬ has_code r "RATE_LIMITED".

(** A request at time [t0] opens a window for [key] when the map holds no
    entry for it or the entry's [resetTime] has passed. *)
Definition opens_window (st : limiter) (key : string) (t0 : Z) : Prop :=
  stored st key = None
  ∨ ∃ e, stored st key = Some e ∧ num_gt (Int t0) (resetTime e) = true.

(** The language of the pattern, spelled out: a scheme, [http://] or
    [https://]; an optional [www.]; [instagram.com/]; one of the segments
    [p], [reel], [tv]; a slash; a non-empty identifier; and a rest free of
    line terminators (with or without a leading slash). *)
Definition url_shape (w : jsstr) : Prop :=
  ∃ scheme www seg id rest,
    (scheme = js "http://" ∨ scheme = js "https://")
    ∧ (www = [] ∨ www = js "www.")
    ∧ (seg = js "p" ∨ seg = js "reel" ∨ seg = js "tv")
    ∧ id ≠ [] ∧ forallb id_char id = true
    ∧ forallb dot rest = true
    ∧ w = scheme ++ www ++ js "instagram.com/" ++ seg ++ js "/" ++ id ++ rest.

(** The shape in the words of the specification: the scheme is optional
    and the suffix is arbitrary. *)
Definition claimed_url_shape (w : jsstr) : Prop :=
  ∃ scheme www seg id rest,
    (scheme = [] ∨ scheme = js "https://" ∨ scheme = js "http://")
    ∧ (www = [] ∨ www = js "www.")
    ∧ (seg = js "p" ∨ seg = js "reel" ∨ seg = js "tv")
    ∧ id ≠ [] ∧ forallb id_char id = true
    ∧ w = scheme ++ www ++ js "instagram.com/" ++ seg ++ js "/" ++ id ++ rest.

(** The status that goes with each error code. *)
Definition status_table : list (string * Z) :=
  [("UNAUTHORIZED_ORIGIN", 403); ("AUTH_REQUIRED", 401); ("INVALID_API_KEY", 401);
   ("RATE_LIMITED", 429); ("URL_REQUIRED", 400); ("INVALID_INSTAGRAM_URL", 400);
   ("NO_MEDIA_FOUND", 404); ("FETCH_FAILED", 500); ("INTERNAL_ERROR", 500)]%string.

(** A request gets as far as reading its body when it reaches the rate
    limiter and is admitted. *)
Definition at_body_stage (cfg : config) (st : limiter) (now : Z) (req : request) : Prop :=
  ∃ key, limiter_key cfg req = Some key ∧ (rate_limit cfg now key st).1 = true.

(** The same request with another body. *)
Definition with_body (req : request) (doc : completion json) : request :=
  {| method := method req; Origin := Origin req;
     X_Forwarded_For := X_Forwarded_For req; X_Real_IP := X_Real_IP req;
     CF_Connecting_IP := CF_Connecting_IP req;
     Authorization := Authorization req; req_json := doc |}.

(** The handler run on a sequence of requests, each with the time it is
    served at and the reply the upstream would give. *)
Definition serve_all (cfg : config) (inputs : list (Z * upstream * request)) (st : limiter)
    : limiter :=
  foldl (λ st i, (serve cfg st i.1.1 i.1.2 i.2).2) st inputs.

(** Whether a character occurs in a string. *)
Fixpoint contains_char (c : ascii) (s : string) : bool :=
  match s with
  | EmptyString => false
  | String d rest => Ascii.eqb d c || contains_char c rest
  end.

(** ** Sample inputs *)

Definition post (origin authorization : option string) (doc : completion json) : request :=
  {| method := "POST"; Origin := origin;
     X_Forwarded_For := None; X_Real_IP := None; CF_Connecting_IP := None;
     Authorization := authorization; req_json := doc |}.

Definition options (origin authorization : option string) : request :=
  {| method := "OPTIONS"; Origin := origin;
     X_Forwarded_For := None; X_Real_IP := None; CF_Connecting_IP := None;
     Authorization := authorization; req_json := Throw SyntaxError |}.

Definition url_doc (u : string) : completion json := Normal (JObj [(js "url", JStr (js u))]).

Definition hd_media : json :=
  JObj [(js "quality", JStr (js "hd")); (js "url", JStr (js "x.mp4"));
        (js "formattedSize", JStr (js "2MB"))].

Definition reply (medias : list json) : upstream :=
  Normal (JObj [(js "status", JBool true); (js "data", JObj [(js "medias", JArr medias)])]).

Definition limit3 : config :=
  {| ALLOWED_ORIGINS := ["*"%string]; REQUIRED_API_KEY := None;
     RATE_LIMIT_WINDOW_SECONDS := Int 60; RATE_LIMIT_MAX_REQUESTS := Int 3 |}.

Definition limit0 : config :=
  {| ALLOWED_ORIGINS := ["*"%string]; REQUIRED_API_KEY := None;
     RATE_LIMIT_WINDOW_SECONDS := Int 60; RATE_LIMIT_MAX_REQUESTS := Int 0 |}.

Definition closed_origins : config :=
  {| ALLOWED_ORIGINS := ["https://app.example"%string]; REQUIRED_API_KEY := Some "secret"%string;
     RATE_LIMIT_WINDOW_SECONDS := Int 60; RATE_LIMIT_MAX_REQUESTS := Int 10 |}.

(** * Properties *)

#[local] Arguments num_gt : simpl never.
#[local] Arguments num_add : simpl never.
#[local] Arguments num_mul : simpl never.

(** ** The matcher decides the language of a pattern *)

Module RegexFacts.
Section Facts.
Context {A : Type}.
Implicit Types (r : regex A) (s : list A) (a : A) (p : A → bool).

Lemma nullable_spec r : nullable r = true ↔ matches r [].
Proof.
  induction r; simpl.
  - split; [discriminate | intros H; inversion H].
  - split; [constructor | done].
  - split; [discriminate | intros H; inversion H].
  - rewrite andb_true_iff, IHr1, IHr2. split.
    + intros [H1 H2]. change (@nil A) with (@nil A ++ @nil A). by constructor.
    + intros H. inversion H as [| |? ? s1 s2 M1 M2 E1 E2| | | |]; subst.
      by apply app_eq_nil in E2 as [-> ->].
  - rewrite orb_true_iff, IHr1, IHr2. split.
    + intros [H|H]; [by apply m_alt_l | by apply m_alt_r].
    + intros H; inversion H; subst; auto.
  - split; [constructor | done].
Qed.

Lemma star_cons r a s :
  matches (Star r) (a :: s) →
  ∃ s1 s2, s = s1 ++ s2 ∧ matches r (a :: s1) ∧ matches (Star r) s2.
Proof.
  intros H. remember (Star r) as r' eqn:Er. remember (a :: s) as w eqn:Ew.
  induction H as [| | | | | |r0 s1 s2 M1 _ M2 IH2]; try discriminate.
  injection Er as ->. destruct s1 as [|b s1]; simpl in Ew.
  - by apply IH2.
  - simplify_eq. by exists s1, s2.
Qed.

Lemma deriv_spec r a s : matches (deriv a r) s ↔ matches r (a :: s).
Proof.
  revert s. induction r; intros s; simpl.
  - split; intros H; inversion H.
  - split; intros H; inversion H.
  - destruct (p a) eqn:Hp; split; intros H; inversion H; subst.
    + by constructor.
    + constructor.
    + congruence.
  - assert (Hcat : matches (Cat (deriv a r1) r2) s ↔
                   ∃ s1 s2, s = s1 ++ s2 ∧ matches r1 (a :: s1) ∧ matches r2 s2).
    { split.
      - intros H; inversion H; subst. eexists _, _; split; [done|].
        split; [by apply IHr1 | done].
      - intros (s1 & s2 & -> & M1 & M2). constructor; [by apply IHr1 | done]. }
    assert (Hinv : matches (Cat r1 r2) (a :: s) ↔
                   (∃ s1 s2, s = s1 ++ s2 ∧ matches r1 (a :: s1) ∧ matches r2 s2)
                   ∨ (matches r1 [] ∧ matches r2 (a :: s))).
    { split.
      - intros H. inversion H as [| |? ? s1 s2 M1 M2 E1 E2| | | |]; subst.
        destruct s1 as [|b s1]; simpl in E2.
        + right. by subst.
        + simplify_eq. left. by exists s1, s2.
      - intros [(s1 & s2 & -> & M1 & M2)|[M1 M2]].
        + change (a :: s1 ++ s2) with ((a :: s1) ++ s2). by constructor.
        + change (a :: s) with ([] ++ a :: s). by constructor. }
    rewrite Hinv. destruct (nullable r1) eqn:Hn.
    + split.
      * intros H; inversion H; subst; [left; by apply Hcat|].
        right. split; [by apply nullable_spec | by apply IHr2].
      * intros [H|[_ H]]; [apply m_alt_l; by apply Hcat | apply m_alt_r; by apply IHr2].
    + rewrite Hcat. split; [by left|]. intros [H|[H _]]; [done|].
      apply nullable_spec in H. congruence.
  - split; intros H; inversion H; subst;
      solve [apply m_alt_l; by apply IHr1 | apply m_alt_r; by apply IHr2].
  - split.
    + intros H; inversion H as [| |? ? s1 s2 M1 M2 E1 E2| | | |]; subst.
      change (a :: s1 ++ s2) with ((a :: s1) ++ s2).
      constructor; [by apply IHr | done].
    + intros H. apply star_cons in H as (s1 & s2 & -> & M1 & M2).
      constructor; [by apply IHr | done].
Qed.

Lemma accepts_spec r s : accepts r s = true ↔ matches r s.
Proof.
  revert r. induction s as [|a s IH]; intros r; simpl.
  - apply nullable_spec.
  - rewrite IH. apply deriv_spec.
Qed.

(** Inversion and introduction principles used to read a pattern off. *)

Lemma matches_cat r1 r2 s :
  matches (Cat r1 r2) s ↔ ∃ s1 s2, s = s1 ++ s2 ∧ matches r1 s1 ∧ matches r2 s2.
Proof.
  split.
  - intros H; inversion H; subst. by eexists _, _.
  - intros (s1 & s2 & -> & M1 & M2). by constructor.
Qed.

Lemma matches_alt r1 r2 s : matches (Alt r1 r2) s ↔ matches r1 s ∨ matches r2 s.
Proof.
  split.
  - intros H; inversion H; subst; auto.
  - intros [H|H]; [by apply m_alt_l | by apply m_alt_r].
Qed.

Lemma matches_eps s : matches Eps s ↔ s = [].
Proof. split; [intros H; by inversion H | intros ->; constructor]. Qed.

Lemma matches_sym p s : matches (Sym p) s ↔ ∃ a, s = [a] ∧ p a = true.
Proof.
  split.
  - intros H; inversion H; subst. by eexists.
  - intros (a & -> & Hp). by constructor.
Qed.

Lemma matches_opt r s : matches (Opt r) s ↔ matches r s ∨ s = [].
Proof. unfold Opt. by rewrite matches_alt, matches_eps. Qed.

Lemma matches_star_sym p s : matches (Star (Sym p)) s ↔ forallb p s = true.
Proof.
  split.
  - intros H. remember (Star (Sym p)) as r eqn:Er.
    induction H as [| | | | | |r0 s1 s2 M1 _ M2 IH2]; try discriminate; [done|].
    injection Er as ->. inversion M1; subst. simpl.
    apply andb_true_iff. split; [done | by apply IH2].
  - induction s as [|a s IH]; simpl; intros H; [constructor|].
    apply andb_true_iff in H as [Ha Hs].
    change (a :: s) with ([a] ++ s). constructor; [by constructor | by apply IH].
Qed.

Lemma matches_plus_sym p s :
  matches (Plus (Sym p)) s ↔ s ≠ [] ∧ forallb p s = true.
Proof.
  unfold Plus. rewrite matches_cat. split.
  - intros (s1 & s2 & -> & M1 & M2).
    apply matches_sym in M1 as (a & -> & Ha). apply matches_star_sym in M2.
    split; [done|]. simpl. by rewrite Ha, M2.
  - intros [Hne H]. destruct s as [|a s]; [done|]. simpl in H.
    apply andb_true_iff in H as [Ha Hs].
    exists [a], s. split; [done|]. split; [by constructor | by apply matches_star_sym].
Qed.
End Facts.
End RegexFacts.
Import RegexFacts.

(** ** The limiter's arithmetic *)

Lemma round_double_exact z : Z.abs z < 2 ^ 53 → round_double z = Int z.
Proof. intros H. apply Z.ltb_lt in H. unfold round_double. cbv zeta. by rewrite H. Qed.

(** Inside the range where every integer is a double, the reset time of a
    new window is the integer sum. *)
Lemma window_entry_exact cfg w now :
  RATE_LIMIT_WINDOW_SECONDS cfg = Int w →
  Z.abs (w * 1000) < 2 ^ 53 → Z.abs (now + w * 1000) < 2 ^ 53 →
  resetTime (window_entry cfg now) = Int (now + w * 1000).
Proof.
  intros Hw Hp Hs. unfold window_entry. cbn [resetTime]. rewrite Hw.
  unfold num_mul. rewrite (round_double_exact _ Hp).
  unfold num_add. by rewrite (round_double_exact _ Hs).
Qed.

(** ** The rate limiter's memory is well formed *)

Lemma empty_limiter_ok : limiter_ok empty_limiter.
Proof.
  split; simpl.
  - intros k l H. by rewrite lookup_empty in H.
  - intros l [e H]. by rewrite lookup_empty in H.
  - intros k1 k2 l H. by rewrite lookup_empty in H.
Qed.

Section LimiterFacts.
Variable cfg : config.

Lemma open_window_ok now k st : limiter_ok st → limiter_ok (open_window cfg now k st).
Proof.
  intros [Hlive Hbound Hun]. split; simpl.
  - intros k1 l. rewrite lookup_insert. case_decide as Hk.
    + intros [= <-]. rewrite lookup_insert_eq. by eexists.
    + intros Hl. pose proof (Hbound _ (Hlive _ _ Hl)).
      rewrite lookup_insert_ne by lia. by eapply Hlive.
  - intros l. rewrite lookup_insert. case_decide as Hl; [lia|].
    intros H. apply Hbound in H. lia.
  - intros k1 k2 l. rewrite !lookup_insert.
    repeat case_decide; subst; try done.
    + intros [= <-] Hl. pose proof (Hbound _ (Hlive _ _ Hl)). lia.
    + intros Hl [= <-]. pose proof (Hbound _ (Hlive _ _ Hl)). lia.
    + apply Hun.
Qed.

Lemma open_window_stored now k st :
  stored (open_window cfg now k st) k = Some (window_entry cfg now).
Proof.
  unfold stored, open_window; simpl. rewrite lookup_insert_eq; simpl.
  by rewrite lookup_insert_eq.
Qed.

Lemma open_window_frame now k k' st :
  limiter_ok st → k' ≠ k → stored (open_window cfg now k st) k' = stored st k'.
Proof.
  intros [Hlive Hbound _] Hne. unfold stored, open_window; simpl.
  rewrite lookup_insert_ne by done.
  destruct (store st !! k') as [l|] eqn:Hl; simpl; [|done].
  pose proof (Hbound _ (Hlive _ _ Hl)). rewrite lookup_insert_ne by lia. done.
Qed.

(** The case analysis the limiter makes, read on the entry the map holds. *)
Lemma rate_limit_fresh now k st :
  limiter_ok st → stored st k = None →
  rate_limit cfg now k st = (true, open_window cfg now k st).
Proof.
  intros _ H. unfold rate_limit, stored in *.
  destruct (store st !! k) as [l|]; simpl in *; [|done]. by rewrite H.
Qed.

Lemma rate_limit_expired now k st e :
  stored st k = Some e → num_gt (Int now) (resetTime e) = true →
  rate_limit cfg now k st = (true, open_window cfg now k st).
Proof.
  intros H Hgt. unfold rate_limit, stored in *.
  destruct (store st !! k) as [l|]; simpl in *; [|done]. by rewrite H, Hgt.
Qed.

Lemma rate_limit_in_window now k st e :
  limiter_ok st → stored st k = Some e → num_gt (Int now) (resetTime e) = false →
  ∃ st',
    rate_limit cfg now k st
      = (negb (num_gt (Int (count e + 1)) (RATE_LIMIT_MAX_REQUESTS cfg)), st')
    ∧ limiter_ok st'
    ∧ stored st' k = Some {| count := count e + 1; resetTime := resetTime e |}
    ∧ ∀ k', k' ≠ k → stored st' k' = stored st k'.
Proof.
  intros [Hlive Hbound Hun] H Hgt. unfold rate_limit, stored in *.
  destruct (store st !! k) as [l|] eqn:Hl; simpl in *; [|done].
  rewrite H, Hgt. simpl.
  set (e' := {| count := count e + 1; resetTime := resetTime e |}).
  set (st1 := {| heap := <[l:=e']> (heap st); store := store st; next := next st |}).
  assert (Hid : <[k:=l]> (store st) = store st) by by apply insert_id.
  exists st1. split.
  { destruct (num_gt (Int (count e + 1)) _); simpl; [done|]. by rewrite Hid. }
  split; [split; simpl|split; simpl].
  - intros k1 l1 Hl1. rewrite lookup_insert. case_decide; [by eexists | by eapply Hlive].
  - intros l1. rewrite lookup_insert. case_decide as Hc; [|apply Hbound].
    subst l1. intros _. apply Hbound. by eexists.
  - apply Hun.
  - by rewrite Hl; simpl; rewrite lookup_insert_eq.
  - intros k' Hne. destruct (store st !! k') as [l'|] eqn:Hl'; simpl; [|done].
    rewrite lookup_insert_ne; [done|]. intros ->. apply Hne. by eapply Hun.
Qed.

Lemma rate_limit_ok now k st : limiter_ok st → limiter_ok (rate_limit cfg now k st).2.
Proof.
  intros Hok. destruct (stored st k) as [e|] eqn:He.
  - destruct (num_gt (Int now) (resetTime e)) eqn:Hgt.
    + rewrite (rate_limit_expired _ _ _ _ He Hgt). by apply open_window_ok.
    + destruct (rate_limit_in_window _ _ _ _ Hok He Hgt) as (st' & -> & ? & _). done.
  - rewrite rate_limit_fresh by done. by apply open_window_ok.
Qed.

Lemma rate_limit_frame now k k' st :
  limiter_ok st → k' ≠ k → stored (rate_limit cfg now k st).2 k' = stored st k'.
Proof.
  intros Hok Hne. destruct (stored st k) as [e|] eqn:He.
  - destruct (num_gt (Int now) (resetTime e)) eqn:Hgt.
    + rewrite (rate_limit_expired _ _ _ _ He Hgt). by apply open_window_frame.
    + destruct (rate_limit_in_window _ _ _ _ Hok He Hgt) as (st' & -> & _ & _ & Hfr).
      by apply Hfr.
  - rewrite rate_limit_fresh by done. by apply open_window_frame.
Qed.

Lemma run_ok arrivals st : limiter_ok st → limiter_ok (run cfg arrivals st).
Proof.
  revert st. induction arrivals as [|a l IH]; intros st Hok; simpl; [done|].
  apply IH. by apply rate_limit_ok.
Qed.

Lemma arrivals_of_cons key t k l :
  arrivals_of key ((t, k) :: l)
    = if decide (k = key) then t :: arrivals_of key l else arrivals_of key l.
Proof. unfold arrivals_of. rewrite filter_cons; simpl. by case_decide. Qed.

(** While every arrival of an identity falls inside its window, its entry
    counts them, whatever other identities do in between. *)
Lemma run_in_window key arrivals st e :
  limiter_ok st → stored st key = Some e →
  (∀ t, t ∈ arrivals_of key arrivals → num_gt (Int t) (resetTime e) = false) →
  stored (run cfg arrivals st) key
    = Some {| count := count e + Z.of_nat (length (arrivals_of key arrivals));
              resetTime := resetTime e |}.
Proof.
  revert st e. induction arrivals as [|[t k] l IH]; intros st e Hok He Hin.
  - simpl. rewrite He. destruct e; simpl. apply f_equal, (f_equal2 Entry); [lia | done].
  - rewrite arrivals_of_cons in Hin |- *. cbn [run foldl fst snd].
    fold (run cfg l (rate_limit cfg t k st).2).
    case_decide as Hk.
    + subst k.
      assert (Hgt : num_gt (Int t) (resetTime e) = false) by (apply Hin; left).
      destruct (rate_limit_in_window _ _ _ _ Hok He Hgt) as (st' & Hrl & Hok' & Hst & _).
      rewrite Hrl. cbn [snd]. rewrite (IH _ _ Hok' Hst).
      * cbn [count resetTime length]. apply f_equal, (f_equal2 Entry); [lia | done].
      * intros t' Ht'. apply Hin. by right.
    + rewrite (IH _ e); [done|by apply rate_limit_ok|by rewrite rate_limit_frame|done].
Qed.
End LimiterFacts.

(** ** What a body says *)

Lemma get_success r : get "success" (stringify r) = Some (JBool (success r)).
Proof. destruct r as [s [d|] [e|] [c|]]; reflexivity. Qed.

Lemma get_data r : get "data" (stringify r) = media_json <$> data r.
Proof. destruct r as [s [d|] [e|] [c|]]; reflexivity. Qed.

Lemma get_error r : get "error" (stringify r) = JStr ∘ js <$> error r.
Proof. destruct r as [s [d|] [e|] [c|]]; reflexivity. Qed.

Lemma get_errorCode r : get "errorCode" (stringify r) = JStr ∘ js <$> errorCode r.
Proof. destruct r as [s [d|] [e|] [c|]]; reflexivity. Qed.

Lemma error_code_jsonResponse cfg r s o :
  error_code (jsonResponse cfg r s o) = JStr ∘ js <$> errorCode r.
Proof. unfold error_code; simpl. apply get_errorCode. Qed.

Lemma envelope_failure msg code : envelope_ok (stringify (failure msg code)) = true.
Proof.
  unfold envelope_ok, success_envelope, failure_envelope, has.
  by rewrite get_success, get_data, get_error, get_errorCode.
Qed.

Lemma envelope_success m :
  envelope_ok (stringify {| success := true; data := Some m; error := None; errorCode := None |})
  = true.
Proof.
  unfold envelope_ok, success_envelope, failure_envelope, has.
  by rewrite get_success, get_data, get_error, get_errorCode.
Qed.

(** [js] is injective, so a code is read back unambiguously. *)
Lemma js_inj s1 s2 : js s1 = js s2 → s1 = s2.
Proof.
  unfold js. revert s2. induction s1 as [|c s1 IH]; intros [|d s2]; simpl; try done.
  intros [= Hc Hs]. f_equal; [|by apply IH].
  rewrite <- (ascii_N_embedding c), <- (ascii_N_embedding d). by rewrite Hc.
Qed.

Lemma has_code_failure cfg msg code s o code' :
  has_code (jsonResponse cfg (failure msg code) s o) code' ↔ code = code'.
Proof.
  unfold has_code. rewrite error_code_jsonResponse. simpl. split.
  - intros [= H]. by apply js_inj.
  - by intros ->.
Qed.

(** ** Outcomes of the stages *)

Ltac unfold_bind := unfold mbind, completion_bind in *.

Lemma normalize_cases url result r :
  normalize url result = Normal r → r = no_media_found ∨ ∃ m, r = success_with m.
Proof.
  unfold normalize. unfold_bind. intros H.
  repeat (case_match; simplify_eq); eauto.
Qed.

Lemma fetch_cases url up r :
  fetchInstagramMedia url up = Normal r →
  r = no_media_found ∨ r = fetch_failed ∨ ∃ m, r = success_with m.
Proof.
  unfold fetchInstagramMedia. unfold_bind. intros H.
  destruct (encodeURIComponent_ok url) as [[]|]; [destruct up as [result|]|].
  - destruct (normalize url result) as [r'|] eqn:Hn.
    + simplify_eq. apply normalize_cases in Hn as [->|[m ->]]; eauto.
    + case_match; simplify_eq; auto.
  - case_match; simplify_eq; auto.
  - case_match; simplify_eq; auto.
Qed.

Lemma body_stage_outcome cfg req up :
  ∃ r s, body_stage cfg req up = jsonResponse cfg r s (Origin req) ∧ body_outcome r s.
Proof.
  unfold body_stage, process_body. unfold_bind.
  destruct (req_json req) as [b|]; [|eexists _, _; split; [done | constructor]].
  destruct (prop b (js "url")) as [[u|]|];
    [|eexists _, _; split; [done | constructor]..].
  destruct (truthy u); simpl; [|eexists _, _; split; [done | constructor]].
  destruct (isValidInstagramUrl u) as [[]|]; simpl;
    [|eexists _, _; split; [done | constructor]..].
  destruct (fetchInstagramMedia u up) as [r|] eqn:Hf;
    [|eexists _, _; split; [done | constructor]].
  apply fetch_cases in Hf as [->|[->|[m ->]]];
    eexists _, _; (split; [done|]); constructor.
Qed.

Lemma serve_limiter cfg st now up req key :
  limiter_key cfg req = Some key →
  serve cfg st now up req
    = (if (rate_limit cfg now key st).1 then body_stage cfg req up
       else rate_limited cfg (Origin req),
       (rate_limit cfg now key st).2).
Proof.
  unfold limiter_key, serve. intros H.
  repeat (case_match; simplify_eq); done.
Qed.

Lemma serve_early cfg st now up req :
  limiter_key cfg req = None → (serve cfg st now up req).2 = st.
Proof.
  unfold limiter_key, serve. intros H.
  repeat (case_match; simplify_eq); done.
Qed.

(** Every request keeps the rate limiter's memory well formed, so every state
    the handler can be in, starting from [empty_limiter], is. *)
Lemma serve_ok cfg st now up req : limiter_ok st → limiter_ok (serve cfg st now up req).2.
Proof.
  intros Hok. destruct (limiter_key cfg req) as [key|] eqn:Hk.
  - rewrite (serve_limiter _ _ _ _ _ _ Hk). cbn [snd]. by apply rate_limit_ok.
  - by rewrite (serve_early _ _ _ _ _ Hk).
Qed.

Lemma body_stage_not_limited cfg req up : ¬ has_code (body_stage cfg req up) "RATE_LIMITED".
Proof.
  destruct (body_stage_outcome cfg req up) as (r & s & -> & Ho).
  inversion Ho; subst; unfold no_media_found, fetch_failed;
    try (rewrite has_code_failure; discriminate).
  unfold has_code. rewrite error_code_jsonResponse. discriminate.
Qed.

(** ** C1: the rate limiter *)

(** C1, as the code has it.  Let a request of an identity open a window
    (no entry yet, or the first request after the entry's reset time): it is
    admitted and the entry becomes count 1 with a reset time one window
    ahead.  Let any requests follow, of this and of other identities, those of
    this identity not later than the reset time, and let one more request of
    the identity arrive inside the window.  It is the N-th of the window,
    N >= 2; it is admitted if and only if N <= M, and in both cases the
    stored count becomes N: a rejected request counts too.  So the N-th
    request of a window is admitted iff N = 1 or N <= M.  The reset time is
    [now + W * 1000] as the runtime computes it, in doubles: the integer sum
    as long as the product and the sum stay below 2^53 in magnitude. *)
Theorem rate_limiter_window cfg m key st t0 up0 req0 arrivals t up req :
  RATE_LIMIT_MAX_REQUESTS cfg = Int m →
  limiter_ok st →
  limiter_key cfg req0 = Some key →
  limiter_key cfg req = Some key →
  opens_window st key t0 →
  Forall (λ t', num_gt (Int t') (resetTime (window_entry cfg t0)) = false)
         (arrivals_of key arrivals) →
  num_gt (Int t) (resetTime (window_entry cfg t0)) = false →
  let first := serve cfg st t0 up0 req0 in
  let nth := serve cfg (run cfg arrivals first.2) t up req in
  let N := 2 + Z.of_nat (length (arrivals_of key arrivals)) in
  admitted first.1
  ∧ stored first.2 key = Some (window_entry cfg t0)
  ∧ (admitted nth.1 ↔ N ≤ m)
  ∧ stored nth.2 key = Some {| count := N; resetTime := resetTime (window_entry cfg t0) |}
  ∧ (∀ w, RATE_LIMIT_WINDOW_SECONDS cfg = Int w →
          Z.abs (w * 1000) < 2 ^ 53 → Z.abs (t0 + w * 1000) < 2 ^ 53 →
          resetTime (window_entry cfg t0) = Int (t0 + w * 1000)).
Proof.
  intros Hm Hok Hk0 Hk Hopen Hin Ht first nth N. subst first nth.
  assert (Hfirst : rate_limit cfg t0 key st = (true, open_window cfg t0 key st)).
  { destruct Hopen as [Hnone|(e & He & Hgt)];
      [by apply rate_limit_fresh | by eapply rate_limit_expired]. }
  rewrite (serve_limiter _ _ _ _ _ _ Hk0), Hfirst. cbn [fst snd].
  split; [apply body_stage_not_limited|].
  split; [apply open_window_stored|].
  set (st1 := open_window cfg t0 key st) in *.
  assert (Hok1 : limiter_ok st1) by by apply open_window_ok.
  assert (Hst1 : stored st1 key = Some (window_entry cfg t0)) by apply open_window_stored.
  pose proof (run_ok cfg arrivals st1 Hok1) as Hok2.
  pose proof (run_in_window cfg key arrivals st1 _ Hok1 Hst1) as Hst2.
  rewrite <- Forall_forall in Hst2. specialize (Hst2 Hin).
  destruct (rate_limit_in_window cfg t key _ _ Hok2 Hst2 Ht) as (st3 & Hrl & _ & Hst3 & _).
  cbn [count resetTime] in *.
  replace (count (window_entry cfg t0) + Z.of_nat (length (arrivals_of key arrivals)) + 1)
    with N in * by (unfold N; simpl; lia).
  rewrite (serve_limiter _ _ _ _ _ _ Hk), Hrl, Hm. cbn [fst snd]. split.
  - unfold num_gt. destruct (m <? N) eqn:Hlt; simpl.
    + apply Z.ltb_lt in Hlt. split; [|lia].
      intros Hadm. exfalso. apply Hadm. unfold rate_limited. by apply has_code_failure.
    + apply Z.ltb_ge in Hlt. split; [done|]. intros _. apply body_stage_not_limited.
  - split; [done|]. intros w. apply window_entry_exact.
Qed.

Lemma rate_limiter_window_witness :
  let req := post None (Some "Bearer tok"%string) (url_doc "https://www.instagram.com/p/ABC123/") in
  let arrivals := [(1000, "tok"%string); (2000, "other"%string); (3000, "tok"%string)] in
  let first := serve limit3 empty_limiter 0 (reply [hd_media]) req in
  let nth := serve limit3 (run limit3 arrivals first.2) 4000 (reply [hd_media]) req in
  admitted first.1
  ∧ stored first.2 "tok" = Some (window_entry limit3 0)
  ∧ (admitted nth.1 ↔ 4 ≤ 3)
  ∧ stored nth.2 "tok" = Some {| count := 4; resetTime := Int 60000 |}.
Proof.
  destruct (rate_limiter_window limit3 3 "tok" empty_limiter 0 (reply [hd_media])
              (post None (Some "Bearer tok"%string)
                 (url_doc "https://www.instagram.com/p/ABC123/"))
              [(1000, "tok"%string); (2000, "other"%string); (3000, "tok"%string)]
              4000 (reply [hd_media])
              (post None (Some "Bearer tok"%string)
                 (url_doc "https://www.instagram.com/p/ABC123/")))
    as (H1 & H2 & H3 & H4 & _).
  - reflexivity.
  - apply empty_limiter_ok.
  - reflexivity.
  - reflexivity.
  - left. reflexivity.
  - repeat constructor.
  - reflexivity.
  - repeat split; solve [apply H1 | apply H2 | apply H3 | apply H4].
Defined.

(** C1 as stated fails when the maximum is 0: the first request of a window
    is admitted without a look at the maximum. *)
Lemma rate_limit_zero_admits_first :
  let req := post None (Some "Bearer tok"%string) (url_doc "https://www.instagram.com/p/ABC123/") in
  let r := (serve limit0 empty_limiter 0 (reply [hd_media]) req).1 in
  RATE_LIMIT_MAX_REQUESTS limit0 = Int 0 ∧ status r = 200 ∧ ¬ (admitted r ↔ 1 ≤ 0).
Proof.
  split; [reflexivity|]. split; [reflexivity|].
  intros [H _]. assert (1 ≤ 0) by (apply H; intros [=]). lia.
Qed.

(** ** C4: URL validation *)

Lemma matches_chr c w : matches (chr c) w ↔ w = [N_of_ascii c].
Proof.
  unfold chr. rewrite matches_sym. split.
  - intros (a & -> & Ha). apply N.eqb_eq in Ha. by subst.
  - intros ->. eexists. split; [done|]. apply N.eqb_refl.
Qed.

Lemma matches_lit_of cs w : matches (lit_of cs) w ↔ w = N_of_ascii <$> cs.
Proof.
  revert w. induction cs as [|c cs IH]; intros w; simpl.
  - apply matches_eps.
  - rewrite matches_cat. split.
    + intros (w1 & w2 & -> & H1 & H2). apply matches_chr in H1 as ->.
      apply IH in H2 as ->. done.
    + intros ->. exists [N_of_ascii c], (N_of_ascii <$> cs).
      split; [done|]. split; [by apply matches_chr | by apply IH].
Qed.

Lemma matches_lit s w : matches (lit s) w ↔ w = js s.
Proof. apply matches_lit_of. Qed.

Lemma url_pattern_shape w : accepts url_pattern w = true ↔ url_shape w.
Proof.
  rewrite accepts_spec. unfold url_pattern. split.
  - intros H.
    apply matches_cat in H as (w1 & ? & -> & H1 & H). apply matches_lit in H1 as ->.
    apply matches_cat in H as (w2 & ? & -> & H2 & H).
    apply matches_cat in H as (w3 & ? & -> & H3 & H). apply matches_lit in H3 as ->.
    apply matches_cat in H as (w4 & ? & -> & H4 & H).
    apply matches_cat in H as (w5 & ? & -> & H5 & H). apply matches_lit in H5 as ->.
    apply matches_cat in H as (w6 & ? & -> & H6 & H).
    apply matches_cat in H as (w7 & ? & -> & H7 & H). apply matches_lit in H7 as ->.
    apply matches_cat in H as (w8 & ? & -> & H8 & H).
    apply matches_cat in H as (w9 & w10 & -> & H9 & H10).
    apply matches_plus_sym in H8 as [Hne Hid]. apply matches_star_sym in H10.
    exists (js "http" ++ w2 ++ js "://"), w4, w6, w8, (w9 ++ w10).
    split.
    { apply matches_opt in H2 as [H2| ->]; [|by left].
      apply matches_chr in H2 as ->. by right. }
    split.
    { apply matches_opt in H4 as [H4| ->]; [|by left].
      apply matches_lit in H4 as ->. by right. }
    split.
    { apply matches_alt in H6 as [H6|H6]; [apply matches_lit in H6 as ->; auto|].
      apply matches_alt in H6 as [H6|H6]; apply matches_lit in H6 as ->; auto. }
    split; [done|]. split; [done|]. split.
    { rewrite forallb_app, H10, andb_true_r.
      apply matches_opt in H9 as [H9| ->]; [|done].
      apply matches_chr in H9 as ->. reflexivity. }
    by rewrite <- !app_assoc.
  - intros (scheme & www & seg & id & rest & Hs & Hw & Hseg & Hne & Hid & Hrest & ->).
    assert (Hscheme : ∃ w2, scheme = js "http" ++ w2 ++ js "://"
                            ∧ matches (Opt (chr "s")) w2).
    { destruct Hs as [-> | ->].
      - exists []. split; [done|]. apply matches_opt. by right.
      - exists [N_of_ascii "s"]. split; [done|]. apply matches_opt. left. by apply matches_chr. }
    destruct Hscheme as (w2 & -> & H2). rewrite <- !app_assoc.
    apply matches_cat. eexists _, _. split; [done|]. split; [by apply matches_lit|].
    apply matches_cat. eexists _, _. split; [done|]. split; [done|].
    apply matches_cat. eexists _, _. split; [done|]. split; [by apply matches_lit|].
    apply matches_cat. eexists _, _. split; [done|]. split.
    { apply matches_opt. destruct Hw as [-> | ->]; [by right | left; by apply matches_lit]. }
    apply matches_cat. eexists _, _. split; [done|]. split; [by apply matches_lit|].
    apply matches_cat. eexists _, _. split; [done|]. split.
    { destruct Hseg as [-> | [-> | ->]].
      - apply matches_alt. left. by apply matches_lit.
      - apply matches_alt. right. apply matches_alt. left. by apply matches_lit.
      - apply matches_alt. right. apply matches_alt. right. by apply matches_lit. }
    apply matches_cat. eexists _, _. split; [done|]. split; [by apply matches_lit|].
    apply matches_cat. eexists _, _. split; [done|]. split; [by apply matches_plus_sym|].
    apply matches_cat. exists [], rest. split; [done|].
    split; [apply matches_opt; by right | by apply matches_star_sym].
Qed.

Lemma isValidInstagramUrl_string s :
  isValidInstagramUrl (JStr s) = Normal (accepts url_pattern s).
Proof. reflexivity. Qed.

Lemma fetch_string_total s up : ∃ res, fetchInstagramMedia (JStr s) up = Normal res.
Proof.
  unfold fetchInstagramMedia. unfold_bind.
  destruct (encodeURIComponent_ok (JStr s)) as [[]|]; [destruct up as [result|]|]; simpl; eauto.
  destruct (normalize (JStr s) result); simpl; eauto.
Qed.

Lemma fetch_not_invalid_url cfg u up res s o :
  fetchInstagramMedia u up = Normal res →
  ¬ has_code (jsonResponse cfg res s o) "INVALID_INSTAGRAM_URL".
Proof.
  intros Hf. apply fetch_cases in Hf as [->|[->|[m ->]]];
    unfold no_media_found, fetch_failed;
    try (rewrite has_code_failure; discriminate).
  unfold has_code. rewrite error_code_jsonResponse. discriminate.
Qed.

(** C4, as the code has it.  For a request that reaches URL validation with
    a string [s] as its [url] (a non-empty one: the empty string is answered
    URL_REQUIRED before), the URL is accepted and forwarded to
    [fetchInstagramMedia] exactly when [s] has the shape [url_shape]: a
    mandatory [http://] or [https://], optional [www.], [instagram.com/],
    [p], [reel] or [tv], a slash, a non-empty identifier over letters,
    digits, [_] and [-], and a rest without line terminators.  Every other
    string is answered 400 with INVALID_INSTAGRAM_URL. *)
Theorem url_validation cfg st now up req key b s :
  limiter_key cfg req = Some key →
  (rate_limit cfg now key st).1 = true →
  req_json req = Normal b →
  prop b (js "url") = Normal (Some (JStr s)) →
  s ≠ [] →
  let r := (serve cfg st now up req).1 in
  (url_shape s →
     ¬ has_code r "INVALID_INSTAGRAM_URL"
     ∧ ∃ res, fetchInstagramMedia (JStr s) up = Normal res
              ∧ r = jsonResponse cfg res (status_of res) (Origin req))
  ∧ (¬ url_shape s → status r = 400 ∧ has_code r "INVALID_INSTAGRAM_URL").
Proof.
  intros Hk Hadm Hb Hu Hs r. subst r.
  rewrite (serve_limiter _ _ _ _ _ _ Hk), Hadm. cbn [fst].
  unfold body_stage, process_body. unfold_bind. rewrite Hb, Hu.
  destruct s as [|c s]; [done|]. cbn [truthy negb].
  rewrite isValidInstagramUrl_string.
  destruct (accepts url_pattern (c :: s)) eqn:Hacc; cbn [negb].
  - apply url_pattern_shape in Hacc. split; [|done]. intros _.
    destruct (fetch_string_total (c :: s) up) as [res Hres]. rewrite Hres.
    split; [by eapply fetch_not_invalid_url | by exists res].
  - assert (¬ url_shape (c :: s)) as Hno.
    { intros Hshape. apply url_pattern_shape in Hshape. congruence. }
    split; [done|]. intros _. split; [done | by apply has_code_failure].
Qed.

Lemma url_validation_witness :
  let req := post None (Some "Bearer tok"%string) (url_doc "https://www.instagram.com/p/ABC123/") in
  let r := (serve default_config empty_limiter 0 (reply [hd_media]) req).1 in
  (url_shape (js "https://www.instagram.com/p/ABC123/") →
     ¬ has_code r "INVALID_INSTAGRAM_URL"
     ∧ ∃ res, fetchInstagramMedia (JStr (js "https://www.instagram.com/p/ABC123/"))
                (reply [hd_media]) = Normal res
              ∧ r = jsonResponse default_config res (status_of res) None)
  ∧ (¬ url_shape (js "https://www.instagram.com/p/ABC123/") →
       status r = 400 ∧ has_code r "INVALID_INSTAGRAM_URL").
Proof.
  apply (url_validation default_config empty_limiter 0 (reply [hd_media])
           (post None (Some "Bearer tok"%string) (url_doc "https://www.instagram.com/p/ABC123/"))
           "tok"
           (JObj [(js "url", JStr (js "https://www.instagram.com/p/ABC123/"))])).
  - reflexivity.
  - reflexivity.
  - reflexivity.
  - reflexivity.
  - discriminate.
Defined.

(** C4 as stated fails on a URL without a scheme: it has the shape the
    specification describes, and the handler answers 400. *)
Lemma schemeless_url_rejected :
  let req := post None (Some "Bearer tok"%string) (url_doc "instagram.com/p/ABC123") in
  let r := (serve default_config empty_limiter 0 (reply [hd_media]) req).1 in
  claimed_url_shape (js "instagram.com/p/ABC123")
  ∧ status r = 400 ∧ has_code r "INVALID_INSTAGRAM_URL".
Proof.
  split; [|split; reflexivity].
  exists [], [], (js "p"), (js "ABC123"), [].
  split; [by left|]. split; [by left|]. split; [by left|].
  split; [discriminate|]. split; reflexivity.
Qed.

(** ** The stages before the rate limiter *)

Lemma method_not_options req :
  method req ≠ "OPTIONS"%string ↔ String.eqb (method req) "OPTIONS" = false.
Proof. symmetry. apply String.eqb_neq. Qed.

Lemma includes_false l x : x ∉ l → includes l x = false.
Proof. intros H. unfold includes. by apply bool_decide_eq_false. Qed.

Lemma str_truthy_some s : s ≠ ""%string → str_truthy (Some s) = true.
Proof. intros H. simpl. apply negb_true_iff. by apply String.eqb_neq. Qed.

Lemma bearer_not_empty h : String.prefix "Bearer " h = true → h ≠ ""%string.
Proof. by destruct h. Qed.

Lemma body_outcome_status r s : body_outcome r s → s = 200 ∨ s = 400 ∨ s = 404 ∨ s = 500.
Proof. intros H; inversion H; auto. Qed.

Lemma body_outcome_code r s code :
  body_outcome r s → errorCode r = Some code →
  In code ["URL_REQUIRED"; "INVALID_INSTAGRAM_URL"; "NO_MEDIA_FOUND"; "FETCH_FAILED";
           "INTERNAL_ERROR"]%string.
Proof. intros H; inversion H; subst; simpl; intros [= <-]; tauto. Qed.

Lemma serve_options cfg st now up req :
  method req = "OPTIONS"%string → serve cfg st now up req = (preflight cfg req, st).
Proof. intros H. unfold serve. by rewrite H. Qed.

Lemma serve_origin_rejected cfg st now up req r :
  method req ≠ "OPTIONS"%string → origin_gate cfg req = Some r →
  serve cfg st now up req = (r, st).
Proof. intros Hm Ho. apply method_not_options in Hm. unfold serve. by rewrite Hm, Ho. Qed.

Lemma serve_auth_rejected cfg st now up req r :
  method req ≠ "OPTIONS"%string → origin_gate cfg req = None → auth_gate cfg req = inl r →
  serve cfg st now up req = (r, st).
Proof. intros Hm Ho Ha. apply method_not_options in Hm. unfold serve. by rewrite Hm, Ho, Ha. Qed.

Lemma limiter_key_auth cfg req token :
  method req ≠ "OPTIONS"%string → origin_gate cfg req = None → auth_gate cfg req = inr token →
  limiter_key cfg req = Some (rateLimitKey token req).
Proof.
  intros Hm Ho Ha. apply method_not_options in Hm. unfold limiter_key. by rewrite Hm, Ho, Ha.
Qed.

Lemma serve_limited_status cfg st now up req key :
  limiter_key cfg req = Some key →
  In (status (serve cfg st now up req).1) [200; 400; 404; 429; 500].
Proof.
  intros Hk. rewrite (serve_limiter _ _ _ _ _ _ Hk). cbn [fst].
  destruct (rate_limit cfg now key st).1; [|simpl; tauto].
  destruct (body_stage_outcome cfg req up) as (r & s & -> & Ho).
  apply body_outcome_status in Ho. simpl. lia.
Qed.

(** ** C3: authentication *)

(** C3, as the code has it.  For a request other than OPTIONS that the
    origin check lets through: a missing [Authorization] header, or one that
    does not start with [Bearer ], is answered 401 AUTH_REQUIRED; when
    API_KEY is set to a non-empty value, a token (the text between the first
    and the second space of the header) that differs from it is answered 401
    INVALID_API_KEY; when API_KEY is unset or empty, any header that starts
    with [Bearer ] passes and the request reaches the rate limiter. *)
Theorem authentication_gate cfg st now up req :
  method req ≠ "OPTIONS"%string →
  origin_gate cfg req = None →
  let r := (serve cfg st now up req).1 in
  ((Authorization req = None
    ∨ ∃ h, Authorization req = Some h ∧ String.prefix "Bearer " h = false) →
   status r = 401 ∧ has_code r "AUTH_REQUIRED")
  ∧ (∀ h k, Authorization req = Some h → String.prefix "Bearer " h = true →
            REQUIRED_API_KEY cfg = Some k → k ≠ ""%string → token_of h ≠ Some k →
            status r = 401 ∧ has_code r "INVALID_API_KEY")
  ∧ (∀ h, Authorization req = Some h → String.prefix "Bearer " h = true →
          REQUIRED_API_KEY cfg = None ∨ REQUIRED_API_KEY cfg = Some ""%string →
          auth_gate cfg req = inr (token_of h)
          ∧ limiter_key cfg req = Some (rateLimitKey (token_of h) req)
          ∧ status r ≠ 401).
Proof.
  intros Hm Ho r. subst r. split; [|split].
  - intros Hh.
    assert (Ha : auth_gate cfg req
                 = inl (jsonResponse cfg
                          (failure "Authentication required. Please provide a valid Bearer token."
                                   "AUTH_REQUIRED") 401 (Origin req))).
    { unfold auth_gate. destruct Hh as [-> | (h & -> & Hp)]; [done|].
      rewrite Hp. cbn [negb]. by rewrite orb_true_r. }
    rewrite (serve_auth_rejected _ _ _ _ _ _ Hm Ho Ha). cbn [fst].
    split; [done | by apply has_code_failure].
  - intros h k Hh Hp Hk Hne Htok.
    assert (Ha : auth_gate cfg req
                 = inl (jsonResponse cfg (failure "Invalid API key." "INVALID_API_KEY")
                          401 (Origin req))).
    { unfold auth_gate. rewrite Hh, Hp, Hk.
      rewrite (str_truthy_some h) by by apply bearer_not_empty.
      rewrite (str_truthy_some k) by done. cbn [negb orb andb].
      rewrite bool_decide_eq_false_2 by done. done. }
    rewrite (serve_auth_rejected _ _ _ _ _ _ Hm Ho Ha). cbn [fst].
    split; [done | by apply has_code_failure].
  - intros h Hh Hp Hk.
    assert (Ha : auth_gate cfg req = inr (token_of h)).
    { unfold auth_gate. rewrite Hh, Hp.
      rewrite (str_truthy_some h) by by apply bearer_not_empty.
      destruct Hk as [-> | ->]; done. }
    split; [done|].
    pose proof (limiter_key_auth _ _ _ Hm Ho Ha) as Hkey. split; [done|].
    pose proof (serve_limited_status cfg st now up req _ Hkey) as Hst.
    intros E. rewrite E in Hst. simpl in Hst. lia.
Qed.

Lemma authentication_gate_witness :
  let up := reply [hd_media] in
  let doc := url_doc "https://www.instagram.com/p/ABC123/" in
  let r1 := (serve default_config empty_limiter 0 up (post None None doc)).1 in
  let r2 := (serve closed_origins empty_limiter 0 up (post None (Some "Bearer wrong"%string) doc)).1 in
  let req3 := post None (Some "Bearer tok"%string) doc in
  (status r1 = 401 ∧ has_code r1 "AUTH_REQUIRED")
  ∧ (status r2 = 401 ∧ has_code r2 "INVALID_API_KEY")
  ∧ limiter_key default_config req3 = Some "tok"%string.
Proof.
  split; [|split].
  - apply (authentication_gate default_config empty_limiter 0 (reply [hd_media])
             (post None None (url_doc "https://www.instagram.com/p/ABC123/")));
      [discriminate | reflexivity | left; reflexivity].
  - apply (authentication_gate closed_origins empty_limiter 0 (reply [hd_media])
             (post None (Some "Bearer wrong"%string)
                (url_doc "https://www.instagram.com/p/ABC123/")))
      with (h := "Bearer wrong"%string) (k := "secret"%string);
      [discriminate | reflexivity | reflexivity | reflexivity | reflexivity
      | discriminate | discriminate].
  - apply (authentication_gate default_config empty_limiter 0 (reply [hd_media])
             (post None (Some "Bearer tok"%string)
                (url_doc "https://www.instagram.com/p/ABC123/")))
      with (h := "Bearer tok"%string);
      [discriminate | reflexivity | reflexivity | reflexivity | left; reflexivity].
Defined.

(** C3 as stated fails for a request from a disallowed origin: it is
    answered 403 at the origin check, before the [Authorization] header is
    looked at. *)
Lemma missing_auth_from_disallowed_origin :
  let req := post (Some "https://evil.example"%string) None
               (url_doc "https://www.instagram.com/p/ABC123/") in
  let r := (serve closed_origins empty_limiter 0 (reply [hd_media]) req).1 in
  method req ≠ "OPTIONS"%string ∧ Authorization req = None
  ∧ status r = 403 ∧ has_code r "UNAUTHORIZED_ORIGIN"
  ∧ ¬ (status r = 401 ∧ has_code r "AUTH_REQUIRED").
Proof.
  split; [discriminate|]. split; [reflexivity|]. split; [reflexivity|].
  split; [reflexivity|]. intros [H _]. discriminate H.
Qed.

Lemma origin_gate_some cfg req r :
  origin_gate cfg req = Some r →
  r = jsonResponse cfg (failure "Unauthorized origin." "UNAUTHORIZED_ORIGIN") 403 (Origin req).
Proof. unfold origin_gate. case_match; by intros [= <-]. Qed.

Lemma auth_gate_inl cfg req r :
  auth_gate cfg req = inl r →
  r = jsonResponse cfg
        (failure "Authentication required. Please provide a valid Bearer token." "AUTH_REQUIRED")
        401 (Origin req)
  ∨ r = jsonResponse cfg (failure "Invalid API key." "INVALID_API_KEY") 401 (Origin req).
Proof. unfold auth_gate. repeat case_match; intros [= <-]; auto. Qed.

Lemma auth_gate_inr cfg req token :
  auth_gate cfg req = inr token →
  ∃ h, Authorization req = Some h ∧ String.prefix "Bearer " h = true ∧ token = token_of h.
Proof.
  unfold auth_gate. destruct (Authorization req) as [h|]; [|done].
  destruct (String.prefix "Bearer " h) eqn:Hp.
  - repeat case_match; intros [= <-]; eauto.
  - rewrite orb_true_r. done.
Qed.

(** Every answer with a body is a row of the dispatcher's table. *)
Lemma serve_dispatched cfg st now up req :
  method req ≠ "OPTIONS"%string →
  ∃ res s, (serve cfg st now up req).1 = jsonResponse cfg res s (Origin req)
           ∧ dispatched res s.
Proof.
  intros Hm. destruct (limiter_key cfg req) as [key|] eqn:Hk.
  - rewrite (serve_limiter _ _ _ _ _ _ Hk). cbn [fst].
    destruct (rate_limit cfg now key st).1.
    + destruct (body_stage_outcome cfg req up) as (r & s & -> & Ho).
      exists r, s. split; [done | by constructor].
    + eexists _, _. split; [done | constructor].
  - destruct (origin_gate cfg req) as [r|] eqn:Ho.
    + rewrite (serve_origin_rejected _ _ _ _ _ _ Hm Ho). cbn [fst].
      apply origin_gate_some in Ho as ->. eexists _, _. split; [done | constructor].
    + destruct (auth_gate cfg req) as [r|token] eqn:Ha.
      * rewrite (serve_auth_rejected _ _ _ _ _ _ Hm Ho Ha). cbn [fst].
        apply auth_gate_inl in Ha as [-> | ->]; eexists _, _; (split; [done | constructor]).
      * rewrite (limiter_key_auth _ _ _ Hm Ho Ha) in Hk. done.
Qed.

Lemma body_stage_code cfg req up code :
  has_code (body_stage cfg req up) code →
  In code ["URL_REQUIRED"; "INVALID_INSTAGRAM_URL"; "NO_MEDIA_FOUND"; "FETCH_FAILED";
           "INTERNAL_ERROR"]%string.
Proof.
  destruct (body_stage_outcome cfg req up) as (r & s & -> & Ho).
  unfold has_code. rewrite error_code_jsonResponse.
  destruct (errorCode r) as [c|] eqn:Hc; simpl; [|done].
  intros [= E]. apply js_inj in E as <-. by eapply body_outcome_code.
Qed.

(** ** C7: pre-flight *)

(** C7, as the code has it.  A request with method OPTIONS is answered at
    once with the [null] body, the headers [setCorsHeaders] computes from the
    origin, and the default status of the [Response] constructor, 200.  The
    answer depends on nothing but the origin header, and the rate limiter's
    memory is left as it was: neither authentication nor rate limiting takes
    place. *)
Theorem preflight_response cfg st now up req :
  method req = "OPTIONS"%string →
  let r := (serve cfg st now up req).1 in
  status r = 200 ∧ body r = None
  ∧ headers r = setCorsHeaders cfg (Origin req)
  ∧ headers r !! "Access-Control-Allow-Methods"%string = Some "GET, POST, OPTIONS"%string
  ∧ headers r !! "Access-Control-Allow-Headers"%string = Some "Content-Type, Authorization"%string
  ∧ (serve cfg st now up req).2 = st
  ∧ limiter_key cfg req = None
  ∧ ∀ st' now' up' req',
      method req' = "OPTIONS"%string → Origin req' = Origin req →
      (serve cfg st' now' up' req').1 = r.
Proof.
  intros Hm r. subst r. rewrite (serve_options _ _ _ _ _ Hm). cbn [fst snd].
  split; [done|]. split; [done|]. split; [done|].
  assert (Hh : ∀ k v, k ≠ "Access-Control-Allow-Origin"%string →
             (<["Access-Control-Allow-Headers"%string := "Content-Type, Authorization"%string]>
                (<["Access-Control-Allow-Methods"%string := "GET, POST, OPTIONS"%string]>
                   (∅ : gmap string string))) !! k = Some v →
             setCorsHeaders cfg (Origin req) !! k = Some v).
  { intros k v Hk Hv. unfold setCorsHeaders.
    repeat case_match; [rewrite lookup_insert_ne by done..|]; done. }
  split; [by apply Hh|]. split; [by apply Hh|]. split; [done|].
  split; [unfold limiter_key; by rewrite Hm|].
  intros st' now' up' req' Hm' Ho'. rewrite (serve_options _ _ _ _ _ Hm'). cbn [fst].
  unfold preflight. by rewrite Ho'.
Qed.

Lemma preflight_response_witness :
  let req := options (Some "https://app.example"%string) None in
  let r := (serve closed_origins empty_limiter 0 (reply [hd_media]) req).1 in
  status r = 200 ∧ body r = None
  ∧ headers r !! "Access-Control-Allow-Origin"%string = Some "https://app.example"%string.
Proof.
  pose proof (preflight_response closed_origins empty_limiter 0 (reply [hd_media])
                (options (Some "https://app.example"%string) None) eq_refl) as (Hs & Hb & Hh & _).
  split; [exact Hs|]. split; [exact Hb|]. reflexivity.
Defined.

(** C7 as stated fails on the status: the pre-flight answer is built without
    a status and so has 200, not 204. *)
Lemma preflight_status_is_200 :
  let req := options (Some "https://app.example"%string) None in
  let r := (serve default_config empty_limiter 0 (reply [hd_media]) req).1 in
  method req = "OPTIONS"%string ∧ body r = None ∧ status r = 200 ∧ status r ≠ 204.
Proof. split; [reflexivity|]. split; [reflexivity|]. split; [reflexivity | discriminate]. Qed.

(** ** C8: a disallowed origin *)

Lemma jsonResponse_allow_origin cfg r s o :
  headers (jsonResponse cfg r s o) !! "Access-Control-Allow-Origin"%string
  = setCorsHeaders cfg o !! "Access-Control-Allow-Origin"%string.
Proof. unfold jsonResponse; simpl. by rewrite lookup_insert_ne. Qed.

Lemma setCorsHeaders_disallowed cfg o :
  o ≠ ""%string → "*"%string ∉ ALLOWED_ORIGINS cfg → o ∉ ALLOWED_ORIGINS cfg →
  setCorsHeaders cfg (Some o) !! "Access-Control-Allow-Origin"%string = None.
Proof.
  intros Ho Hstar Hin. unfold setCorsHeaders. simpl.
  rewrite !includes_false by done. rewrite !andb_false_r.
  by rewrite !lookup_insert_ne.
Qed.

(** C8, as the code has it.  A request other than OPTIONS whose [Origin]
    header is present and not empty, with neither the wildcard nor the origin
    in the allow-list, is answered at the origin check: 403 with
    UNAUTHORIZED_ORIGIN, without an [Access-Control-Allow-Origin] header, and
    without reaching authentication or the rate limiter. *)
Theorem disallowed_origin cfg st now up req o :
  method req ≠ "OPTIONS"%string →
  Origin req = Some o → o ≠ ""%string →
  "*"%string ∉ ALLOWED_ORIGINS cfg → o ∉ ALLOWED_ORIGINS cfg →
  let r := (serve cfg st now up req).1 in
  headers r !! "Access-Control-Allow-Origin"%string = None
  ∧ origin_gate cfg req = Some r
  ∧ status r = 403 ∧ has_code r "UNAUTHORIZED_ORIGIN"
  ∧ limiter_key cfg req = None
  ∧ (serve cfg st now up req).2 = st.
Proof.
  intros Hm Ho Hne Hstar Hin r. subst r.
  assert (Hg : origin_gate cfg req
               = Some (jsonResponse cfg (failure "Unauthorized origin." "UNAUTHORIZED_ORIGIN")
                         403 (Origin req))).
  { unfold origin_gate. rewrite Ho. rewrite (str_truthy_some o) by done.
    simpl. by rewrite !includes_false. }
  rewrite (serve_origin_rejected _ _ _ _ _ _ Hm Hg). cbn [fst snd].
  split. { rewrite jsonResponse_allow_origin, Ho. by apply setCorsHeaders_disallowed. }
  split; [done|]. split; [done|]. split; [by apply has_code_failure|].
  split; [|done]. unfold limiter_key. apply method_not_options in Hm. by rewrite Hm, Hg.
Qed.

Lemma disallowed_origin_witness :
  let req := post (Some "https://evil.example"%string) (Some "Bearer secret"%string)
               (url_doc "https://www.instagram.com/p/ABC123/") in
  let r := (serve closed_origins empty_limiter 0 (reply [hd_media]) req).1 in
  headers r !! "Access-Control-Allow-Origin"%string = None
  ∧ origin_gate closed_origins req = Some r
  ∧ status r = 403 ∧ has_code r "UNAUTHORIZED_ORIGIN"
  ∧ limiter_key closed_origins req = None
  ∧ (serve closed_origins empty_limiter 0 (reply [hd_media]) req).2 = empty_limiter.
Proof.
  apply (disallowed_origin closed_origins empty_limiter 0 (reply [hd_media])
           (post (Some "https://evil.example"%string) (Some "Bearer secret"%string)
              (url_doc "https://www.instagram.com/p/ABC123/"))
           "https://evil.example"%string).
  - discriminate.
  - reflexivity.
  - discriminate.
  - apply (bool_decide_eq_false_1 _). reflexivity.
  - apply (bool_decide_eq_false_1 _). reflexivity.
Defined.

(** C8 as stated fails on its second half: a request from a disallowed
    origin that carries the right credential does not go on to the
    authentication stage; the origin check answers it with an explicit
    403. *)
Lemma disallowed_origin_is_rejected :
  let req := post (Some "https://evil.example"%string) (Some "Bearer secret"%string)
               (url_doc "https://www.instagram.com/p/ABC123/") in
  let r := (serve closed_origins empty_limiter 0 (reply [hd_media]) req).1 in
  method req ≠ "OPTIONS"%string
  ∧ includes (ALLOWED_ORIGINS closed_origins) "*" = false
  ∧ includes_opt (ALLOWED_ORIGINS closed_origins) (Origin req) = false
  ∧ auth_gate closed_origins req = inr (Some "secret"%string)
  ∧ origin_gate closed_origins req = Some r
  ∧ status r = 403 ∧ has_code r "UNAUTHORIZED_ORIGIN".
Proof.
  split; [discriminate|]. repeat (split; [reflexivity|]). reflexivity.
Qed.

(** ** C9: the rate-limit identity *)

Lemma or_default_blank o d : blank o → or_default o d = d.
Proof. by intros [-> | ->]. Qed.

Lemma or_default_value s d : s ≠ ""%string → or_default (Some s) d = s.
Proof. intros H. simpl. apply String.eqb_neq in H. by rewrite H. Qed.

Lemma or_opt_blank a b : blank a → or_opt a b = b.
Proof. by intros [-> | ->]. Qed.

Lemma or_opt_value s b : s ≠ ""%string → or_opt (Some s) b = Some s.
Proof. intros H. unfold or_opt. by rewrite str_truthy_some. Qed.

(** C9, as the code has it.  A request that reaches the rate limiter has an
    [Authorization] header; its identity is the token when the token is not
    empty; otherwise the first non-empty header among [X-Forwarded-For],
    [X-Real-IP] and [CF-Connecting-IP], in that order; otherwise the string
    "unknown-ip". *)
Theorem rate_limit_identity cfg req key :
  limiter_key cfg req = Some key →
  ∃ h, Authorization req = Some h
    ∧ (∀ t, token_of h = Some t → t ≠ ""%string → key = t)
    ∧ (blank (token_of h) →
         (∀ a, X_Forwarded_For req = Some a → a ≠ ""%string → key = a)
         ∧ (blank (X_Forwarded_For req) →
              (∀ a, X_Real_IP req = Some a → a ≠ ""%string → key = a)
              ∧ (blank (X_Real_IP req) →
                   (∀ a, CF_Connecting_IP req = Some a → a ≠ ""%string → key = a)
                   ∧ (blank (CF_Connecting_IP req) → key = "unknown-ip"%string)))).
Proof.
  unfold limiter_key. intros Hk.
  destruct (String.eqb (method req) "OPTIONS"); [done|].
  destruct (origin_gate cfg req); [done|].
  destruct (auth_gate cfg req) as [|token] eqn:Ha; [done|].
  injection Hk as <-. apply auth_gate_inr in Ha as (h & Hh & _ & ->).
  exists h. split; [done|]. unfold rateLimitKey, clientIp. split.
  - intros t -> Ht. by apply or_default_value.
  - intros Htok. rewrite (or_default_blank _ _ Htok). split.
    + intros a -> Ha. rewrite (or_opt_value a) by done.
      rewrite (or_opt_value a) by done. by apply or_default_value.
    + intros Hx. rewrite (or_opt_blank _ _ Hx). split.
      * intros a -> Ha. rewrite (or_opt_value a) by done. by apply or_default_value.
      * intros Hr. rewrite (or_opt_blank _ _ Hr). split.
        -- intros a -> Ha. by apply or_default_value.
        -- intros Hc. by apply or_default_blank.
Qed.

Lemma rate_limit_identity_witness :
  let req := {| method := "POST"; Origin := None;
                X_Forwarded_For := None; X_Real_IP := Some "10.0.0.7"%string;
                CF_Connecting_IP := Some "10.0.0.9"%string;
                Authorization := Some "Bearer tok"%string;
                req_json := url_doc "https://www.instagram.com/p/ABC123/" |} in
  ∃ h, Authorization req = Some h
    ∧ (∀ t, token_of h = Some t → t ≠ ""%string → "tok"%string = t)
    ∧ (blank (token_of h) →
         (∀ a, X_Forwarded_For req = Some a → a ≠ ""%string → "tok"%string = a)
         ∧ (blank (X_Forwarded_For req) →
              (∀ a, X_Real_IP req = Some a → a ≠ ""%string → "tok"%string = a)
              ∧ (blank (X_Real_IP req) →
                   (∀ a, CF_Connecting_IP req = Some a → a ≠ ""%string → "tok"%string = a)
                   ∧ (blank (CF_Connecting_IP req) → "tok"%string = "unknown-ip"%string)))).
Proof.
  apply (rate_limit_identity default_config
           {| method := "POST"; Origin := None;
              X_Forwarded_For := None; X_Real_IP := Some "10.0.0.7"%string;
              CF_Connecting_IP := Some "10.0.0.9"%string;
              Authorization := Some "Bearer tok"%string;
              req_json := url_doc "https://www.instagram.com/p/ABC123/" |}
           "tok"%string).
  reflexivity.
Defined.

(** C9 as stated fails on the sentinel: with an empty token and none of the
    three address headers, the identity is "unknown-ip". *)
Lemma identity_sentinel_is_unknown_ip :
  let req := post None (Some "Bearer  x"%string) (url_doc "https://www.instagram.com/p/ABC123/") in
  token_of "Bearer  x" = Some ""%string
  ∧ X_Forwarded_For req = None ∧ X_Real_IP req = None ∧ CF_Connecting_IP req = None
  ∧ limiter_key default_config req = Some "unknown-ip"%string
  ∧ limiter_key default_config req ≠ Some "unknown"%string.
Proof. repeat (split; [reflexivity|]). discriminate. Qed.

(** ** C10: rejections before the rate limiter *)

(** C10.  A request answered with UNAUTHORIZED_ORIGIN (403), AUTH_REQUIRED
    (401) or INVALID_API_KEY (401) leaves the rate limiter's memory exactly
    as it was, so the entry of every identity is unchanged. *)
Theorem early_rejection_keeps_limiter cfg st now up req :
  let r := (serve cfg st now up req).1 in
  has_code r "UNAUTHORIZED_ORIGIN" ∨ has_code r "AUTH_REQUIRED" ∨ has_code r "INVALID_API_KEY" →
  (status r = 403 ∨ status r = 401)
  ∧ (serve cfg st now up req).2 = st
  ∧ ∀ key, stored (serve cfg st now up req).2 key = stored st key.
Proof.
  intros r Hcode. subst r.
  destruct (limiter_key cfg req) as [key|] eqn:Hk.
  - exfalso. rewrite (serve_limiter _ _ _ _ _ _ Hk) in Hcode. cbn [fst] in Hcode.
    destruct (rate_limit cfg now key st).1.
    + destruct Hcode as [H|[H|H]]; apply body_stage_code in H; simpl in H;
        repeat destruct H as [H|H]; done.
    + unfold rate_limited in Hcode. rewrite !has_code_failure in Hcode.
      destruct Hcode as [H|[H|H]]; done.
  - rewrite (serve_early _ _ _ _ _ Hk). split; [|done].
    destruct (String.eqb (method req) "OPTIONS") eqn:Hm.
    + apply String.eqb_eq in Hm. rewrite (serve_options _ _ _ _ _ Hm) in Hcode.
      destruct Hcode as [H|[H|H]]; done.
    + apply method_not_options in Hm.
      destruct (origin_gate cfg req) as [r|] eqn:Ho.
      * rewrite (serve_origin_rejected _ _ _ _ _ _ Hm Ho). cbn [fst].
        apply origin_gate_some in Ho as ->. by left.
      * destruct (auth_gate cfg req) as [r|token] eqn:Ha.
        -- rewrite (serve_auth_rejected _ _ _ _ _ _ Hm Ho Ha). cbn [fst].
           apply auth_gate_inl in Ha as [-> | ->]; by right.
        -- rewrite (limiter_key_auth _ _ _ Hm Ho Ha) in Hk. done.
Qed.

Lemma early_rejection_keeps_limiter_witness :
  let st := (serve limit3 empty_limiter 0 (reply [hd_media])
               (post None (Some "Bearer tok"%string)
                  (url_doc "https://www.instagram.com/p/ABC123/"))).2 in
  let req := post None (Some "Bearer wrong"%string) (url_doc "https://www.instagram.com/p/ABC123/") in
  let out := serve closed_origins st 5 (reply [hd_media]) req in
  (status out.1 = 403 ∨ status out.1 = 401)
  ∧ out.2 = st
  ∧ ∀ key, stored out.2 key = stored st key.
Proof.
  apply (early_rejection_keeps_limiter closed_origins
           (serve limit3 empty_limiter 0 (reply [hd_media])
              (post None (Some "Bearer tok"%string)
                 (url_doc "https://www.instagram.com/p/ABC123/"))).2
           5 (reply [hd_media])
           (post None (Some "Bearer wrong"%string) (url_doc "https://www.instagram.com/p/ABC123/"))).
  right. right. reflexivity.
Defined.

(** ** C2: the envelope *)

Lemma dispatched_envelope r s :
  dispatched r s →
  envelope_ok (stringify r) = true
  ∧ (success_envelope (stringify r) = true ↔ s = 200)
  ∧ (failure_envelope (stringify r) = true ↔ s ≠ 200).
Proof.
  assert (Hfail : ∀ msg code s', s' ≠ 200 →
            envelope_ok (stringify (failure msg code)) = true
            ∧ (success_envelope (stringify (failure msg code)) = true ↔ s' = 200)
            ∧ (failure_envelope (stringify (failure msg code)) = true ↔ s' ≠ 200)).
  { intros msg code s' Hs. split; [apply envelope_failure|].
    unfold success_envelope, failure_envelope, has.
    rewrite get_success, get_data, get_error, get_errorCode. simpl.
    split; split; done. }
  assert (Hsucc : ∀ m,
            envelope_ok (stringify (success_with m)) = true
            ∧ (success_envelope (stringify (success_with m)) = true ↔ 200 = 200)
            ∧ (failure_envelope (stringify (success_with m)) = true ↔ 200 ≠ 200)).
  { intros m. split; [apply envelope_success|].
    unfold success_envelope, failure_envelope, has.
    rewrite get_success, get_data, get_error, get_errorCode. simpl.
    split; split; done. }
  intros H. inversion H as [| | | |r' s' Hb]; subst; try (by apply Hfail).
  inversion Hb; subst; unfold no_media_found, fetch_failed;
    try (by apply Hfail). apply Hsucc.
Qed.

(** C2, as the code has it.  Every answer of the gatekeeping handler is
    either the pre-flight answer, which has no body, or carries a JSON body
    that is an envelope of exactly one of two kinds: a success, with
    [success:true] and [data] and neither [error] nor [errorCode], sent with
    status 200; or a failure, with [success:false], an [error] string and an
    [errorCode] string and no [data], sent with another status. *)
Theorem envelope_invariant cfg st now up req :
  let r := (serve cfg st now up req).1 in
  (method req = "OPTIONS"%string ∧ body r = None)
  ∨ (method req ≠ "OPTIONS"%string
     ∧ ∃ j, body r = Some j
          ∧ envelope_ok j = true
          ∧ (success_envelope j = true ↔ status r = 200)
          ∧ (failure_envelope j = true ↔ status r ≠ 200)).
Proof.
  intros r. subst r. destruct (decide (method req = "OPTIONS"%string)) as [Hm|Hm].
  - left. by rewrite (serve_options _ _ _ _ _ Hm).
  - right. split; [done|].
    destruct (serve_dispatched cfg st now up req Hm) as (res & s & -> & Hd).
    exists (stringify res). split; [done|]. by apply dispatched_envelope.
Qed.

(** C2 as stated fails on the earlier handler of the file: a request
    without [url] is answered 400 with a body that holds [error] alone,
    neither [success] nor [errorCode]. *)
Lemma legacy_failure_body_is_bare :
  let req := post None None (Normal (JObj [])) in
  let r := Legacy.serve (λ _, []) (reply [hd_media]) req in
  status r = 400
  ∧ body r = Some (JObj [(js "error", JStr (js "URL is required"))])
  ∧ ∃ j, body r = Some j ∧ envelope_ok j = false
       ∧ has "success" j = false ∧ has "errorCode" j = false.
Proof.
  split; [reflexivity|]. split; [reflexivity|].
  eexists. split; [reflexivity|]. repeat split; reflexivity.
Qed.

(** ** The upstream reply *)

Lemma prop_get k result : result ≠ JNull → prop result (js k) = Normal (get k result).
Proof. by destruct result. Qed.

Lemma get_some_not_null k v x : get k v = Some x → v ≠ JNull.
Proof. by destruct v. Qed.

Lemma get_some_truthy k v x : get k v = Some x → truthy v = true.
Proof. by destruct v. Qed.

Lemma encodable_to_string u : encodeURIComponent_ok u = Normal () → ∃ s, to_string u = Normal s.
Proof.
  unfold encodeURIComponent_ok. unfold_bind. destruct (to_string u); [eauto | done].
Qed.

Lemma fetch_forwarded u up :
  encodeURIComponent_ok u = Normal () →
  fetchInstagramMedia u up
  = Normal match up with
           | Normal result =>
               match normalize u result with Normal r => r | Throw _ => fetch_failed end
           | Throw _ => fetch_failed
           end.
Proof.
  intros He. destruct (encodable_to_string u He) as [s Hs].
  unfold fetchInstagramMedia. unfold_bind. rewrite He, Hs.
  destruct up as [result|]; [|done]. by destruct (normalize u result).
Qed.

Lemma serve_forwarded cfg st now up req u :
  forwards cfg st now req u →
  ∃ res, fetchInstagramMedia u up = Normal res
         ∧ (serve cfg st now up req).1 = jsonResponse cfg res (status_of res) (Origin req).
Proof.
  intros (key & b & Hk & Hadm & Hb & Hu & Ht & Hv & He).
  rewrite (serve_limiter _ _ _ _ _ _ Hk), Hadm. cbn [fst].
  unfold body_stage, process_body. unfold_bind. rewrite Hb, Hu, Ht, Hv. cbn [negb].
  rewrite (fetch_forwarded u up He). eauto.
Qed.

Lemma normalize_no_media u result :
  result ≠ JNull → no_media_signal result → normalize u result = Normal no_media_found.
Proof.
  intros Hnn Hsig. unfold normalize. unfold_bind.
  rewrite !(prop_get _ result) by done.
  destruct (truthy_val (get "status" result)) eqn:Hst; [|done]. cbn [negb].
  destruct (get "data" result) as [d|] eqn:Hd; [|done].
  destruct (truthy d) eqn:Htd; [|done]. cbn [negb].
  assert (Hdn : d ≠ JNull) by (by intros ->). rewrite (prop_get _ d) by done.
  destruct Hsig as [H|[H|(d' & Hd' & H)]].
  - congruence.
  - rewrite Hd in H. simpl in H. congruence.
  - rewrite Hd in Hd'. injection Hd' as <-. destruct H as [H|H].
    + destruct (get "medias" d) as [m|]; [|done]. simpl in H. by rewrite H.
    + by rewrite H.
Qed.

(** What [medias.map] makes of one media description. *)
Lemma normalize_media_get item :
  item ≠ JNull →
  normalize_media item
  = Normal {| quality := or_else (get "quality" item) (JStr (js "default"));
              url := get "url" item;
              size := or_else (get "formattedSize" item) (JStr (js "unknown")) |}.
Proof. intros H. unfold normalize_media. unfold_bind. by rewrite !prop_get. Qed.

Lemma mapM_normalize_media items :
  Forall (λ item, item ≠ JNull) items →
  ∃ opts, mapM normalize_media items = Normal opts
    ∧ length opts = length items
    ∧ ∀ i item, items !! i = Some item →
        opts !! i = Some {| quality := or_else (get "quality" item) (JStr (js "default"));
                            url := get "url" item;
                            size := or_else (get "formattedSize" item) (JStr (js "unknown")) |}.
Proof.
  induction 1 as [|item items Hitem _ (opts & Hm & Hlen & Hnth)]; simpl.
  - exists []. split; [done|]. split; [done|]. intros i item Hi. by destruct i.
  - unfold_bind. rewrite (normalize_media_get _ Hitem), Hm.
    eexists. split; [done|]. split; [simpl; by rewrite Hlen|].
    intros [|i] item' Hi; simpl in *; [by injection Hi as <- | by apply Hnth].
Qed.

Lemma normalize_usable u result d items :
  usable result d items →
  ∃ opts, mapM normalize_media items = Normal opts
    ∧ normalize u result
      = Normal (success_with {| type := or_else (get "type" d) (JStr (js "post"));
                                originalUrl := u;
                                thumbnail := get "thumbnail" d;
                                downloadOptions := opts |}).
Proof.
  intros (Hst & Hd & Hm & Hne & Hall).
  destruct (mapM_normalize_media items Hall) as (opts & Hopts & _).
  exists opts. split; [done|]. unfold normalize, mbind, completion_bind.
  rewrite !(prop_get _ result) by by eapply get_some_not_null.
  rewrite Hst, Hd. cbn [negb]. rewrite (get_some_truthy _ _ _ Hm). cbn [negb].
  rewrite !(prop_get _ d) by by eapply get_some_not_null.
  rewrite Hm. destruct items as [|item items]; [done|].
  change (map_medias (JArr (item :: items))) with (mapM normalize_media (item :: items)).
  by rewrite Hopts.
Qed.

Lemma or_else_truthy v x dflt : v = Some x → truthy x = true → or_else v dflt = x.
Proof. intros -> H. simpl. by rewrite H. Qed.

Lemma or_else_falsy v dflt : truthy_val v = false → or_else v dflt = dflt.
Proof. destruct v as [x|]; simpl; [|done]. by intros ->. Qed.

Lemma null_or_not (b : json) : b = JNull ∨ b ≠ JNull.
Proof. destruct b; auto. Qed.

Lemma mapM_normalize_media_null items :
  In JNull items → ∃ e, mapM normalize_media items = Throw e.
Proof.
  induction items as [|x items IH]; [done|]. intros [->|Hin].
  - by exists TypeError.
  - simpl. unfold mbind, completion_bind at 1.
    destruct (null_or_not x) as [->|Hx]; [by exists TypeError|].
    rewrite (normalize_media_get x Hx). destruct (IH Hin) as [e He].
    exists e. unfold mbind, completion_bind at 1. by rewrite He.
Qed.

Lemma normalize_bad_medias u result d m :
  truthy_val (get "status" result) = true →
  get "data" result = Some d → get "medias" d = Some m →
  truthy m = true → length_is_zero m = false →
  (∀ items, m ≠ JArr items) ∨ (∃ items, m = JArr items ∧ In JNull items) →
  ∃ e, normalize u result = Throw e.
Proof.
  intros Hst Hd Hm Ht Hz Hbad. unfold normalize, mbind, completion_bind.
  rewrite !(prop_get _ result) by by eapply get_some_not_null.
  rewrite Hst, Hd. cbn [negb]. rewrite (get_some_truthy _ _ _ Hm). cbn [negb].
  rewrite !(prop_get _ d) by by eapply get_some_not_null.
  rewrite Hm, Ht, Hz. cbn [negb].
  destruct Hbad as [Hna|(items & -> & Hin)].
  - destruct m; try (by exists TypeError). by destruct (Hna items).
  - change (map_medias (JArr items)) with (mapM normalize_media items).
    destruct (mapM_normalize_media_null items Hin) as [e ->]. by exists e.
Qed.

Lemma normalize_zero_length u result d m :
  truthy_val (get "status" result) = true →
  get "data" result = Some d → get "medias" d = Some m →
  truthy m = true → length_is_zero m = true →
  normalize u result = Normal no_media_found.
Proof.
  intros Hst Hd Hm Ht Hz. unfold normalize, mbind, completion_bind.
  rewrite !(prop_get _ result) by by eapply get_some_not_null.
  rewrite Hst, Hd. cbn [negb]. rewrite (get_some_truthy _ _ _ Hm). cbn [negb].
  rewrite !(prop_get _ d) by by eapply get_some_not_null.
  by rewrite Hm, Ht, Hz.
Qed.

(** ** C5: outcomes of the upstream call *)

(** C5, as the code has it.  For a request whose validated URL is forwarded
    upstream: a reply that parses to a JSON document other than [null] with
    a falsy [status], a missing or falsy [data], or a missing, falsy or
    empty [medias] is answered 404 with NO_MEDIA_FOUND; a call that fails,
    in the transport or in parsing the reply, is answered 500 with
    FETCH_FAILED, and so are the reply [null] and a reply whose [medias]
    array holds a [null]; a reply with a truthy [status] whose [medias] is a
    non-empty array without [null] is answered 200 with [success:true]. *)
Theorem upstream_outcomes cfg st now up req u :
  forwards cfg st now req u →
  let r := (serve cfg st now up req).1 in
  (∀ result, up = Normal result → result ≠ JNull → no_media_signal result →
     status r = 404 ∧ has_code r "NO_MEDIA_FOUND")
  ∧ (∀ e, up = Throw e → status r = 500 ∧ has_code r "FETCH_FAILED")
  ∧ (up = Normal JNull → status r = 500 ∧ has_code r "FETCH_FAILED")
  ∧ (∀ result d items,
       up = Normal result → truthy_val (get "status" result) = true →
       get "data" result = Some d → get "medias" d = Some (JArr items) →
       In JNull items →
       status r = 500 ∧ has_code r "FETCH_FAILED")
  ∧ (∀ result d items, up = Normal result → usable result d items →
       status r = 200 ∧ ∃ j, body r = Some j ∧ get "success" j = Some (JBool true)
                            ∧ has "data" j = true).
Proof.
  intros Hf r. subst r.
  destruct (serve_forwarded cfg st now up req u Hf) as (res & Hres & ->).
  destruct Hf as (_ & _ & _ & _ & _ & _ & _ & _ & He).
  rewrite (fetch_forwarded u up He) in Hres. injection Hres as <-.
  split; [|split; [|split; [|split]]].
  - intros result -> Hnn Hsig. rewrite (normalize_no_media u result Hnn Hsig).
    split; [done | by apply has_code_failure].
  - intros e ->. split; [done | by apply has_code_failure].
  - intros ->. split; [done | by apply has_code_failure].
  - intros result d items -> Hst Hd Hm Hin.
    destruct (normalize_bad_medias u result d (JArr items) Hst Hd Hm) as [e ->].
    + done.
    + by destruct items.
    + right. by exists items.
    + split; [done | by apply has_code_failure].
  - intros result d items -> Hus.
    destruct (normalize_usable u result d items Hus) as (opts & _ & ->).
    split; [done|]. eexists. split; [done|]. unfold has.
    by rewrite get_success, get_data.
Qed.

Lemma upstream_outcomes_witness :
  let req := post None (Some "Bearer tok"%string) (url_doc "https://www.instagram.com/p/ABC123/") in
  let answer up := (serve default_config empty_limiter 0 up req).1 in
  (status (answer (reply [])) = 404 ∧ has_code (answer (reply [])) "NO_MEDIA_FOUND")
  ∧ (status (answer (Normal (JObj [(js "status", JBool false)]))) = 404
     ∧ has_code (answer (Normal (JObj [(js "status", JBool false)]))) "NO_MEDIA_FOUND")
  ∧ (status (answer (Throw NetworkError)) = 500
     ∧ has_code (answer (Throw NetworkError)) "FETCH_FAILED")
  ∧ (status (answer (Normal JNull)) = 500
     ∧ has_code (answer (Normal JNull)) "FETCH_FAILED")
  ∧ (status (answer (reply [hd_media; JNull])) = 500
     ∧ has_code (answer (reply [hd_media; JNull])) "FETCH_FAILED")
  ∧ status (answer (reply [hd_media])) = 200.
Proof.
  assert (Hf : forwards default_config empty_limiter 0
                 (post None (Some "Bearer tok"%string)
                    (url_doc "https://www.instagram.com/p/ABC123/"))
                 (JStr (js "https://www.instagram.com/p/ABC123/"))).
  { exists "tok"%string, (JObj [(js "url", JStr (js "https://www.instagram.com/p/ABC123/"))]).
    repeat split; reflexivity. }
  split; [|split; [|split; [|split; [|split]]]].
  - destruct (upstream_outcomes _ _ _ (reply []) _ _ Hf) as (H & _).
    apply (H _ eq_refl); [discriminate|].
    right. right. eexists. split; [reflexivity|]. right. reflexivity.
  - destruct (upstream_outcomes _ _ _ (Normal (JObj [(js "status", JBool false)])) _ _ Hf)
      as (H & _).
    apply (H _ eq_refl); [discriminate | left; reflexivity].
  - destruct (upstream_outcomes _ _ _ (Throw NetworkError) _ _ Hf) as (_ & H & _).
    apply (H _ eq_refl).
  - destruct (upstream_outcomes _ _ _ (Normal JNull) _ _ Hf) as (_ & _ & H & _).
    apply (H eq_refl).
  - destruct (upstream_outcomes _ _ _ (reply [hd_media; JNull]) _ _ Hf) as (_ & _ & _ & H & _).
    apply (H _ (JObj [(js "medias", JArr [hd_media; JNull])]) [hd_media; JNull] eq_refl);
      [reflexivity | reflexivity | reflexivity | simpl; tauto].
  - destruct (upstream_outcomes _ _ _ (reply [hd_media]) _ _ Hf) as (_ & _ & _ & _ & H).
    apply (H _ (JObj [(js "medias", JArr [hd_media])]) [hd_media] eq_refl).
    split; [reflexivity|]. split; [reflexivity|]. split; [reflexivity|].
    split; [discriminate|]. repeat constructor. discriminate.
Defined.

(** C5 as stated fails on two replies that parse.  The document [null] has
    no truthy [status] and no [data], yet reading its [status] throws and
    the answer is 500 with FETCH_FAILED, not 404.  A reply with a truthy
    [status] whose [medias] is the non-empty array holding [null] signals
    none of the three conditions, yet reading [quality] of the element
    throws and the answer is 500 with FETCH_FAILED, not 200. *)
Lemma unreadable_reply_is_fetch_failed :
  let req := post None (Some "Bearer tok"%string) (url_doc "https://www.instagram.com/p/ABC123/") in
  let answer up := (serve default_config empty_limiter 0 up req).1 in
  let holed := JObj [(js "status", JBool true); (js "data", JObj [(js "medias", JArr [JNull])])] in
  forwards default_config empty_limiter 0 req (JStr (js "https://www.instagram.com/p/ABC123/"))
  ∧ (no_media_signal JNull
     ∧ status (answer (Normal JNull)) = 500
     ∧ error_code (answer (Normal JNull)) = Some (JStr (js "FETCH_FAILED")))
  ∧ (truthy_val (get "status" holed) = true
     ∧ (∃ d, get "data" holed = Some d ∧ get "medias" d = Some (JArr [JNull]))
     ∧ status (answer (Normal holed)) = 500
     ∧ error_code (answer (Normal holed)) = Some (JStr (js "FETCH_FAILED"))).
Proof.
  split; [|split].
  - exists "tok"%string, (JObj [(js "url", JStr (js "https://www.instagram.com/p/ABC123/"))]).
    repeat split; reflexivity.
  - split; [by left|]. split; reflexivity.
  - split; [reflexivity|]. split; [|split; reflexivity].
    eexists. split; reflexivity.
Qed.

(** ** C6: normalisation of the media list *)

(** C6, as the code has it.  For a usable reply, [fetchInstagramMedia]
    succeeds with one download option per element of [medias], in the same
    order.  Each option carries the element's [url] as it is; its [quality]
    is the element's [quality] when that is truthy and "default" when it is
    absent or falsy (null, false, 0 or the empty string); its [size] is the
    element's [formattedSize] when that is truthy and "unknown" otherwise.
    The result's [type] is the reply's when truthy and "post" otherwise, and
    its [originalUrl] is the requested URL. *)
Theorem media_normalisation u result d items :
  encodeURIComponent_ok u = Normal () →
  usable result d items →
  ∃ m, fetchInstagramMedia u (Normal result) = Normal (success_with m)
    ∧ length (downloadOptions m) = length items
    ∧ (∀ i item, items !! i = Some item →
         ∃ o, downloadOptions m !! i = Some o
           ∧ url o = get "url" item
           ∧ (∀ q, get "quality" item = Some q → truthy q = true → quality o = q)
           ∧ (truthy_val (get "quality" item) = false → quality o = JStr (js "default"))
           ∧ (∀ z, get "formattedSize" item = Some z → truthy z = true → size o = z)
           ∧ (truthy_val (get "formattedSize" item) = false → size o = JStr (js "unknown")))
    ∧ (∀ t, get "type" d = Some t → truthy t = true → type m = t)
    ∧ (truthy_val (get "type" d) = false → type m = JStr (js "post"))
    ∧ originalUrl m = u
    ∧ thumbnail m = get "thumbnail" d.
Proof.
  intros He Hus.
  destruct (normalize_usable u result d items Hus) as (opts & Hopts & Hn).
  destruct Hus as (_ & _ & _ & _ & Hall).
  destruct (mapM_normalize_media items Hall) as (opts' & Hopts' & Hlen & Hnth).
  assert (opts' = opts) as -> by congruence.
  eexists. split; [by rewrite (fetch_forwarded u _ He), Hn|]. cbn [downloadOptions type
    originalUrl thumbnail].
  split; [done|]. split.
  - intros i item Hi. eexists. split; [by apply Hnth|]. cbn [url quality size].
    split; [done|]. split; [intros q; apply or_else_truthy|].
    split; [apply or_else_falsy|]. split; [intros z; apply or_else_truthy | apply or_else_falsy].
  - split; [intros t; apply or_else_truthy|]. split; [apply or_else_falsy | done].
Qed.

Lemma media_normalisation_witness :
  ∃ m, fetchInstagramMedia (JStr (js "https://www.instagram.com/p/ABC123/")) (reply [hd_media])
       = Normal (success_with m)
    ∧ downloadOptions m
      = [{| quality := JStr (js "hd"); url := Some (JStr (js "x.mp4"));
            size := JStr (js "2MB") |}]
    ∧ type m = JStr (js "post").
Proof.
  destruct (media_normalisation (JStr (js "https://www.instagram.com/p/ABC123/"))
              (JObj [(js "status", JBool true); (js "data", JObj [(js "medias", JArr [hd_media])])])
              (JObj [(js "medias", JArr [hd_media])]) [hd_media])
    as (m & Hm & _).
  - reflexivity.
  - split; [reflexivity|]. split; [reflexivity|]. split; [reflexivity|].
    split; [discriminate|]. repeat constructor. discriminate.
  - exists m. split; [exact Hm|].
    assert (E : success_with m
                = success_with
                    {| type := JStr (js "post");
                       originalUrl := JStr (js "https://www.instagram.com/p/ABC123/");
                       thumbnail := None;
                       downloadOptions :=
                         [{| quality := JStr (js "hd"); url := Some (JStr (js "x.mp4"));
                             size := JStr (js "2MB") |}] |}).
    { apply (f_equal (λ c, match c with Normal r => r | Throw _ => success_with m end)) in Hm.
      symmetry. exact Hm. }
    injection E as ->. split; reflexivity.
Defined.

(** C6 as stated fails on "only when absent": a [quality] that is present
    and empty is replaced by the default as well. *)
Lemma empty_quality_gets_default :
  let item := JObj [(js "quality", JStr []); (js "url", JStr (js "x.mp4"));
                    (js "formattedSize", JStr (js "2MB"))] in
  get "quality" item = Some (JStr [])
  ∧ ∃ m, fetchInstagramMedia (JStr (js "https://www.instagram.com/p/ABC123/")) (reply [item])
         = Normal (success_with m)
       ∧ downloadOptions m
         = [{| quality := JStr (js "default"); url := Some (JStr (js "x.mp4"));
               size := JStr (js "2MB") |}].
Proof. split; [reflexivity|]. eexists. split; reflexivity. Qed.

(** ** A scenario of the specification, run on the handler

    With a maximum of 3 and a window of 60 seconds, three requests of one
    identity are served, the fourth inside the window is answered 429 and
    counted, and a request after the window is served again with the count
    back at 1. *)
Example three_then_limited_then_reset :
  let req := post None (Some "Bearer tok"%string) (url_doc "https://www.instagram.com/p/ABC123/") in
  let step (acc : list Z * limiter) (now : Z) :=
    let out := serve limit3 acc.2 now (reply [hd_media]) req in
    (acc.1 ++ [status out.1], out.2) in
  let inside := foldl step ([], empty_limiter) [0; 1000; 2000; 3000] in
  let after := foldl step inside [60001] in
  inside.1 = [200; 200; 200; 429]
  ∧ stored inside.2 "tok" = Some {| count := 4; resetTime := Int 60000 |}
  ∧ after.1 = [200; 200; 200; 429; 200]
  ∧ stored after.2 "tok" = Some {| count := 1; resetTime := Int 120001 |}.
Proof. repeat split; reflexivity. Qed.

(** * Further properties of the gatekeeping handler *)

(** ** CORS headers *)

Lemma setCorsHeaders_fixed cfg o k :
  k ≠ "Access-Control-Allow-Origin"%string →
  setCorsHeaders cfg o !! k
  = (<["Access-Control-Allow-Headers"%string := "Content-Type, Authorization"%string]>
       (<["Access-Control-Allow-Methods"%string := "GET, POST, OPTIONS"%string]>
          (∅ : gmap string string))) !! k.
Proof.
  intros Hk. unfold setCorsHeaders.
  repeat case_match; [rewrite lookup_insert_ne by done..|]; done.
Qed.

Lemma includes_true l x : x ∈ l → includes l x = true.
Proof. intros H. unfold includes. by apply bool_decide_eq_true. Qed.

Lemma includes_spec l x : includes l x = true ↔ x ∈ l.
Proof. unfold includes. apply bool_decide_eq_true. Qed.

Lemma str_truthy_spec o : str_truthy o = true ↔ ∃ s, o = Some s ∧ s ≠ ""%string.
Proof.
  destruct o as [s|]; simpl.
  - rewrite negb_true_iff, String.eqb_neq. split; [by eauto|]. by intros (? & [= <-] & ?).
  - split; [done | by intros (? & ? & _)].
Qed.

(** The [Access-Control-Allow-Origin] header is present exactly for a
    non-empty request origin that the configuration allows: it is [*] when
    the wildcard is in the allow-list (also when the origin is listed
    itself), and the origin echoed back when only the origin is listed.  A
    request without an origin never gets the header, wildcard or not. *)
Theorem allow_origin_header cfg o v :
  setCorsHeaders cfg o !! "Access-Control-Allow-Origin"%string = Some v
  ↔ ∃ s, o = Some s ∧ s ≠ ""%string
       ∧ (("*"%string ∈ ALLOWED_ORIGINS cfg ∧ v = "*"%string)
          ∨ (("*"%string ∉ ALLOWED_ORIGINS cfg) ∧ s ∈ ALLOWED_ORIGINS cfg ∧ v = s)).
Proof.
  unfold setCorsHeaders.
  destruct (str_truthy o) eqn:Ho.
  - apply str_truthy_spec in Ho as (s & -> & Hs). cbn [andb includes_opt default from_option].
    destruct (includes (ALLOWED_ORIGINS cfg) "*") eqn:Hstar.
    + apply includes_spec in Hstar. rewrite lookup_insert_eq. split.
      * intros [= <-]. exists s. split; [done|]. split; [done|]. by left.
      * intros (s' & [= <-] & _ & [[_ ->]|[Hn _]]); done.
    + assert (Hns : "*"%string ∉ ALLOWED_ORIGINS cfg).
      { intros H. apply includes_spec in H. congruence. }
      destruct (includes (ALLOWED_ORIGINS cfg) s) eqn:Hin.
      * apply includes_spec in Hin. rewrite lookup_insert_eq. split.
        -- intros [= <-]. exists s. split; [done|]. split; [done|]. by right.
        -- intros (s' & [= <-] & _ & [[Hy _]|(_ & _ & ->)]); done.
      * rewrite !lookup_insert_ne by done. rewrite lookup_empty. split; [done|].
        intros (s' & [= <-] & _ & [[Hy _]|(_ & Hy & _)]); [done|].
        apply includes_spec in Hy. congruence.
  - cbn [andb]. rewrite !lookup_insert_ne by done. rewrite lookup_empty. split; [done|].
    intros (s & -> & Hs & _). assert (str_truthy (Some s) = true) by by apply str_truthy_some.
    congruence.
Qed.

(** The handler answers with the pre-flight response or through
    [jsonResponse] with a row of the dispatcher's table. *)
Lemma serve_shape cfg st now up req :
  (method req = "OPTIONS"%string ∧ (serve cfg st now up req).1 = preflight cfg req)
  ∨ (method req ≠ "OPTIONS"%string
     ∧ ∃ res s, (serve cfg st now up req).1 = jsonResponse cfg res s (Origin req)
                ∧ dispatched res s).
Proof.
  destruct (decide (method req = "OPTIONS"%string)) as [Hm|Hm].
  - left. split; [done|]. by rewrite (serve_options _ _ _ _ _ Hm).
  - right. split; [done|]. by apply serve_dispatched.
Qed.

(** Every response, whatever the outcome, carries the two fixed CORS headers
    and the allow-origin header that [setCorsHeaders] computes for the
    request's origin; it carries [Content-Type: application/json] exactly
    when it has a body. *)
Theorem response_headers cfg st now up req :
  let r := (serve cfg st now up req).1 in
  headers r !! "Access-Control-Allow-Methods"%string = Some "GET, POST, OPTIONS"%string
  ∧ headers r !! "Access-Control-Allow-Headers"%string = Some "Content-Type, Authorization"%string
  ∧ headers r !! "Access-Control-Allow-Origin"%string
    = setCorsHeaders cfg (Origin req) !! "Access-Control-Allow-Origin"%string
  ∧ (headers r !! "Content-Type"%string
     = match body r with Some _ => Some "application/json"%string | None => None end).
Proof.
  intros r. subst r.
  destruct (serve_shape cfg st now up req) as [[_ ->]|(_ & res & s & -> & _)].
  - unfold preflight; cbn [headers body].
    repeat split; try done; by rewrite setCorsHeaders_fixed.
  - unfold jsonResponse; cbn [headers body]. rewrite lookup_insert_eq.
    repeat split; try done; rewrite lookup_insert_ne by done; try done;
      by rewrite setCorsHeaders_fixed.
Qed.

(** ** The origin check *)

Lemma origin_gate_rejects cfg req o :
  Origin req = Some o → o ≠ ""%string →
  "*"%string ∉ ALLOWED_ORIGINS cfg → o ∉ ALLOWED_ORIGINS cfg →
  origin_gate cfg req
  = Some (jsonResponse cfg (failure "Unauthorized origin." "UNAUTHORIZED_ORIGIN") 403 (Origin req)).
Proof.
  intros Ho Hne Hstar Hin. unfold origin_gate. rewrite Ho.
  rewrite (str_truthy_some o) by done. simpl. by rewrite !includes_false.
Qed.

(** The handler answers UNAUTHORIZED_ORIGIN exactly for a request other than
    OPTIONS that names a non-empty origin while neither the wildcard nor
    that origin is in the allow-list.  In particular a request that sends no
    [Origin] header is never turned away for its origin. *)
Theorem origin_rejection_exact cfg st now up req :
  has_code (serve cfg st now up req).1 "UNAUTHORIZED_ORIGIN"
  ↔ method req ≠ "OPTIONS"%string
    ∧ ∃ o, Origin req = Some o ∧ o ≠ ""%string
         ∧ ("*"%string ∉ ALLOWED_ORIGINS cfg) ∧ o ∉ ALLOWED_ORIGINS cfg.
Proof.
  split.
  - intros Hc. destruct (decide (method req = "OPTIONS"%string)) as [Hm|Hm].
    { by rewrite (serve_options _ _ _ _ _ Hm) in Hc. }
    split; [done|].
    destruct (origin_gate cfg req) as [r|] eqn:Ho.
    + unfold origin_gate in Ho. case_match eqn:Hcond; [|done].
      apply andb_true_iff in Hcond as [Hcond Hin].
      apply andb_true_iff in Hcond as [Ht Hstar].
      apply str_truthy_spec in Ht as (o & Heq & Hne). exists o. rewrite Heq in *.
      split; [done|]. split; [done|]. apply negb_true_iff in Hstar, Hin. split.
      * intros H. apply includes_spec in H. congruence.
      * intros H. apply includes_spec in H. simpl in Hin. congruence.
    + exfalso. destruct (auth_gate cfg req) as [r|token] eqn:Ha.
      * rewrite (serve_auth_rejected _ _ _ _ _ _ Hm Ho Ha) in Hc. cbn [fst] in Hc.
        apply auth_gate_inl in Ha as [-> | ->]; by apply has_code_failure in Hc.
      * pose proof (limiter_key_auth _ _ _ Hm Ho Ha) as Hk.
        rewrite (serve_limiter _ _ _ _ _ _ Hk) in Hc. cbn [fst] in Hc.
        destruct (rate_limit cfg now _ st).1.
        -- apply body_stage_code in Hc. simpl in Hc. repeat destruct Hc as [Hc|Hc]; done.
        -- by apply has_code_failure in Hc.
  - intros (Hm & o & Ho & Hne & Hstar & Hin).
    rewrite (serve_origin_rejected _ _ _ _ _ _ Hm (origin_gate_rejects _ _ _ Ho Hne Hstar Hin)).
    by apply has_code_failure.
Qed.

(** ** Statuses and error codes *)

Lemma dispatched_code res s :
  dispatched res s →
  match errorCode res with
  | Some c => In (c, s) status_table ∧ s ≠ 200
  | None => s = 200
  end.
Proof.
  intros H. inversion H as [| | | |r' s' Hb]; subst; simpl; try (split; [tauto | done]).
  inversion Hb; subst; simpl; try (split; [tauto | done]). done.
Qed.

(** Each error code is sent with one fixed status, and a response has
    status 200 exactly when it carries no error code (a success or a
    pre-flight answer). *)
Theorem status_follows_code cfg st now up req :
  let r := (serve cfg st now up req).1 in
  (∀ code, has_code r code → In (code, status r) status_table)
  ∧ (status r = 200 ↔ error_code r = None).
Proof.
  intros r. subst r.
  destruct (serve_shape cfg st now up req) as [[_ ->]|(_ & res & s & -> & Hd)].
  - split; [by intros code H | done].
  - apply dispatched_code in Hd. unfold has_code. rewrite error_code_jsonResponse.
    cbn [status]. destruct (errorCode res) as [c|]; simpl.
    + destruct Hd as [Hin Hs]. split; [|by split].
      intros code [= E]. apply js_inj in E as <-. done.
    + split; [by intros code H | done].
Qed.

(** ** The body stage *)

Lemma serve_at_body_stage cfg st now up req :
  at_body_stage cfg st now req → (serve cfg st now up req).1 = body_stage cfg req up.
Proof. intros (key & Hk & Hadm). by rewrite (serve_limiter _ _ _ _ _ _ Hk), Hadm. Qed.

(** A code of the body stage is only sent from the body stage. *)
Lemma body_code_stage cfg st now up req code :
  has_code (serve cfg st now up req).1 code →
  In code ["URL_REQUIRED"; "INVALID_INSTAGRAM_URL"; "NO_MEDIA_FOUND"; "FETCH_FAILED";
           "INTERNAL_ERROR"]%string →
  at_body_stage cfg st now req.
Proof.
  intros Hc Hin. destruct (limiter_key cfg req) as [key|] eqn:Hk.
  - exists key. split; [done|].
    rewrite (serve_limiter _ _ _ _ _ _ Hk) in Hc. cbn [fst] in Hc.
    destruct (rate_limit cfg now key st).1; [done|].
    apply has_code_failure in Hc as <-. simpl in Hin. repeat destruct Hin as [Hin|Hin]; done.
  - exfalso. destruct (decide (method req = "OPTIONS"%string)) as [Hm|Hm].
    { by rewrite (serve_options _ _ _ _ _ Hm) in Hc. }
    destruct (origin_gate cfg req) as [r|] eqn:Ho.
    + rewrite (serve_origin_rejected _ _ _ _ _ _ Hm Ho) in Hc. cbn [fst] in Hc.
      apply origin_gate_some in Ho as ->. apply has_code_failure in Hc as <-.
      simpl in Hin. repeat destruct Hin as [Hin|Hin]; done.
    + destruct (auth_gate cfg req) as [r|token] eqn:Ha.
      * rewrite (serve_auth_rejected _ _ _ _ _ _ Hm Ho Ha) in Hc. cbn [fst] in Hc.
        apply auth_gate_inl in Ha as [-> | ->]; apply has_code_failure in Hc as <-;
          simpl in Hin; repeat destruct Hin as [Hin|Hin]; done.
      * rewrite (limiter_key_auth _ _ _ Hm Ho Ha) in Hk. done.
Qed.

Lemma valid_to_string u v : isValidInstagramUrl u = Normal v → ∃ s, to_string u = Normal s.
Proof.
  unfold isValidInstagramUrl. unfold_bind. destruct (to_string u); [eauto | done].
Qed.

Lemma fetch_after_validation u v up :
  isValidInstagramUrl u = Normal v → ∃ res, fetchInstagramMedia u up = Normal res.
Proof.
  intros Hv. destruct (valid_to_string u v Hv) as [s Hs].
  unfold fetchInstagramMedia. unfold_bind. rewrite Hs.
  repeat case_match; eauto.
Qed.

Lemma fetch_codes cfg u up res s o code :
  fetchInstagramMedia u up = Normal res →
  has_code (jsonResponse cfg res s o) code →
  code = "NO_MEDIA_FOUND"%string ∨ code = "FETCH_FAILED"%string.
Proof.
  intros Hf. apply fetch_cases in Hf as [->|[->|[m ->]]];
    unfold no_media_found, fetch_failed.
  - rewrite has_code_failure. auto.
  - rewrite has_code_failure. auto.
  - unfold has_code. rewrite error_code_jsonResponse. done.
Qed.

(** The handler answers URL_REQUIRED exactly when a request gets as far as
    its body, the body parses to a JSON document other than [null], and the
    document has no [url] member or a falsy one (the empty string, [0],
    [false] or [null]); a document that is an array, a string, a number or a
    boolean has no [url]. *)
Theorem url_required_exact cfg st now up req :
  has_code (serve cfg st now up req).1 "URL_REQUIRED"
  ↔ at_body_stage cfg st now req
    ∧ ∃ b, req_json req = Normal b ∧ b ≠ JNull ∧ truthy_val (get "url" b) = false.
Proof.
  split.
  - intros Hc. assert (Hst : at_body_stage cfg st now req).
    { eapply body_code_stage; [done|]. simpl. tauto. }
    split; [done|]. rewrite (serve_at_body_stage _ _ _ _ _ Hst) in Hc.
    unfold body_stage, process_body in Hc. unfold_bind.
    destruct (req_json req) as [b|]; [|by apply has_code_failure in Hc].
    exists b. split; [done|].
    destruct (null_or_not b) as [->|Hb]; [by apply has_code_failure in Hc|].
    split; [done|]. rewrite (prop_get "url" b Hb) in Hc.
    destruct (get "url" b) as [u|]; [|done]. simpl.
    destruct (truthy u); [|done]. exfalso. cbn [negb] in Hc.
    destruct (isValidInstagramUrl u) as [v|] eqn:Hv; [|by apply has_code_failure in Hc].
    destruct v; cbn [negb] in Hc; [|by apply has_code_failure in Hc].
    destruct (fetch_after_validation u true up Hv) as [res Hres]. rewrite Hres in Hc.
    by destruct (fetch_codes _ _ _ _ _ _ _ Hres Hc).
  - intros (Hst & b & Hb & Hnn & Hu). rewrite (serve_at_body_stage _ _ _ _ _ Hst).
    unfold body_stage, process_body. unfold_bind. rewrite Hb, (prop_get "url" b Hnn).
    destruct (get "url" b) as [u|]; simpl in Hu; [rewrite Hu|]; by apply has_code_failure.
Qed.

(** The handler answers INTERNAL_ERROR exactly when a request gets as far as
    its body and the body does not parse, or parses to [null], or holds a
    truthy [url] that has no string conversion (an object with a member
    named [toString], alone or inside arrays). *)
Theorem internal_error_exact cfg st now up req :
  has_code (serve cfg st now up req).1 "INTERNAL_ERROR"
  ↔ at_body_stage cfg st now req
    ∧ ((∃ e, req_json req = Throw e)
       ∨ req_json req = Normal JNull
       ∨ ∃ b u e, req_json req = Normal b ∧ get "url" b = Some u ∧ truthy u = true
                  ∧ to_string u = Throw e).
Proof.
  split.
  - intros Hc. assert (Hst : at_body_stage cfg st now req).
    { eapply body_code_stage; [done|]. simpl. tauto. }
    split; [done|]. rewrite (serve_at_body_stage _ _ _ _ _ Hst) in Hc.
    unfold body_stage, process_body in Hc. unfold_bind.
    destruct (req_json req) as [b|e]; [|left; by exists e].
    right. destruct (null_or_not b) as [->|Hb]; [by left|]. right.
    rewrite (prop_get "url" b Hb) in Hc.
    destruct (get "url" b) as [u|] eqn:Hu; [|by apply has_code_failure in Hc].
    destruct (truthy u) eqn:Ht; cbn [negb] in Hc; [|by apply has_code_failure in Hc].
    unfold isValidInstagramUrl in Hc. unfold_bind.
    destruct (to_string u) as [s|e] eqn:Hs; [|by exists b, u, e].
    exfalso.
    assert (Hv : isValidInstagramUrl u = Normal (accepts url_pattern s)).
    { unfold isValidInstagramUrl. unfold_bind. by rewrite Hs. }
    destruct (accepts url_pattern s); cbn [negb] in Hc; [|by apply has_code_failure in Hc].
    destruct (fetch_after_validation u true up Hv) as [res Hres]. rewrite Hres in Hc.
    by destruct (fetch_codes _ _ _ _ _ _ _ Hres Hc).
  - intros (Hst & Hcase). rewrite (serve_at_body_stage _ _ _ _ _ Hst).
    unfold body_stage, process_body. unfold_bind.
    destruct Hcase as [[e ->]|[->|(b & u & e & -> & Hu & Ht & Hs)]];
      [by apply has_code_failure..|].
    rewrite (prop_get "url" b) by (by eapply get_some_not_null).
    rewrite Hu, Ht. cbn [negb]. unfold isValidInstagramUrl. unfold_bind. rewrite Hs.
    by apply has_code_failure.
Qed.

(** ** What is decided before the body is read *)

Lemma limiter_key_with_body cfg req doc :
  limiter_key cfg (with_body req doc) = limiter_key cfg req.
Proof. reflexivity. Qed.

(** A pre-flight answer, a 401, a 403 and a 429 are given without reading
    the request body and without calling upstream: the same request with any
    other body, and any other upstream reply, gets the same answer and leaves
    the same memory. *)
Theorem early_answers_ignore_body cfg st now up req up' doc' :
  method req = "OPTIONS"%string ∨ In (status (serve cfg st now up req).1) [401; 403; 429] →
  serve cfg st now up' (with_body req doc') = serve cfg st now up req.
Proof.
  intros H. destruct (limiter_key cfg req) as [key|] eqn:Hk.
  - assert (Hk' := Hk). rewrite <- (limiter_key_with_body cfg req doc') in Hk'.
    rewrite (serve_limiter _ _ _ _ _ _ Hk), (serve_limiter _ _ _ _ _ _ Hk') in *.
    cbn [fst] in H. destruct (rate_limit cfg now key st).1; [|done].
    exfalso. destruct H as [Hm|Hs].
    + unfold limiter_key in Hk. by rewrite Hm in Hk.
    + destruct (body_stage_outcome cfg req up) as (r & s & Hr & Ho). rewrite Hr in Hs.
      apply body_outcome_status in Ho. simpl in Hs. lia.
  - clear H. unfold limiter_key in Hk. unfold serve. cbn [method with_body].
    destruct (String.eqb (method req) "OPTIONS"); [done|].
    change (origin_gate cfg (with_body req doc')) with (origin_gate cfg req).
    destruct (origin_gate cfg req); [done|].
    change (auth_gate cfg (with_body req doc')) with (auth_gate cfg req).
    destruct (auth_gate cfg req); done.
Qed.

Lemma early_answers_ignore_body_witness :
  let req := post None (Some "Bearer wrong"%string) (url_doc "https://www.instagram.com/p/ABC123/") in
  serve closed_origins empty_limiter 0 (Throw NetworkError) (with_body req (Throw SyntaxError))
  = serve closed_origins empty_limiter 0 (reply [hd_media]) req.
Proof.
  apply (early_answers_ignore_body closed_origins empty_limiter 0 (reply [hd_media])
           (post None (Some "Bearer wrong"%string) (url_doc "https://www.instagram.com/p/ABC123/"))).
  right. simpl. tauto.
Defined.

(** ** The rate limiter, further *)

(** The handler answers RATE_LIMITED exactly when a request reaches the
    limiter, the map holds an entry for its identity whose reset time has not
    passed, and the entry's count plus one exceeds the maximum. *)
Theorem rate_limited_exact cfg st now up req :
  limiter_ok st →
  (has_code (serve cfg st now up req).1 "RATE_LIMITED"
   ↔ ∃ key e, limiter_key cfg req = Some key ∧ stored st key = Some e
            ∧ num_gt (Int now) (resetTime e) = false
            ∧ num_gt (Int (count e + 1)) (RATE_LIMIT_MAX_REQUESTS cfg) = true).
Proof.
  intros Hok. split.
  - intros Hc. destruct (limiter_key cfg req) as [key|] eqn:Hk.
    + exists key. rewrite (serve_limiter _ _ _ _ _ _ Hk) in Hc. cbn [fst] in Hc.
      destruct (stored st key) as [e|] eqn:He.
      * exists e. split; [done|]. split; [done|].
        destruct (num_gt (Int now) (resetTime e)) eqn:Hgt.
        { rewrite (rate_limit_expired _ _ _ _ _ He Hgt) in Hc.
          by apply body_stage_not_limited in Hc. }
        split; [done|].
        destruct (rate_limit_in_window cfg now key _ _ Hok He Hgt) as (st' & Hrl & _).
        rewrite Hrl in Hc. cbn [fst] in Hc.
        destruct (num_gt (Int (count e + 1)) _); [done|].
        by apply body_stage_not_limited in Hc.
      * rewrite (rate_limit_fresh _ _ _ _ Hok He) in Hc.
        by apply body_stage_not_limited in Hc.
    + exfalso. destruct (decide (method req = "OPTIONS"%string)) as [Hm|Hm].
      { by rewrite (serve_options _ _ _ _ _ Hm) in Hc. }
      destruct (origin_gate cfg req) as [r|] eqn:Ho.
      * rewrite (serve_origin_rejected _ _ _ _ _ _ Hm Ho) in Hc.
        apply origin_gate_some in Ho as ->. by apply has_code_failure in Hc.
      * destruct (auth_gate cfg req) as [r|token] eqn:Ha.
        -- rewrite (serve_auth_rejected _ _ _ _ _ _ Hm Ho Ha) in Hc.
           apply auth_gate_inl in Ha as [-> | ->]; by apply has_code_failure in Hc.
        -- rewrite (limiter_key_auth _ _ _ Hm Ho Ha) in Hk. done.
  - intros (key & e & Hk & He & Hgt & Hmax).
    destruct (rate_limit_in_window cfg now key _ _ Hok He Hgt) as (st' & Hrl & _).
    rewrite (serve_limiter _ _ _ _ _ _ Hk), Hrl, Hmax. by apply has_code_failure.
Qed.

Lemma rate_limited_exact_witness :
  let req := post None (Some "Bearer tok"%string) (url_doc "https://www.instagram.com/p/ABC123/") in
  let st := run limit3 [(0, "tok"%string); (1, "tok"%string); (2, "tok"%string)] empty_limiter in
  has_code (serve limit3 st 3 (reply [hd_media]) req).1 "RATE_LIMITED"
  ↔ ∃ key e, limiter_key limit3 req = Some key ∧ stored st key = Some e
           ∧ num_gt (Int 3) (resetTime e) = false
           ∧ num_gt (Int (count e + 1)) (RATE_LIMIT_MAX_REQUESTS limit3) = true.
Proof.
  apply (rate_limited_exact limit3
           (run limit3 [(0, "tok"%string); (1, "tok"%string); (2, "tok"%string)] empty_limiter)).
  apply run_ok. apply empty_limiter_ok.
Defined.

(** When the configured maximum is [NaN] (a value [parseInt] could not
    read), no comparison with it succeeds and no request is ever answered
    RATE_LIMITED. *)
Theorem nan_maximum_never_limits cfg st now up req :
  RATE_LIMIT_MAX_REQUESTS cfg = NaN →
  ¬ has_code (serve cfg st now up req).1 "RATE_LIMITED"
  ∧ status (serve cfg st now up req).1 ≠ 429.
Proof.
  intros Hnan.
  assert (Hadm : ∀ key, (rate_limit cfg now key st).1 = true).
  { intros key. unfold rate_limit. rewrite Hnan. repeat case_match; done. }
  assert (Hno : ¬ has_code (serve cfg st now up req).1 "RATE_LIMITED").
  { intros Hc. destruct (limiter_key cfg req) as [key|] eqn:Hk.
    - rewrite (serve_limiter _ _ _ _ _ _ Hk), Hadm in Hc.
      by apply body_stage_not_limited in Hc.
    - destruct (decide (method req = "OPTIONS"%string)) as [Hm|Hm].
      { by rewrite (serve_options _ _ _ _ _ Hm) in Hc. }
      destruct (origin_gate cfg req) as [r|] eqn:Ho.
      + rewrite (serve_origin_rejected _ _ _ _ _ _ Hm Ho) in Hc.
        apply origin_gate_some in Ho as ->. by apply has_code_failure in Hc.
      + destruct (auth_gate cfg req) as [r|token] eqn:Ha.
        * rewrite (serve_auth_rejected _ _ _ _ _ _ Hm Ho Ha) in Hc.
          apply auth_gate_inl in Ha as [-> | ->]; by apply has_code_failure in Hc.
        * rewrite (limiter_key_auth _ _ _ Hm Ho Ha) in Hk. done. }
  split; [done|]. intros Hs.
  destruct (serve_shape cfg st now up req) as [[_ E]|(_ & res & s & E & Hd)];
    rewrite E in *; [done|].
  apply dispatched_code in Hd. simpl in Hs. subst s.
  destruct (errorCode res) as [c|] eqn:Hc; [|done]. destruct Hd as [Hin _].
  simpl in Hin. repeat destruct Hin as [Hin|Hin]; try done.
  injection Hin as <-. apply Hno. unfold has_code.
  by rewrite error_code_jsonResponse, Hc.
Qed.

Lemma nan_maximum_never_limits_witness :
  let cfg := {| ALLOWED_ORIGINS := ["*"%string]; REQUIRED_API_KEY := None;
                RATE_LIMIT_WINDOW_SECONDS := Int 60; RATE_LIMIT_MAX_REQUESTS := NaN |} in
  let req := post None (Some "Bearer tok"%string) (url_doc "https://www.instagram.com/p/ABC123/") in
  let st := run cfg [(0, "tok"%string); (1, "tok"%string); (2, "tok"%string)] empty_limiter in
  ¬ has_code (serve cfg st 3 (reply [hd_media]) req).1 "RATE_LIMITED"
  ∧ status (serve cfg st 3 (reply [hd_media]) req).1 ≠ 429.
Proof.
  apply (nan_maximum_never_limits
           {| ALLOWED_ORIGINS := ["*"%string]; REQUIRED_API_KEY := None;
              RATE_LIMIT_WINDOW_SECONDS := Int 60; RATE_LIMIT_MAX_REQUESTS := NaN |}).
  reflexivity.
Defined.

(** The reset time of a new window is [now + W * 1000] in doubles.  A
    window of 2^53 seconds opened at time 1 is stored with the reset time
    9007199254740992000: the sum is rounded back to the product.  When the
    window is [NaN] the reset time is [NaN]; no time exceeds it, so the
    window never ends and a later request of the identity, at any time, is
    counted in it. *)
Theorem reset_time_is_a_double cfg st now key :
  limiter_ok st →
  let st' := open_window cfg now key st in
  (RATE_LIMIT_WINDOW_SECONDS cfg = Int (2 ^ 53) → now = 1 →
     stored st' key = Some {| count := 1; resetTime := Int 9007199254740992000 |})
  ∧ (RATE_LIMIT_WINDOW_SECONDS cfg = NaN →
     stored st' key = Some {| count := 1; resetTime := NaN |}
     ∧ ∀ t, stored (rate_limit cfg t key st').2 key = Some {| count := 2; resetTime := NaN |}).
Proof.
  intros Hok st'. subst st'. rewrite open_window_stored. unfold window_entry. split.
  - intros -> ->. vm_compute. reflexivity.
  - intros Hw. rewrite Hw. split; [reflexivity|]. intros t.
    destruct (rate_limit_in_window cfg t key (open_window cfg now key st)
                {| count := 1; resetTime := NaN |}) as (st2 & -> & _ & Hst & _).
    + by apply open_window_ok.
    + rewrite open_window_stored. unfold window_entry. by rewrite Hw.
    + reflexivity.
    + exact Hst.
Qed.

Lemma reset_time_is_a_double_witness :
  let cfg := {| ALLOWED_ORIGINS := ["*"%string]; REQUIRED_API_KEY := None;
                RATE_LIMIT_WINDOW_SECONDS := Int (2 ^ 53);
                RATE_LIMIT_MAX_REQUESTS := Int 10 |} in
  stored (open_window cfg 1 "tok" empty_limiter) "tok"
  = Some {| count := 1; resetTime := Int 9007199254740992000 |}.
Proof.
  destruct (reset_time_is_a_double
              {| ALLOWED_ORIGINS := ["*"%string]; REQUIRED_API_KEY := None;
                 RATE_LIMIT_WINDOW_SECONDS := Int (2 ^ 53);
                 RATE_LIMIT_MAX_REQUESTS := Int 10 |} empty_limiter 1 "tok"
              empty_limiter_ok) as [H _].
  exact (H eq_refl eq_refl).
Defined.

(** A request changes the entry of no identity but its own: one client's
    requests never use up another client's allowance. *)
Theorem other_identities_untouched cfg st now up req key' :
  limiter_ok st →
  limiter_key cfg req ≠ Some key' →
  stored (serve cfg st now up req).2 key' = stored st key'.
Proof.
  intros Hok Hne. destruct (limiter_key cfg req) as [key|] eqn:Hk.
  - rewrite (serve_limiter _ _ _ _ _ _ Hk). cbn [snd].
    apply rate_limit_frame; [done|]. congruence.
  - by rewrite (serve_early _ _ _ _ _ Hk).
Qed.

Lemma other_identities_untouched_witness :
  let st := run limit3 [(0, "alice"%string); (1, "bob"%string)] empty_limiter in
  let req := post None (Some "Bearer alice"%string) (url_doc "https://www.instagram.com/p/ABC123/") in
  stored (serve limit3 st 2 (reply [hd_media]) req).2 "bob" = stored st "bob".
Proof.
  apply (other_identities_untouched limit3
           (run limit3 [(0, "alice"%string); (1, "bob"%string)] empty_limiter)).
  - apply run_ok. apply empty_limiter_ok.
  - discriminate.
Defined.

Lemma rate_limit_counts cfg now key st n :
  limiter_ok st → 0 ≤ n →
  (∀ k e, stored st k = Some e → 1 ≤ count e ≤ n) →
  ∀ k e, stored (rate_limit cfg now key st).2 k = Some e → 1 ≤ count e ≤ n + 1.
Proof.
  intros Hok Hn Hall k e.
  destruct (decide (k = key)) as [->|Hne].
  - destruct (stored st key) as [e0|] eqn:He0.
    + destruct (num_gt (Int now) (resetTime e0)) eqn:Hgt.
      * rewrite (rate_limit_expired _ _ _ _ _ He0 Hgt). cbn [snd].
        rewrite open_window_stored. intros [= <-]. simpl. specialize (Hall _ _ He0). lia.
      * destruct (rate_limit_in_window cfg now key _ _ Hok He0 Hgt) as (st' & -> & _ & Hst & _).
        cbn [snd]. rewrite Hst. intros [= <-]. simpl. specialize (Hall _ _ He0). lia.
    + rewrite (rate_limit_fresh _ _ _ _ Hok He0). cbn [snd].
      rewrite open_window_stored. intros [= <-]. simpl. lia.
  - rewrite rate_limit_frame by done. intros He. specialize (Hall _ _ He). lia.
Qed.

(** Starting from the empty map, after any sequence of requests the
    limiter's memory is well formed and every entry in it has a count of at
    least 1 and at most the number of requests served. *)
Theorem reachable_limiter cfg inputs :
  let st := serve_all cfg inputs empty_limiter in
  limiter_ok st
  ∧ ∀ key e, stored st key = Some e → 1 ≤ count e ≤ Z.of_nat (length inputs).
Proof.
  assert (Hgen : ∀ inputs st n,
            limiter_ok st → 0 ≤ n →
            (∀ k e, stored st k = Some e → 1 ≤ count e ≤ n) →
            limiter_ok (serve_all cfg inputs st)
            ∧ ∀ k e, stored (serve_all cfg inputs st) k = Some e
                     → 1 ≤ count e ≤ n + Z.of_nat (length inputs)).
  { clear inputs. induction inputs as [|[[now up] req] inputs IH]; intros st n Hok Hn Hall.
    - simpl. split; [done|]. intros k e He. specialize (Hall k e He). lia.
    - cbn [serve_all foldl fst snd]. fold (serve_all cfg inputs (serve cfg st now up req).2).
      destruct (IH (serve cfg st now up req).2 (n + 1)) as [Hok' Hall'].
      + by apply serve_ok.
      + lia.
      + destruct (limiter_key cfg req) as [key|] eqn:Hk.
        * rewrite (serve_limiter _ _ _ _ _ _ Hk). cbn [snd]. by apply rate_limit_counts.
        * rewrite (serve_early _ _ _ _ _ Hk). intros k e He. specialize (Hall k e He). lia.
      + split; [done|]. intros k e He. specialize (Hall' k e He).
        cbn [length]. lia. }
  intros st. subst st.
  destruct (Hgen inputs empty_limiter 0 empty_limiter_ok) as [Hok Hall]; [lia| |].
  - intros k e He. unfold stored in He. simpl in He. by rewrite lookup_empty in He.
  - split; [done|]. intros key e He. specialize (Hall key e He). lia.
Qed.

(** ** Tokens *)

Lemma split_on_no_sep sep s t : In t (split_on sep s) → contains_char sep t = false.
Proof.
  revert t. induction s as [|c s IH]; intros t; simpl.
  - intros [<-|[]]. done.
  - destruct (Ascii.eqb c sep) eqn:Hc.
    + intros [<-|Hin]; [done | by apply IH].
    + destruct (split_on sep s) as [|h rest] eqn:Hsp.
      * intros [<-|[]]. simpl. by rewrite Hc.
      * intros [<-|Hin].
        -- simpl. rewrite Hc. apply IH. by left.
        -- apply IH. by right.
Qed.

Lemma split_on_plain sep s : contains_char sep s = false → split_on sep s = [s].
Proof.
  induction s as [|c s IH]; simpl; [done|].
  intros H. apply orb_false_iff in H as [Hc Hs]. rewrite Hc, (IH Hs). done.
Qed.

Lemma token_no_space h t : token_of h = Some t → contains_char " " t = false.
Proof.
  unfold token_of. intros H. apply (split_on_no_sep " " h).
  apply list_elem_of_In. by eapply list_elem_of_lookup_2.
Qed.

Lemma token_of_bearer t : contains_char " " t = false → token_of ("Bearer " ++ t) = Some t.
Proof.
  intros H. unfold token_of. simpl. change (String.append "" t) with t.
  by rewrite (split_on_plain " " t H).
Qed.

Lemma contains_char_not_empty c s : contains_char c s = true → s ≠ ""%string.
Proof. by destruct s. Qed.

(** When an API key is configured, every request that gets past
    authentication is counted under that key: all callers share one
    rate-limit entry, whatever address they come from. *)
Theorem configured_key_is_the_identity cfg req key k :
  REQUIRED_API_KEY cfg = Some k → k ≠ ""%string →
  limiter_key cfg req = Some key →
  key = k.
Proof.
  intros Hk Hne. unfold limiter_key.
  destruct (String.eqb (method req) "OPTIONS"); [done|].
  destruct (origin_gate cfg req); [done|].
  destruct (auth_gate cfg req) as [r|token] eqn:Ha; [done|]. intros [= <-].
  unfold auth_gate in Ha. rewrite Hk in Ha. rewrite (str_truthy_some k Hne) in Ha.
  destruct (Authorization req) as [h|]; [|done].
  destruct (negb (str_truthy (Some h)) || negb (String.prefix "Bearer " h)); [done|].
  cbn [andb] in Ha. destruct (bool_decide (token_of h = Some k)) eqn:Hd; [|done].
  apply bool_decide_eq_true in Hd. injection Ha as <-. rewrite Hd.
  unfold rateLimitKey. by apply or_default_value.
Qed.

Lemma configured_key_is_the_identity_witness :
  let req := {| method := "POST"; Origin := None;
                X_Forwarded_For := Some "203.0.113.9"%string; X_Real_IP := None;
                CF_Connecting_IP := None;
                Authorization := Some "Bearer secret"%string;
                req_json := url_doc "https://www.instagram.com/p/ABC123/" |} in
  limiter_key closed_origins req = Some "secret"%string ∧ "secret"%string = "secret"%string.
Proof.
  split; [reflexivity|].
  apply (configured_key_is_the_identity closed_origins
           {| method := "POST"; Origin := None;
              X_Forwarded_For := Some "203.0.113.9"%string; X_Real_IP := None;
              CF_Connecting_IP := None;
              Authorization := Some "Bearer secret"%string;
              req_json := url_doc "https://www.instagram.com/p/ABC123/" |}
           "secret"%string "secret"%string); [reflexivity | discriminate | reflexivity].
Defined.

(** The token is cut at the first space after [Bearer ], so it never holds a
    space.  With an API key that contains a space no header can match: every
    request other than OPTIONS is answered 401 or 403, and none reaches the
    rate limiter. *)
Theorem key_with_space_admits_nobody cfg st now up req k :
  REQUIRED_API_KEY cfg = Some k → contains_char " " k = true →
  limiter_key cfg req = None
  ∧ (method req ≠ "OPTIONS"%string →
     status (serve cfg st now up req).1 = 401 ∨ status (serve cfg st now up req).1 = 403).
Proof.
  intros Hk Hsp.
  assert (Hauth : ∀ token, auth_gate cfg req ≠ inr token).
  { intros token Ha. unfold auth_gate in Ha. rewrite Hk in Ha.
    rewrite (str_truthy_some k) in Ha by by eapply contains_char_not_empty.
    destruct (Authorization req) as [h|]; [|done].
    destruct (negb (str_truthy (Some h)) || negb (String.prefix "Bearer " h)); [done|].
    cbn [andb] in Ha. destruct (bool_decide (token_of h = Some k)) eqn:Hd; [|done].
    apply bool_decide_eq_true in Hd. apply token_no_space in Hd. congruence. }
  assert (Hkey : limiter_key cfg req = None).
  { unfold limiter_key. repeat case_match; try done. by destruct (Hauth o). }
  split; [done|]. intros Hm.
  destruct (origin_gate cfg req) as [r|] eqn:Ho.
  - rewrite (serve_origin_rejected _ _ _ _ _ _ Hm Ho).
    apply origin_gate_some in Ho as ->. by right.
  - destruct (auth_gate cfg req) as [r|token] eqn:Ha; [|by destruct (Hauth token)].
    rewrite (serve_auth_rejected _ _ _ _ _ _ Hm Ho Ha).
    apply auth_gate_inl in Ha as [-> | ->]; by left.
Qed.

Lemma key_with_space_admits_nobody_witness :
  let cfg := {| ALLOWED_ORIGINS := ["*"%string]; REQUIRED_API_KEY := Some "my secret"%string;
                RATE_LIMIT_WINDOW_SECONDS := Int 60; RATE_LIMIT_MAX_REQUESTS := Int 10 |} in
  let req := post None (Some "Bearer my secret"%string)
               (url_doc "https://www.instagram.com/p/ABC123/") in
  limiter_key cfg req = None
  ∧ (method req ≠ "OPTIONS"%string →
     status (serve cfg empty_limiter 0 (reply [hd_media]) req).1 = 401
     ∨ status (serve cfg empty_limiter 0 (reply [hd_media]) req).1 = 403).
Proof.
  apply (key_with_space_admits_nobody
           {| ALLOWED_ORIGINS := ["*"%string]; REQUIRED_API_KEY := Some "my secret"%string;
              RATE_LIMIT_WINDOW_SECONDS := Int 60; RATE_LIMIT_MAX_REQUESTS := Int 10 |}
           empty_limiter 0 (reply [hd_media])
           (post None (Some "Bearer my secret"%string)
              (url_doc "https://www.instagram.com/p/ABC123/"))
           "my secret"%string); reflexivity.
Defined.

(** A header [Bearer t], with [t] not empty and free of spaces, yields the
    token [t]; when no key is configured or [t] is the configured key, a
    request with that header (other than OPTIONS and let through by the
    origin check) reaches the rate limiter under the identity [t]. *)
Theorem bearer_token_passes cfg req t :
  method req ≠ "OPTIONS"%string → origin_gate cfg req = None →
  Authorization req = Some ("Bearer " ++ t)%string →
  t ≠ ""%string → contains_char " " t = false →
  blank (REQUIRED_API_KEY cfg) ∨ REQUIRED_API_KEY cfg = Some t →
  token_of ("Bearer " ++ t) = Some t
  ∧ limiter_key cfg req = Some t.
Proof.
  intros Hm Ho Hh Hne Hsp Hkey.
  pose proof (token_of_bearer t Hsp) as Htok. split; [done|].
  assert (Ha : auth_gate cfg req = inr (Some t)).
  { unfold auth_gate. rewrite Hh, Htok.
    assert (Hc : negb (str_truthy (Some ("Bearer " ++ t)%string))
                 || negb (String.prefix "Bearer " ("Bearer " ++ t)) = false).
    { apply orb_false_iff. split; [reflexivity|]. apply negb_false_iff.
      cbv -[String.prefix]. cbv. by destruct t. }
    rewrite Hc. destruct Hkey as [[-> | ->] | ->]; [done | done |].
    rewrite (str_truthy_some t Hne). by rewrite bool_decide_eq_true_2. }
  rewrite (limiter_key_auth _ _ _ Hm Ho Ha). unfold rateLimitKey.
  f_equal. by apply or_default_value.
Qed.

Lemma bearer_token_passes_witness :
  let req := post None (Some "Bearer secret"%string)
               (url_doc "https://www.instagram.com/p/ABC123/") in
  token_of "Bearer secret" = Some "secret"%string
  ∧ limiter_key closed_origins req = Some "secret"%string.
Proof.
  apply (bearer_token_passes closed_origins
           (post None (Some "Bearer secret"%string)
              (url_doc "https://www.instagram.com/p/ABC123/"))
           "secret"%string);
    [discriminate | reflexivity | reflexivity | discriminate | reflexivity | right; reflexivity].
Defined.

(** ** Replies that are not of the expected form *)

(** A [medias] that is truthy and not an array (a non-empty string, a
    number, [true], an object) is answered by its [length]: 404 with
    NO_MEDIA_FOUND when [medias.length === 0], which among these values only
    an object with a [length] member equal to zero satisfies, and otherwise
    500 with FETCH_FAILED, the value having no [map] to call. *)
Theorem non_array_medias cfg st now req u result d m :
  forwards cfg st now req u →
  truthy_val (get "status" result) = true →
  get "data" result = Some d → get "medias" d = Some m →
  truthy m = true → (∀ items, m ≠ JArr items) →
  let r := (serve cfg st now (Normal result) req).1 in
  (length_is_zero m = true
   ↔ ∃ fields z, m = JObj fields ∧ own fields (js "length") = Some (JNum z) ∧ nonzero z = false)
  ∧ (length_is_zero m = true → status r = 404 ∧ has_code r "NO_MEDIA_FOUND")
  ∧ (length_is_zero m = false → status r = 500 ∧ has_code r "FETCH_FAILED").
Proof.
  intros Hf Hst Hd Hm Ht Hna r. subst r.
  destruct (serve_forwarded cfg st now (Normal result) req u Hf) as (res & Hres & ->).
  destruct Hf as (_ & _ & _ & _ & _ & _ & _ & _ & He).
  rewrite (fetch_forwarded u _ He) in Hres. injection Hres as <-.
  split; [|split].
  - split.
    + destruct m as [| | |s|items|fields]; try done.
      * by destruct s.
      * by destruct (Hna items).
      * simpl. destruct (own fields (js "length")) as [[| |z| | |]|] eqn:Hl; try done.
        intros Hz. exists fields, z. by destruct (nonzero z).
    + intros (fields & z & -> & Hl & Hz). simpl. by rewrite Hl, Hz.
  - intros Hz. rewrite (normalize_zero_length u result d m Hst Hd Hm Ht Hz).
    split; [done | by apply has_code_failure].
  - intros Hz.
    destruct (normalize_bad_medias u result d m Hst Hd Hm Ht Hz) as [e ->]; [by left|].
    split; [done | by apply has_code_failure].
Qed.

Lemma non_array_medias_witness :
  let req := post None (Some "Bearer tok"%string) (url_doc "https://www.instagram.com/p/ABC123/") in
  let answer m :=
    (serve default_config empty_limiter 0
       (Normal (JObj [(js "status", JBool true); (js "data", JObj [(js "medias", m)])])) req).1 in
  let zero := {| nonzero := false; finite := true; text := js "0" |} in
  (status (answer (JObj [(js "length", JNum zero)])) = 404
   ∧ has_code (answer (JObj [(js "length", JNum zero)])) "NO_MEDIA_FOUND")
  ∧ (status (answer (JStr (js "none"))) = 500
     ∧ has_code (answer (JStr (js "none"))) "FETCH_FAILED").
Proof.
  assert (Hf : forwards default_config empty_limiter 0
                 (post None (Some "Bearer tok"%string)
                    (url_doc "https://www.instagram.com/p/ABC123/"))
                 (JStr (js "https://www.instagram.com/p/ABC123/"))).
  { exists "tok"%string, (JObj [(js "url", JStr (js "https://www.instagram.com/p/ABC123/"))]).
    repeat split; reflexivity. }
  split.
  - apply (non_array_medias _ _ _ _ _
             (JObj [(js "status", JBool true);
                    (js "data", JObj [(js "medias",
                       JObj [(js "length", JNum {| nonzero := false; finite := true;
                                                   text := js "0" |})])])])
             (JObj [(js "medias",
                     JObj [(js "length", JNum {| nonzero := false; finite := true;
                                                 text := js "0" |})])])
             (JObj [(js "length", JNum {| nonzero := false; finite := true; text := js "0" |})])
             Hf); try reflexivity. discriminate.
  - apply (non_array_medias _ _ _ _ _
             (JObj [(js "status", JBool true); (js "data", JObj [(js "medias", JStr (js "none"))])])
             (JObj [(js "medias", JStr (js "none"))]) (JStr (js "none")) Hf);
      try reflexivity. discriminate.
Defined.

(** A URL that passes validation but holds an unpaired surrogate cannot be
    encoded for the upstream call: the request is answered 500 with
    FETCH_FAILED whatever the upstream would have replied. *)
Theorem unpaired_surrogate_is_fetch_failed cfg st now up req b s :
  at_body_stage cfg st now req →
  req_json req = Normal b → get "url" b = Some (JStr s) →
  url_shape s → well_formed_utf16 s = false →
  status (serve cfg st now up req).1 = 500
  ∧ has_code (serve cfg st now up req).1 "FETCH_FAILED".
Proof.
  intros Hst Hb Hu Hshape Hwf. rewrite (serve_at_body_stage _ _ _ _ _ Hst).
  unfold body_stage, process_body. unfold_bind. rewrite Hb.
  rewrite (prop_get "url" b) by by eapply get_some_not_null. rewrite Hu.
  assert (Hne : s ≠ []).
  { intros ->. destruct Hshape as (? & ? & ? & ? & ? & [-> | ->] & _ & _ & _ & _ & _ & E);
      discriminate E. }
  destruct s as [|c s]; [done|]. cbn [truthy negb]. rewrite isValidInstagramUrl_string.
  apply url_pattern_shape in Hshape. rewrite Hshape. cbn [negb].
  unfold fetchInstagramMedia, encodeURIComponent_ok. unfold_bind. cbn [to_string].
  rewrite Hwf. split; [done | by apply has_code_failure].
Qed.

Lemma unpaired_surrogate_is_fetch_failed_witness :
  let s := js "https://www.instagram.com/p/ABC123/" ++ [0xD800%N] in
  let req := post None (Some "Bearer tok"%string) (Normal (JObj [(js "url", JStr s)])) in
  status (serve default_config empty_limiter 0 (reply [hd_media]) req).1 = 500
  ∧ has_code (serve default_config empty_limiter 0 (reply [hd_media]) req).1 "FETCH_FAILED".
Proof.
  apply (unpaired_surrogate_is_fetch_failed default_config empty_limiter 0 (reply [hd_media])
           (post None (Some "Bearer tok"%string)
              (Normal (JObj [(js "url", JStr (js "https://www.instagram.com/p/ABC123/"
                                                ++ [0xD800%N]))])))
           (JObj [(js "url", JStr (js "https://www.instagram.com/p/ABC123/" ++ [0xD800%N]))])
           (js "https://www.instagram.com/p/ABC123/" ++ [0xD800%N])).
  - exists "tok"%string. split; reflexivity.
  - reflexivity.
  - reflexivity.
  - apply url_pattern_shape. reflexivity.
  - reflexivity.
Defined.

(** ** A [url] with a line terminator *)

Lemma id_char_dot c : id_char c = true → dot c = true.
Proof.
  intros H. unfold dot, line_terminator.
  destruct (N.eqb_spec c 0x000A) as [->|_]; [by vm_compute in H|].
  destruct (N.eqb_spec c 0x000D) as [->|_]; [by vm_compute in H|].
  destruct (N.eqb_spec c 0x2028) as [->|_]; [by vm_compute in H|].
  destruct (N.eqb_spec c 0x2029) as [->|_]; [by vm_compute in H|].
  done.
Qed.

Lemma url_shape_dot s : url_shape s → forallb dot s = true.
Proof.
  intros (scheme & www & seg & id & rest & Hsch & Hwww & Hseg & _ & Hid & Hrest & ->).
  rewrite !forallb_app, Hrest.
  assert (forallb dot id = true) as ->.
  { apply forallb_forall. intros c Hc. apply id_char_dot.
    by eapply forallb_forall in Hid. }
  destruct Hsch as [-> | ->], Hwww as [-> | ->], Hseg as [-> | [-> | ->]]; reflexivity.
Qed.

(** The [.] of the pattern does not match a line terminator and the pattern
    is anchored at both ends without the multiline flag: a [url] string
    holding a line feed, a carriage return, U+2028 or U+2029 anywhere is
    answered 400 with INVALID_INSTAGRAM_URL, whatever surrounds it. *)
Theorem line_terminator_is_rejected cfg st now up req b s c :
  at_body_stage cfg st now req →
  req_json req = Normal b → get "url" b = Some (JStr s) →
  In c s → line_terminator c = true →
  status (serve cfg st now up req).1 = 400
  ∧ has_code (serve cfg st now up req).1 "INVALID_INSTAGRAM_URL".
Proof.
  intros Hst Hb Hu Hin Hc. rewrite (serve_at_body_stage _ _ _ _ _ Hst).
  unfold body_stage, process_body. unfold_bind. rewrite Hb.
  rewrite (prop_get "url" b) by by eapply get_some_not_null. rewrite Hu.
  assert (Hacc : accepts url_pattern s = false).
  { destruct (accepts url_pattern s) eqn:Hacc; [|done].
    apply url_pattern_shape, url_shape_dot in Hacc.
    eapply forallb_forall in Hacc; [|exact Hin].
    unfold dot in Hacc. by rewrite Hc in Hacc. }
  destruct s as [|c' s]; [done|]. cbn [truthy negb]. rewrite isValidInstagramUrl_string, Hacc.
  split; [done | by apply has_code_failure].
Qed.

Lemma line_terminator_is_rejected_witness :
  let s := js "https://www.instagram.com/p/ABC123/" ++ [0x000A%N] ++ js "next" in
  let req := post None (Some "Bearer tok"%string) (Normal (JObj [(js "url", JStr s)])) in
  status (serve default_config empty_limiter 0 (reply [hd_media]) req).1 = 400
  ∧ has_code (serve default_config empty_limiter 0 (reply [hd_media]) req).1
      "INVALID_INSTAGRAM_URL".
Proof.
  apply (line_terminator_is_rejected default_config empty_limiter 0 (reply [hd_media])
           (post None (Some "Bearer tok"%string)
              (Normal (JObj [(js "url", JStr (js "https://www.instagram.com/p/ABC123/"
                                                ++ [0x000A%N] ++ js "next"))])))
           (JObj [(js "url", JStr (js "https://www.instagram.com/p/ABC123/"
                                     ++ [0x000A%N] ++ js "next"))])
           (js "https://www.instagram.com/p/ABC123/" ++ [0x000A%N] ++ js "next")
           0x000A%N).
  - exists "tok"%string. split; reflexivity.
  - reflexivity.
  - reflexivity.
  - apply in_or_app. right. by left.
  - reflexivity.
Defined.

(** ** A [url] that is not a string *)

Lemma normalize_original_url u result r m :
  normalize u result = Normal r → data r = Some m → originalUrl m = u.
Proof.
  unfold normalize. unfold_bind. intros H.
  repeat (case_match; simplify_eq); simpl; try done. by intros [= <-].
Qed.

Lemma fetch_original_url u up res m :
  fetchInstagramMedia u up = Normal res → data res = Some m → originalUrl m = u.
Proof.
  unfold fetchInstagramMedia. unfold_bind. intros H.
  destruct (encodeURIComponent_ok u) as [[]|]; [destruct up as [result|]|].
  - destruct (normalize u result) as [r'|] eqn:Hn.
    + simplify_eq. by eapply normalize_original_url.
    + case_match; simplify_eq; done.
  - case_match; simplify_eq; done.
  - case_match; simplify_eq; done.
Qed.

(** The pattern is tested on the string conversion of [url], so a
    one-element array that wraps a string is validated as that string: it is
    never answered URL_REQUIRED (an array is truthy, even around the empty
    string), it is answered INVALID_INSTAGRAM_URL exactly when the string
    does not have the shape, and otherwise the array itself is what is
    forwarded and reported back. *)
Theorem array_url_is_unwrapped cfg st now up req b s :
  at_body_stage cfg st now req →
  req_json req = Normal b → get "url" b = Some (JArr [JStr s]) →
  let r := (serve cfg st now up req).1 in
  ¬ has_code r "URL_REQUIRED"
  ∧ (¬ url_shape s → status r = 400 ∧ has_code r "INVALID_INSTAGRAM_URL")
  ∧ (url_shape s →
       ∃ res, fetchInstagramMedia (JArr [JStr s]) up = Normal res
              ∧ r = jsonResponse cfg res (status_of res) (Origin req)
              ∧ ∀ m, data res = Some m → originalUrl m = JArr [JStr s]).
Proof.
  intros Hst Hb Hu r. subst r. rewrite (serve_at_body_stage _ _ _ _ _ Hst).
  unfold body_stage, process_body. unfold_bind. rewrite Hb.
  rewrite (prop_get "url" b) by by eapply get_some_not_null. rewrite Hu.
  cbn [truthy negb].
  change (isValidInstagramUrl (JArr [JStr s])) with (Normal (A:=bool) (accepts url_pattern s)).
  destruct (accepts url_pattern s) eqn:Hacc; cbn [negb].
  - apply url_pattern_shape in Hacc.
    destruct (fetch_after_validation (JArr [JStr s]) (accepts url_pattern s) up eq_refl)
      as [res Hres].
    rewrite Hres. split; [|split; [done|]].
    + intros Hc. by destruct (fetch_codes _ _ _ _ _ _ _ Hres Hc).
    + intros _. exists res. split; [done|]. split; [done|].
      intros m Hm. by eapply fetch_original_url.
  - assert (Hno : ¬ url_shape s).
    { intros H. apply url_pattern_shape in H. congruence. }
    split; [rewrite has_code_failure; discriminate|].
    split; [|done]. intros _. split; [done | by apply has_code_failure].
Qed.

Lemma array_url_is_unwrapped_witness :
  let b := JObj [(js "url", JArr [JStr (js "https://www.instagram.com/p/ABC123/")])] in
  let req := post None (Some "Bearer tok"%string) (Normal b) in
  let r := (serve default_config empty_limiter 0 (reply [hd_media]) req).1 in
  status r = 200 ∧ ¬ has_code r "URL_REQUIRED".
Proof.
  destruct (array_url_is_unwrapped default_config empty_limiter 0 (reply [hd_media])
              (post None (Some "Bearer tok"%string)
                 (Normal (JObj [(js "url", JArr [JStr (js "https://www.instagram.com/p/ABC123/")])])))
              (JObj [(js "url", JArr [JStr (js "https://www.instagram.com/p/ABC123/")])])
              (js "https://www.instagram.com/p/ABC123/"))
    as (Hno & _ & _).
  - exists "tok"%string. split; reflexivity.
  - reflexivity.
  - reflexivity.
  - split; [reflexivity | exact Hno].
Defined.

(** ** The body of a success *)

Lemma media_json_members m :
  get "type" (media_json m) = Some (serialized (type m))
  ∧ get "originalUrl" (media_json m) = Some (serialized (originalUrl m))
  ∧ get "thumbnail" (media_json m) = serialized <$> thumbnail m
  ∧ get "downloadOptions" (media_json m) = Some (JArr (option_json <$> downloadOptions m)).
Proof. destruct m as [t o [th|] opts]; repeat split; reflexivity. Qed.

Lemma option_json_members o :
  get "quality" (option_json o) = Some (serialized (quality o))
  ∧ get "url" (option_json o) = serialized <$> url o
  ∧ get "size" (option_json o) = Some (serialized (size o))
  ∧ get "formattedSize" (option_json o) = None.
Proof. destruct o as [q [u|] z]; repeat split; reflexivity. Qed.

(** Serialisation changes nothing but numbers that are not finite: a
    string, a boolean, [null] and a finite number are written as they
    are. *)
Lemma serialized_scalar v :
  match v with
  | JArr _ | JObj _ => True
  | JNum d => finite d = true → serialized v = v
  | _ => serialized v = v
  end.
Proof. destruct v as [| |d| | |]; try done. simpl. by intros ->. Qed.

(** For a forwarded request and a usable reply, the body sent back
    holds under [data] the requested URL as [originalUrl], the reply's
    [thumbnail] (left out when the reply has none), and under
    [downloadOptions] one object per media of the reply, in order, each with
    the media's [url] (left out when the media has none), a [quality] and a
    [size], and never a [formattedSize].  The copied values are as
    [JSON.stringify] writes them: a number that is not finite, at any depth,
    appears as [null]. *)
Theorem success_body cfg st now req u result d items :
  forwards cfg st now req u →
  usable result d items →
  ∃ j dj opts,
    body (serve cfg st now (Normal result) req).1 = Some j
    ∧ get "data" j = Some dj
    ∧ get "originalUrl" dj = Some (serialized u)
    ∧ get "thumbnail" dj = serialized <$> get "thumbnail" d
    ∧ get "downloadOptions" dj = Some (JArr opts)
    ∧ length opts = length items
    ∧ ∀ i item, items !! i = Some item →
        ∃ oj, opts !! i = Some oj
          ∧ get "url" oj = serialized <$> get "url" item
          ∧ has "quality" oj = true ∧ has "size" oj = true
          ∧ has "formattedSize" oj = false.
Proof.
  intros Hf Hus.
  destruct (serve_forwarded cfg st now (Normal result) req u Hf) as (res & Hres & ->).
  destruct Hf as (_ & _ & _ & _ & _ & _ & _ & _ & He).
  rewrite (fetch_forwarded u _ He) in Hres. injection Hres as <-.
  destruct (normalize_usable u result d items Hus) as (opts & Hopts & ->).
  destruct Hus as (_ & _ & _ & _ & Hall).
  destruct (mapM_normalize_media items Hall) as (opts' & Hopts' & Hlen & Hnth).
  assert (opts' = opts) as -> by congruence.
  eexists _, _, _. split; [reflexivity|]. rewrite get_data. cbn [data success_with fmap option_fmap option_map].
  split; [reflexivity|].
  match goal with |- context [media_json ?m] =>
    destruct (media_json_members m) as (_ & Ho & Ht & Hd) end.
  rewrite Ho, Ht, Hd. cbn [originalUrl thumbnail downloadOptions].
  split; [done|]. split; [done|]. split; [done|].
  split; [by rewrite length_fmap|].
  intros i item Hi. rewrite list_lookup_fmap, (Hnth i item Hi). cbn [fmap option_fmap option_map].
  eexists. split; [reflexivity|]. unfold has.
  match goal with |- context [option_json ?o] =>
    destruct (option_json_members o) as (-> & -> & -> & ->) end.
  done.
Qed.

Lemma success_body_witness :
  let req := post None (Some "Bearer tok"%string) (url_doc "https://www.instagram.com/p/ABC123/") in
  let huge := JNum {| nonzero := true; finite := false; text := js "Infinity" |} in
  let up := Normal (JObj [(js "status", JBool true);
                          (js "data", JObj [(js "thumbnail", huge);
                                            (js "medias", JArr [hd_media])])]) in
  ∃ j dj opts,
    body (serve default_config empty_limiter 0 up req).1 = Some j
    ∧ get "data" j = Some dj
    ∧ get "originalUrl" dj = Some (JStr (js "https://www.instagram.com/p/ABC123/"))
    ∧ get "thumbnail" dj = Some JNull
    ∧ get "downloadOptions" dj = Some (JArr opts)
    ∧ length opts = 1%nat.
Proof.
  destruct (success_body default_config empty_limiter 0
              (post None (Some "Bearer tok"%string)
                 (url_doc "https://www.instagram.com/p/ABC123/"))
              (JStr (js "https://www.instagram.com/p/ABC123/"))
              (JObj [(js "status", JBool true);
                     (js "data",
                      JObj [(js "thumbnail",
                             JNum {| nonzero := true; finite := false; text := js "Infinity" |});
                            (js "medias", JArr [hd_media])])])
              (JObj [(js "thumbnail",
                      JNum {| nonzero := true; finite := false; text := js "Infinity" |});
                     (js "medias", JArr [hd_media])]) [hd_media])
    as (j & dj & opts & Hb & Hd & Ho & Ht & Hopts & Hlen & _).
  - exists "tok"%string, (JObj [(js "url", JStr (js "https://www.instagram.com/p/ABC123/"))]).
    repeat split; reflexivity.
  - split; [reflexivity|]. split; [reflexivity|]. split; [reflexivity|].
    split; [discriminate|]. repeat constructor. discriminate.
  - exists j, dj, opts. repeat split; assumption.
Defined.

(** * Properties of the earlier handler *)

Lemma matches_any (s : jsstr) : matches (Star Legacy.any_char) s.
Proof. apply matches_star_sym. by induction s. Qed.

Lemma site_pattern_contains s :
  accepts Legacy.site_pattern s = true ↔ ∃ a c, s = a ++ js "instagram.com" ++ c.
Proof.
  rewrite accepts_spec. unfold Legacy.site_pattern. split.
  - intros H. apply matches_cat in H as (a & ? & -> & _ & H).
    apply matches_cat in H as (m & c & -> & Hm & _). apply matches_lit in Hm as ->.
    by exists a, c.
  - intros (a & c & ->). apply matches_cat. exists a, (js "instagram.com" ++ c).
    split; [done|]. split; [apply matches_any|].
    apply matches_cat. exists (js "instagram.com"), c.
    split; [done|]. split; [by apply matches_lit | apply matches_any].
Qed.

(** The earlier handler's URL test is a search for the text
    [instagram.com]: for a request other than OPTIONS whose body holds a
    non-empty string as [url], it answers 400 exactly when the string does
    not contain that text, and 200 otherwise. *)
Theorem legacy_url_test message_of up req b s :
  method req ≠ "OPTIONS"%string →
  req_json req = Normal b → get "url" b = Some (JStr s) → s ≠ [] →
  let r := Legacy.serve message_of up req in
  ((∃ a c, s = a ++ js "instagram.com" ++ c) → status r = 200)
  ∧ (¬ (∃ a c, s = a ++ js "instagram.com" ++ c) →
       status r = 400
       ∧ body r = Some (JObj [(js "error", JStr (js "Please enter a valid Instagram URL"))])).
Proof.
  intros Hm Hb Hu Hne r. subst r. apply method_not_options in Hm.
  unfold Legacy.serve, Legacy.process_body. unfold_bind. rewrite Hm, Hb.
  rewrite (prop_get "url" b) by by eapply get_some_not_null. rewrite Hu.
  destruct s as [|c0 s]; [done|]. cbn [truthy negb to_string].
  destruct (accepts Legacy.site_pattern (c0 :: s)) eqn:Hacc; cbn [negb].
  - split; [done|]. intros Hno. exfalso. apply Hno. by apply site_pattern_contains.
  - split; [|done]. intros Hyes. apply site_pattern_contains in Hyes. congruence.
Qed.

Lemma legacy_url_test_witness :
  let r := Legacy.serve (λ _, []) (reply [hd_media])
             (post None None (url_doc "see instagram.com for more")) in
  ((∃ a c, js "see instagram.com for more" = a ++ js "instagram.com" ++ c) → status r = 200)
  ∧ (¬ (∃ a c, js "see instagram.com for more" = a ++ js "instagram.com" ++ c) →
       status r = 400
       ∧ body r = Some (JObj [(js "error", JStr (js "Please enter a valid Instagram URL"))])).
Proof.
  apply (legacy_url_test (λ _, []) (reply [hd_media])
           (post None None (url_doc "see instagram.com for more"))
           (JObj [(js "url", JStr (js "see instagram.com for more"))])
           (js "see instagram.com for more"));
    [discriminate | reflexivity | reflexivity | discriminate].
Defined.

(** Every URL the gatekeeping handler's pattern accepts is accepted by the
    earlier handler's test too: the later pattern only narrows the earlier
    one. *)
Theorem gatekeeping_pattern_is_narrower s :
  accepts url_pattern s = true → accepts Legacy.site_pattern s = true.
Proof.
  intros H. apply url_pattern_shape in H
    as (scheme & www & seg & id & rest & _ & _ & _ & _ & _ & _ & ->).
  apply site_pattern_contains.
  exists (scheme ++ www), (js "/" ++ seg ++ js "/" ++ id ++ rest).
  rewrite <- !app_assoc. reflexivity.
Qed.

Lemma gatekeeping_pattern_is_narrower_witness :
  accepts Legacy.site_pattern (js "https://www.instagram.com/p/ABC123/") = true.
Proof.
  apply (gatekeeping_pattern_is_narrower (js "https://www.instagram.com/p/ABC123/")).
  reflexivity.
Defined.

Lemma legacy_normalize_no_code u result r :
  Legacy.normalize u result = Normal r → has "errorCode" r = false.
Proof.
  unfold Legacy.normalize. unfold_bind. intros H.
  repeat (case_match; simplify_eq); reflexivity.
Qed.

Lemma legacy_fetch_no_code message_of u up :
  has "errorCode" (Legacy.fetchInstagramMedia message_of u up) = false.
Proof.
  unfold Legacy.fetchInstagramMedia. unfold_bind.
  destruct (encodeURIComponent_ok u) as [[]|]; [destruct up as [result|]|]; try reflexivity.
  destruct (Legacy.normalize u result) eqn:Hn; [|reflexivity].
  by eapply legacy_normalize_no_code.
Qed.

(** The earlier handler has no origin policy and no error codes: every
    response carries [Access-Control-Allow-Origin: *] whatever the request's
    origin, the status is 200, 400 or 500, and no body has an [errorCode]
    member. *)
Theorem legacy_responses message_of up req :
  let r := Legacy.serve message_of up req in
  headers r !! "Access-Control-Allow-Origin"%string = Some "*"%string
  ∧ (status r = 200 ∨ status r = 400 ∨ status r = 500)
  ∧ ∀ j, body r = Some j → has "errorCode" j = false.
Proof.
  intros r. subst r. unfold Legacy.serve, Legacy.process_body. unfold_bind.
  repeat case_match; simplify_eq; cbn [headers status body];
    (split; [reflexivity|]); (split; [tauto|]); intros doc Hdoc; simplify_eq;
    try reflexivity; apply legacy_fetch_no_code.
Qed.

(** Once the earlier handler has accepted a URL it answers 200 whatever
    becomes of the upstream call; a failed call shows only in the body, as
    [success:false] with the exception's message. *)
Theorem legacy_failure_is_200 message_of req b s e :
  method req ≠ "OPTIONS"%string →
  req_json req = Normal b → get "url" b = Some (JStr s) →
  accepts Legacy.site_pattern s = true →
  let r := Legacy.serve message_of (Throw e) req in
  status r = 200
  ∧ ∃ e', body r = Some (JObj [(js "success", JBool false); (js "error", JStr (message_of e'))]).
Proof.
  intros Hm Hb Hu Hacc r. subst r. apply method_not_options in Hm.
  unfold Legacy.serve, Legacy.process_body. unfold_bind. rewrite Hm, Hb.
  rewrite (prop_get "url" b) by by eapply get_some_not_null. rewrite Hu.
  destruct s as [|c0 s]; [discriminate Hacc|]. cbn [truthy negb to_string].
  rewrite Hacc. cbn [negb status body]. split; [done|].
  unfold Legacy.fetchInstagramMedia. unfold_bind.
  destruct (encodeURIComponent_ok (JStr (c0 :: s))) as [[]|e0]; eauto.
Qed.

Lemma legacy_failure_is_200_witness :
  let r := Legacy.serve (λ _, js "network down") (Throw NetworkError)
             (post None None (url_doc "https://www.instagram.com/p/ABC123/")) in
  status r = 200
  ∧ ∃ e', body r = Some (JObj [(js "success", JBool false);
                               (js "error", JStr ((λ _ : exn, js "network down") e'))]).
Proof.
  apply (legacy_failure_is_200 (λ _, js "network down")
           (post None None (url_doc "https://www.instagram.com/p/ABC123/"))
           (JObj [(js "url", JStr (js "https://www.instagram.com/p/ABC123/"))])
           (js "https://www.instagram.com/p/ABC123/") NetworkError);
    [discriminate | reflexivity | reflexivity | reflexivity].
Defined.

(** * Properties of the client hook *)

Module HookFacts.
Import Hook.

Lemma existsb_url_spec m (l : list InstagramMediaType) :
  existsb (λ item, bool_decide (media_url item = media_url m)) l = true
  ↔ media_url m ∈ media_url <$> l.
Proof.
  rewrite existsb_exists, list_elem_of_fmap. split.
  - intros (x & Hin & Hx). apply bool_decide_eq_true in Hx.
    exists x. split; [done | by apply list_elem_of_In].
  - intros (x & Hx & Hin). exists x. split; [by apply list_elem_of_In|].
    by apply bool_decide_eq_true.
Qed.

(** The list of recent downloads stays within [MAX_RECENT_DOWNLOADS] and
    free of repeated URLs: a list that has both properties keeps them through
    any call of [downloadMedia], whatever the media, the quality asked for
    and the fate of the DOM calls. *)
Theorem recent_downloads_invariant dom_ok m q st recent :
  (length recent ≤ MAX_RECENT_DOWNLOADS)%nat →
  NoDup (media_url <$> recent) →
  let recent' := (downloadMedia dom_ok m q st recent).2 in
  (length recent' ≤ MAX_RECENT_DOWNLOADS)%nat ∧ NoDup (media_url <$> recent').
Proof.
  intros Hlen Hnd recent'. subst recent'. unfold downloadMedia.
  destruct (find _ (downloadOptions m)); [|done]. destruct dom_ok; [|done].
  cbn [snd]. unfold addRecent.
  destruct (existsb _ recent) eqn:Hex; [done|].
  assert (Hnot : media_url m ∉ media_url <$> recent).
  { intros H. apply existsb_url_spec in H. congruence. }
  split.
  - rewrite length_take. unfold MAX_RECENT_DOWNLOADS. lia.
  - rewrite fmap_take. eapply sublist_NoDup; [|apply sublist_take].
    rewrite fmap_cons. by constructor.
Qed.

Lemma recent_downloads_invariant_witness :
  let media_at u :=
    {| type := post; media_url := js u; thumbnail := js "t"; downloadOptions := [
         {| quality := high; url := js "https://cdn.example/a.mp4"; size := js "2MB" |}] |} in
  let recent := media_at <$> ["A"; "B"; "C"; "D"; "E"]%string in
  let recent' := (downloadMedia true (media_at "F"%string) high initial_state recent).2 in
  (length recent' ≤ MAX_RECENT_DOWNLOADS)%nat ∧ NoDup (media_url <$> recent').
Proof.
  apply (recent_downloads_invariant true
           {| type := post; media_url := js "F"; thumbnail := js "t"; downloadOptions := [
                {| quality := high; url := js "https://cdn.example/a.mp4"; size := js "2MB" |}] |}
           high initial_state
           ((λ u, {| type := post; media_url := js u; thumbnail := js "t"; downloadOptions := [
                       {| quality := high; url := js "https://cdn.example/a.mp4";
                          size := js "2MB" |}] |})
              <$> ["A"; "B"; "C"; "D"; "E"]%string)).
  - simpl. unfold MAX_RECENT_DOWNLOADS. lia.
  - refine (bool_decide_unpack (NoDup _) _). vm_compute. exact I.
Defined.

(** After a download that went through, the media is among the recent
    downloads, first in the list when it was not there before; a media
    already listed leaves the list as it is (it is not moved to the front),
    so a second download of the same media changes nothing.  A download that
    finds no option of the quality asked for, or whose DOM calls fail, leaves
    the list untouched and sets an error code. *)
Theorem recent_after_download dom_ok m q st recent :
  let out := downloadMedia dom_ok m q st recent in
  (errorCode out.1 = None →
     media_url m ∈ media_url <$> out.2
     ∧ (media_url m ∈ media_url <$> recent → out.2 = recent)
     ∧ (media_url m ∉ media_url <$> recent → head out.2 = Some m)
     ∧ (downloadMedia dom_ok m q out.1 out.2).2 = out.2)
  ∧ (errorCode out.1 ≠ None → out.2 = recent).
Proof.
  intros out. subst out. unfold downloadMedia.
  destruct (find _ (downloadOptions m)) eqn:Hfind; [|split; done].
  destruct dom_ok; [|split; done]. cbn [fst snd errorCode]. split; [|done]. intros _.
  unfold addRecent. destruct (existsb _ recent) eqn:Hex.
  - pose proof Hex as Hin. apply existsb_url_spec in Hin.
    split; [done|]. split; [done|]. split; [done|]. by rewrite Hex.
  - assert (Hnot : media_url m ∉ media_url <$> recent).
    { intros H. apply existsb_url_spec in H. congruence. }
    unfold MAX_RECENT_DOWNLOADS. cbn [take].
    split; [rewrite fmap_cons; by left|]. split; [done|]. split; [done|].
    cbn [existsb]. by rewrite bool_decide_eq_true_2.
Qed.

(** *** File names *)

Lemma split_dot_cons c s :
  split_dot (c :: s)
  = if N.eqb c 46 then [] :: split_dot s
    else match split_dot s with
         | h :: t => (c :: h) :: t
         | [] => [[c]]
         end.
Proof. reflexivity. Qed.

Lemma split_dot_nonempty s : split_dot s ≠ [].
Proof.
  destruct s as [|c s]; [done|]. rewrite split_dot_cons. by repeat case_match.
Qed.

Lemma dot_free_cons c s : dot_free (c :: s) ↔ N.eqb c 46 = false ∧ dot_free s.
Proof.
  unfold dot_free. rewrite Forall_cons. change (N_of_ascii ".") with 46%N.
  by rewrite N.eqb_neq.
Qed.

Lemma last_split_dot_free s x : last (split_dot s) = Some x → dot_free x.
Proof.
  revert x. induction s as [|c s IH]; intros x.
  - intros [= <-]. constructor.
  - rewrite split_dot_cons. pose proof (split_dot_nonempty s) as Hne.
    destruct (split_dot s) as [|h t] eqn:Hs; [done|].
    destruct (N.eqb c 46) eqn:Hc.
    + intros Hl. by apply IH.
    + destruct t as [|h' t].
      * intros [= <-]. apply dot_free_cons. split; [done|]. by apply IH.
      * intros Hl. by apply IH.
Qed.

Lemma split_dot_plain s : dot_free s → split_dot s = [s].
Proof.
  induction s as [|c s IH]; [done|]. intros [Hc Hs]%dot_free_cons.
  by rewrite split_dot_cons, Hc, (IH Hs).
Qed.

Lemma last_split_dot_app a b :
  dot_free b → last (split_dot (a ++ js "." ++ b)) = Some b.
Proof.
  intros Hb. induction a as [|c a IH].
  - change ([] ++ js "." ++ b) with (46%N :: b). rewrite split_dot_cons.
    by rewrite (split_dot_plain b Hb).
  - change ((c :: a) ++ js "." ++ b) with (c :: (a ++ js "." ++ b)).
    rewrite split_dot_cons. pose proof (split_dot_nonempty (a ++ js "." ++ b)) as Hne.
    destruct (split_dot (a ++ js "." ++ b)) as [|h t] eqn:Hs; [done|].
    destruct (N.eqb c 46); [done|].
    destruct t as [|h' t]; [|done]. exfalso.
    (* a single segment would be the whole text, which holds a dot *)
    assert (Hall : ∀ s, split_dot s = [h] → s = h).
    { clear. intros s. revert h. induction s as [|d s IHs]; intros h.
      - by intros [= <-].
      - rewrite split_dot_cons. destruct (N.eqb d 46); [pose proof (split_dot_nonempty s);
          destruct (split_dot s); done|].
        destruct (split_dot s) as [|h0 t0] eqn:E; [by destruct (split_dot_nonempty s)|].
        intros [= <- ->]. f_equal. by apply IHs. }
    apply Hall in Hs. simpl in IH. injection IH as ->.
    assert (Hd : dot_free (a ++ js "." ++ b)) by (by rewrite Hs).
    apply Forall_app in Hd as [_ Hd]. by inversion Hd.
Qed.

(** The extension of a download's file name is never empty and never holds
    a dot.  It is the text after the last dot of the option's URL when that
    text is not empty; a URL that ends in a dot, or is empty, gets [mp4]; and
    a URL without any dot is taken as the extension whole. *)
Theorem extension_cases u :
  extension u ≠ []
  ∧ dot_free (extension u)
  ∧ (∀ a b, u = a ++ js "." ++ b → dot_free b → b ≠ [] → extension u = b)
  ∧ (∀ a, u = a ++ js "." → extension u = js "mp4")
  ∧ (dot_free u → u ≠ [] → extension u = u)
  ∧ (u = [] → extension u = js "mp4").
Proof.
  unfold extension. split; [|split; [|split; [|split; [|split]]]].
  - by repeat case_match.
  - destruct (last (split_dot u)) as [[|c x]|] eqn:Hl;
      [by repeat constructor | by eapply last_split_dot_free | by repeat constructor].
  - intros a b -> Hb Hne. rewrite (last_split_dot_app a b Hb). by destruct b.
  - intros a ->. assert (Hnil : dot_free []) by constructor.
    pose proof (last_split_dot_app a [] Hnil) as H.
    rewrite app_nil_r in H. by rewrite H.
  - intros Hu Hne. rewrite (split_dot_plain u Hu). by destruct u.
  - by intros ->.
Qed.

(** *** Fetching *)

Lemma trimStart_blank s : trimStart s = [] ↔ forallb white_space s = true.
Proof.
  induction s as [|c s IH]; simpl; [done|].
  destruct (white_space c); simpl; [done|]. split; done.
Qed.

Lemma trim_blank s : trim s = [] ↔ forallb white_space s = true.
Proof.
  unfold trim. split.
  - intros H. apply (f_equal (@rev N)) in H. rewrite rev_involutive in H. simpl in H.
    apply trimStart_blank in H.
    destruct (trimStart s) as [|c r] eqn:Hs; [by apply trimStart_blank|].
    exfalso. assert (Hc : white_space c = false).
    { clear H. induction s as [|d s IH]; simpl in Hs; [done|].
      destruct (white_space d) eqn:Hd; [by apply IH|]. by simplify_eq. }
    rewrite forallb_forall in H. specialize (H c).
    rewrite H in Hc; [done|]. apply in_rev. rewrite rev_involutive. by left.
  - intros H. apply trimStart_blank in H. by rewrite H.
Qed.

(** [fetchMedia] takes its early exit, without a loading state and without
    calling the service, exactly for a URL made of white space only (the
    empty one included).  For any other URL it passes through the loading
    state and settles with [isLoading] false and exactly one of two
    pictures, whatever the state before: the fetched media and no error, or
    no media and an error text and error code that are both non-empty. *)
Theorem fetch_settles captured u outcome st :
  (forallb white_space u = true →
     ∃ s, fetchMedia captured u outcome st = [s]
          ∧ errorCode s = Some (js "EMPTY_URL_INPUT"))
  ∧ (forallb white_space u = false →
       ∃ final,
         fetchMedia captured u outcome st
         = [{| isLoading := true; error := None; errorCode := None; media := None |}; final]
         ∧ isLoading final = false
         ∧ ((∃ m, outcome = inl m ∧ media final = Some m
                  ∧ error final = None ∧ errorCode final = None)
            ∨ (∃ e msg c, outcome = inr e ∧ media final = None
                      ∧ error final = Some msg ∧ msg ≠ []
                      ∧ errorCode final = Some c ∧ c ≠ []))).
Proof.
  unfold fetchMedia. split.
  - intros H. apply trim_blank in H. rewrite H. eauto.
  - intros H. destruct (trim u) as [|c r] eqn:Ht.
    { apply trim_blank in Ht. congruence. }
    eexists. split; [reflexivity|]. destruct outcome as [m|e]; cbn.
    + split; [done|]. left. by exists m.
    + split; [done|]. right. eexists e, _, _. split; [done|]. split; [done|].
      split; [done|]. split; [|split; [done|]].
      * unfold or_text. by repeat case_match.
      * unfold or_text. by repeat case_match.
Qed.

End HookFacts.

(** * Properties of the configuration *)

Lemma split_on_cons_sep sep s : split_on sep (String sep s) = EmptyString :: split_on sep s.
Proof. simpl. by rewrite Ascii.eqb_refl. Qed.

Lemma split_on_nonempty sep s : split_on sep s ≠ [].
Proof. destruct s as [|c s]; simpl; [done|]. by repeat case_match. Qed.

Lemma split_on_app sep a s :
  contains_char sep a = false →
  split_on sep (a ++ String sep s) = a :: split_on sep s.
Proof.
  induction a as [|c a IH]; simpl.
  - intros _. by rewrite Ascii.eqb_refl.
  - intros H. apply orb_false_iff in H as [Hc Ha]. rewrite Hc, (IH Ha). done.
Qed.

Lemma split_on_concat sep parts :
  parts ≠ [] → Forall (λ p, contains_char sep p = false) parts →
  split_on sep (String.concat (String sep EmptyString) parts) = parts.
Proof.
  intros Hne Hall. induction Hall as [|p parts Hp Hall IH]; [done|].
  destruct parts as [|q parts].
  - simpl. by apply split_on_plain.
  - change (String.concat (String sep EmptyString) (p :: q :: parts))
      with (p ++ String sep (String.concat (String sep EmptyString) (q :: parts)))%string.
    rewrite (split_on_app sep p _ Hp). f_equal. by apply IH.
Qed.

Lemma unauthorized_origin_gate cfg st now up req :
  has_code (serve cfg st now up req).1 "UNAUTHORIZED_ORIGIN" →
  ∃ r, origin_gate cfg req = Some r.
Proof.
  intros Hc. destruct (origin_gate cfg req) as [r|] eqn:Ho; [by eexists|]. exfalso.
  destruct (decide (method req = "OPTIONS"%string)) as [Hm|Hm].
  { by rewrite (serve_options _ _ _ _ _ Hm) in Hc. }
  destruct (auth_gate cfg req) as [r|token] eqn:Ha.
  - rewrite (serve_auth_rejected _ _ _ _ _ _ Hm Ho Ha) in Hc. cbn [fst] in Hc.
    apply auth_gate_inl in Ha as [-> | ->]; by apply has_code_failure in Hc.
  - pose proof (limiter_key_auth _ _ _ Hm Ho Ha) as Hk.
    rewrite (serve_limiter _ _ _ _ _ _ Hk) in Hc. cbn [fst] in Hc.
    destruct (rate_limit cfg now _ st).1.
    + apply body_stage_code in Hc. simpl in Hc. repeat destruct Hc as [Hc|Hc]; done.
    + by apply has_code_failure in Hc.
Qed.

Lemma wildcard_origin_gate cfg req :
  "*"%string ∈ ALLOWED_ORIGINS cfg → origin_gate cfg req = None.
Proof.
  intros H. unfold origin_gate. rewrite (includes_true _ _ H).
  cbn [negb]. by rewrite andb_false_r.
Qed.

Lemma wildcard_allow_origin cfg o :
  str_truthy o = true → "*"%string ∈ ALLOWED_ORIGINS cfg →
  setCorsHeaders cfg o !! "Access-Control-Allow-Origin"%string = Some "*"%string.
Proof.
  intros Ho H. unfold setCorsHeaders. rewrite Ho, (includes_true _ _ H). cbn [andb].
  by rewrite lookup_insert_eq.
Qed.

Lemma serve_allow_origin cfg st now up req :
  headers (serve cfg st now up req).1 !! "Access-Control-Allow-Origin"%string
  = setCorsHeaders cfg (Origin req) !! "Access-Control-Allow-Origin"%string.
Proof.
  destruct (serve_shape cfg st now up req) as [[_ ->]|(_ & res & s & -> & _)]; [done|].
  apply jsonResponse_allow_origin.
Qed.

(** Splitting undoes joining: when [ALLOWED_ORIGINS] is set to a non-empty
    text made of parts joined by commas, none of the parts holding a comma,
    the allow-list is exactly these parts, each trimmed, in order. *)
Theorem allowed_origins_of_list parts :
  parts ≠ [] → Forall (λ p, contains_char "," p = false) parts →
  String.concat "," parts ≠ ""%string →
  parse_allowed_origins (Some (String.concat "," parts)) = trim_string <$> parts.
Proof.
  intros Hne Hall Hs. unfold parse_allowed_origins.
  replace (or_default (Some (String.concat "," parts)) "*") with (String.concat "," parts).
  - by rewrite (split_on_concat "," parts Hne Hall).
  - simpl. apply String.eqb_neq in Hs. by rewrite Hs.
Qed.

Lemma allowed_origins_of_list_witness :
  parse_allowed_origins (Some "https://app.example, https://admin.example ")
  = ["https://app.example"; "https://admin.example"]%string.
Proof.
  apply (allowed_origins_of_list ["https://app.example"; " https://admin.example "]%string).
  - discriminate.
  - repeat constructor.
  - discriminate.
Defined.

(** With [ALLOWED_ORIGINS] unset or empty the allow-list is the wildcard
    alone, so no request is ever answered UNAUTHORIZED_ORIGIN and every
    request that names an origin gets [Access-Control-Allow-Origin: *]. *)
Theorem default_origins_allow_all cfg st now up req env :
  blank env → ALLOWED_ORIGINS cfg = parse_allowed_origins env →
  ¬ has_code (serve cfg st now up req).1 "UNAUTHORIZED_ORIGIN"
  ∧ (str_truthy (Origin req) = true →
     headers (serve cfg st now up req).1 !! "Access-Control-Allow-Origin"%string
     = Some "*"%string).
Proof.
  intros Henv Hcfg.
  assert (Hall : ALLOWED_ORIGINS cfg = ["*"%string]).
  { rewrite Hcfg. by destruct Henv as [-> | ->]. }
  assert (Hwild : "*"%string ∈ ALLOWED_ORIGINS cfg) by (rewrite Hall; by left).
  split.
  - intros Hc. apply unauthorized_origin_gate in Hc as [r Hr].
    by rewrite (wildcard_origin_gate cfg req Hwild) in Hr.
  - intros Ho. rewrite serve_allow_origin. by apply wildcard_allow_origin.
Qed.

Lemma default_origins_allow_all_witness :
  let req := post (Some "https://anywhere.example"%string) None
               (url_doc "https://www.instagram.com/p/ABC123/") in
  ¬ has_code (serve default_config empty_limiter 0 (reply [hd_media]) req).1 "UNAUTHORIZED_ORIGIN"
  ∧ (str_truthy (Origin req) = true →
     headers (serve default_config empty_limiter 0 (reply [hd_media]) req).1
       !! "Access-Control-Allow-Origin"%string
     = Some "*"%string).
Proof.
  apply (default_origins_allow_all default_config empty_limiter 0 (reply [hd_media])
           (post (Some "https://anywhere.example"%string) None
              (url_doc "https://www.instagram.com/p/ABC123/"))
           None); [by left | reflexivity].
Defined.
